(** * Bookings report and maximum path: a verified model of [cayzn_test_max.py]

    The development follows the Python file top to bottom.  Python values are
    modelled as the code has them: integers are [Z], lists are [list],
    insertion-ordered dictionaries are association lists, objects of classes
    without [__eq__] carry their identity, and every operation that can raise
    returns a [result]. *)

From stdpp Require Import base tactics option list list_numbers numbers strings sorting.
From Stdlib Require Import ZArith Lia.
From Stdlib Require PrimFloat FloatAxioms Uint63.

Local Open Scope Z_scope.

(** ** Python runtime: exceptions, indexing, loops *)

Module Python.

(** The built-in exception classes the program can raise. *)
Inductive exn : Type :=
  | StopIteration   (* [next] on an exhausted generator *)
  | ValueError      (* [list.index] of an absent element *)
  | KeyError        (* [dict[k]] of an absent key *)
  | IndexError.     (* [list[i]] out of range *)

(** [issubclass(e, LookupError)]: in Python's hierarchy the subclasses of
    [LookupError] are [IndexError] and [KeyError]; [StopIteration] and
    [ValueError] derive from [Exception] directly. *)
Definition is_LookupError (e : exn) : bool :=
  match e with
  | KeyError | IndexError => true
  | StopIteration | ValueError => false
  end.

(** The outcome of running a piece of code: a value, an exception, or a loop
    that never ends. *)
Inductive result (A : Type) : Type :=
  | Ok (a : A)
  | Raise (e : exn)
  | Diverge.
Arguments Ok {A} a.
Arguments Raise {A} e.
Arguments Diverge {A}.

#[export] Instance exn_eq_dec : EqDecision exn.
Proof. solve_decision. Defined.

#[export] Instance result_eq_dec `{EqDecision A} : EqDecision (result A).
Proof. solve_decision. Defined.

#[export] Instance result_ret : MRet result := fun A a => Ok a.
#[export] Instance result_bind : MBind result := fun A B f m =>
  match m with
  | Ok a => f a
  | Raise e => Raise e
  | Diverge => Diverge
  end.

(** [len(l)] *)
Definition len {A} (l : list A) : Z := Z.of_nat (length l).

(** [l[i]]: a negative index counts from the end, an index out of range
    raises [IndexError]. *)
Definition getitem {A} (l : list A) (i : Z) : result A :=
  let j := if i <? 0 then i + len l else i in
  if (0 <=? j) && (j <? len l) then
    match l !! Z.to_nat j with
    | Some x => Ok x
    | None => Raise IndexError
    end
  else Raise IndexError.

(** [l[i] = x] *)
Definition setitem {A} (l : list A) (i : Z) (x : A) : result (list A) :=
  let j := if i <? 0 then i + len l else i in
  if (0 <=? j) && (j <? len l) then Ok (<[Z.to_nat j := x]> l)
  else Raise IndexError.

(** [t[i][j]] and [t[i][j] = x] on a list of lists; the rows are distinct
    list objects, so writing one row leaves the others alone. *)
Definition getitem2 {A} (t : list (list A)) (i j : Z) : result A :=
  r ← getitem t i; getitem r j.

Definition setitem2 {A} (t : list (list A)) (i j : Z) (x : A)
  : result (list (list A)) :=
  r ← getitem t i; r' ← setitem r j x; setitem t i r'.

(** [range(n)] *)
Definition range (n : Z) : list Z := seqZ 0 n.

(** [for x in l: s = body(x, s)], stopping at the first exception. *)
Fixpoint for_each {A St} (l : list A) (body : A → St → result St) (s : St)
  : result St :=
  match l with
  | [] => Ok s
  | x :: l' => s' ← body x s; for_each l' body s'
  end.

(** [range(a, b)] *)
Definition range_from (a b : Z) : list Z := seqZ a (b - a).

(** [next(g)] on a generator that yields the elements of [g] in order. *)
Definition next {A} (g : list A) : result A :=
  match g with
  | x :: _ => Ok x
  | [] => Raise StopIteration
  end.

(** [l.index(x)]: the first position of [x], [ValueError] when absent. *)
Fixpoint index `{EqDecision A} (l : list A) (x : A) : result Z :=
  match l with
  | [] => Raise ValueError
  | y :: l' => if decide (y = x) then Ok 0 else i ← index l' x; Ok (i + 1)
  end.

(** [l[a:b]]: bounds are clipped to the list, negative ones count from the
    end. *)
Definition clip {A} (l : list A) (i : Z) : nat :=
  Z.to_nat (if i <? 0 then Z.max (i + len l) 0 else Z.min i (len l)).

Definition slice {A} (l : list A) (a b : Z) : list A :=
  take (clip l b - clip l a)%nat (drop (clip l a) l).

(** A [dict] keeps its keys in insertion order: [d[k] = v] replaces the
    value of a key already there and appends a new key at the end. *)
Definition dict (K V : Type) : Type := list (K * V).

Fixpoint dict_get `{EqDecision K} {V} (d : dict K V) (k : K) : option V :=
  match d with
  | [] => None
  | (k', v) :: d' => if decide (k' = k) then Some v else dict_get d' k
  end.

Fixpoint dict_set `{EqDecision K} {V} (d : dict K V) (k : K) (v : V)
  : dict K V :=
  match d with
  | [] => [(k, v)]
  | (k', v') :: d' =>
      if decide (k' = k) then (k', v) :: d' else (k', v') :: dict_set d' k v
  end.

(** [d[k]] on a plain [dict] *)
Definition dict_getitem `{EqDecision K} {V} (d : dict K V) (k : K)
  : result V :=
  match dict_get d k with
  | Some v => Ok v
  | None => Raise KeyError
  end.

(** [d[k]] on a [defaultdict] whose factory gives [dflt].  (Reading an absent
    key also stores [dflt] under it; the dictionaries of this program are
    local and only read by key afterwards, where an absent key and a key
    holding [dflt] give the same value.) *)
Definition defaultdict_get `{EqDecision K} {V} (dflt : V) (d : dict K V)
    (k : K) : V :=
  default dflt (dict_get d k).

(** [d[k] = f(d[k])] on a [defaultdict], as done by [d[k] += 1]. *)
Definition defaultdict_update `{EqDecision K} {V} (dflt : V) (f : V → V)
    (d : dict K V) (k : K) : dict K V :=
  dict_set d k (f (defaultdict_get dflt d k)).

(** [sorted(l)] for a given [<]: Python's sort is stable, so is this
    insertion sort. *)
Fixpoint insort {A} (lt : A → A → bool) (x : A) (l : list A) : list A :=
  match l with
  | [] => [x]
  | y :: l' => if lt x y then x :: y :: l' else y :: insort lt x l'
  end.

Definition sorted {A} (lt : A → A → bool) (l : list A) : list A :=
  foldl (λ acc x, insort lt x acc) [] l.

(** A [set], as the list of its elements without repetition.  Python leaves
    the order in which a set is listed unspecified; here it is the order of
    first insertion, and no statement below depends on it. *)
Definition set_add `{EqDecision A} (s : list A) (x : A) : list A :=
  if decide (x ∈ s) then s else s ++ [x].

(** A [float] is an IEEE 754 binary64 number: Rocq's primitive floats, with
    the same [+] (round to nearest, ties to even).  Two floats are the same
    when they have the same bits. *)
Definition float : Set := PrimFloat.float.

#[export] Instance float_eq_dec : EqDecision float.
Proof.
  intros x y. destruct (PrimFloat.Leibniz.eqb x y) eqn:Heq.
  - left. by apply FloatAxioms.Leibniz.eqb_spec.
  - right. intros H. apply FloatAxioms.Leibniz.eqb_spec in H. congruence.
Defined.

(** [float(k)] for an [int] [k] below 2^63 in absolute value: what [+] makes
    of an [int] added to a [float]. *)
Definition float_of_int (k : Z) : float :=
  if k <? 0
  then PrimFloat.opp (PrimFloat.of_uint63 (Uint63.of_Z (- k)))
  else PrimFloat.of_uint63 (Uint63.of_Z k).

End Python.

(** ** Question 7: the path of maximum sum through a matrix *)

Module PathFinder.
Import Python.

(** The numbers of [max_path_finder]: an [int], or [float("-inf")]. *)
Inductive num : Type :=
  | NegInf
  | Int (z : Z).

#[export] Instance num_eq_dec : EqDecision num.
Proof. solve_decision. Defined.

(** [a > b] and [a >= b] *)
Definition num_gt (a b : num) : bool :=
  match a, b with
  | Int x, Int y => y <? x
  | Int _, NegInf => true
  | NegInf, _ => false
  end.

Definition num_ge (a b : num) : bool :=
  match a, b with
  | Int x, Int y => y <=? x
  | _, NegInf => true
  | NegInf, Int _ => false
  end.

(** [max(a, b)]: the first argument unless the second is greater. *)
Definition py_max (a b : num) : num := if num_gt b a then b else a.

(** [g + a] for an [int] [g] *)
Definition num_add (g : Z) (a : num) : num :=
  match a with
  | Int z => Int (g + z)
  | NegInf => NegInf
  end.

Definition table := list (list num).
Definition coord := (Z * Z)%type.

(** The branch of [path_finder]'s loop: [True] means move up.  The [and]
    and [or] of the source short-circuit, so the table is read only when
    [row > 0] and [col != 0]. *)
Definition moves_up (dp : table) (row col : Z) : result bool :=
  if 0 <? row then
    if col =? 0 then Ok true
    else
      up ← getitem2 dp (row - 1) col;
      left ← getitem2 dp row (col - 1);
      Ok (num_ge up left)
  else Ok false.

(** One turn of the loop after the append: the next [(row, col)]. *)
Definition path_finder_step (dp : table) (row col : Z) : result coord :=
  up ← moves_up dp row col;
  if up : bool then Ok (row - 1, col) else Ok (row, col - 1).

(** [while row >= 0 and col >= 0: ...]; every turn lowers [row + col] by one,
    so the fuel given by [path_finder] is never used up
    (see [path_finder_loop_terminates]). *)
Fixpoint path_finder_loop (fuel : nat) (dp : table) (row col : Z)
    (path : list coord) : result (list coord) :=
  match fuel with
  | O => Diverge
  | S fuel' =>
      if (0 <=? row) && (0 <=? col) then
        let path := path ++ [(row, col)] in
        '(row', col') ← path_finder_step dp row col;
        path_finder_loop fuel' dp row' col' path
      else Ok path
  end.

Definition path_finder (dp : table) : result (list coord) :=
  let n := len dp in
  dp0 ← getitem dp 0;
  let m := len dp0 in
  let row := n - 1 in
  let col := m - 1 in
  path ← path_finder_loop (length dp + length dp0) dp row col [];
  Ok (reverse path).

(** The body of the two nested [for] loops of [max_path_finder]. *)
Definition fill_cell (grid : list (list Z)) (row col : Z) (dp : table)
  : result table :=
  if row + col =? 0 then Ok dp
  else
    let ans := NegInf in
    ans ← (if 0 <? row
           then up ← getitem2 dp (row - 1) col; Ok (py_max ans up)
           else Ok ans);
    ans ← (if 0 <? col
           then left ← getitem2 dp row (col - 1); Ok (py_max ans left)
           else Ok ans);
    g ← getitem2 grid row col;
    setitem2 dp row col (num_add g ans).

Definition fill_table (grid : list (list Z)) (n m : Z) (dp : table)
  : result table :=
  for_each (range n)
    (λ row dp, for_each (range m) (λ col dp, fill_cell grid row col dp) dp) dp.

Definition max_path_finder (grid : list (list Z))
  : result (num * list coord) :=
  let n := len grid in
  grid0 ← getitem grid 0;
  let m := len grid0 in
  let dp := replicate (length grid) (replicate (length grid0) (Int 0)) in
  g00 ← getitem2 grid 0 0;
  dp ← setitem2 dp 0 0 (Int g00);
  dp ← fill_table grid n m dp;
  path ← path_finder dp;
  best ← getitem2 dp (n - 1) (m - 1);
  Ok (best, path).

End PathFinder.

(** ** Questions 1 to 6: services, legs, ODs and passengers *)

Module Transport.
Import Python.

(** Object identity.  [Station], [Leg], [OD] and [Passenger] define no
    [__eq__], so [==], [in], [list.index], and the hashing of [dict] and [set]
    compare identities.  Every object carries its identity next to its
    fields, so that equality of records is equality of objects. *)
Definition ref := nat.

Record Station : Type := {
  station_id : ref;
  station_name : string
}.

#[export] Instance Station_eq_dec : EqDecision Station.
Proof. solve_decision. Defined.

(** The back-reference [service] of [Leg] and [OD] is not stored: the
    properties that follow it take the service as an argument. *)
Record Leg : Type := {
  leg_id : ref;
  leg_origin : Station;
  leg_destination : Station
}.

#[export] Instance Leg_eq_dec : EqDecision Leg.
Proof. solve_decision. Defined.

Section bookings.

(** Python's numbers ([int] or [float]) as used for prices: the theorems
    hold whatever [+] does, so the type and its operations are
    parameters. *)
Context {number : Type} `{EqDecision number}.

Record Passenger : Type := {
  passenger_id : ref;
  passenger_origin : Station;
  passenger_destination : Station;
  sale_day_x : Z;
  price : number
}.

#[export] Instance Passenger_eq_dec : EqDecision Passenger.
Proof. solve_decision. Defined.

Record OD : Type := {
  od_id : ref;
  od_origin : Station;
  od_destination : Station;
  od_passengers : list Passenger
}.

Record Service : Type := {
  service_name : string;
  departure_date : Z;
  legs : list Leg;
  ods : list OD
}.

Definition set_legs (s : Service) (l : list Leg) : Service :=
  {| service_name := service_name s; departure_date := departure_date s;
     legs := l; ods := ods s |}.

Definition set_ods (s : Service) (l : list OD) : Service :=
  {| service_name := service_name s; departure_date := departure_date s;
     legs := legs s; ods := l |}.

(** [Service(name, departure_date)] *)
Definition new_Service (name : string) (date : Z) : Service :=
  {| service_name := name; departure_date := date; legs := []; ods := [] |}.

(** [Leg(service, origin, destination)] and [OD(service, origin,
    destination)]; [fresh] is the identity of the new object. *)
Definition new_Leg (fresh : ref) (origin destination : Station) : Leg :=
  {| leg_id := fresh; leg_origin := origin; leg_destination := destination |}.

Definition new_OD (fresh : ref) (origin destination : Station) : OD :=
  {| od_id := fresh; od_origin := origin; od_destination := destination;
     od_passengers := [] |}.

(** [Service.day_x], given today's date *)
Definition day_x (today : Z) (s : Service) : Z := today - departure_date s.

(** *** [Service.load_itinerary] *)

(** The methods that create objects thread the next free identity. *)
Definition load_legs (s : Service) (itinerary : list Station) (fresh : ref)
  : Service * ref :=
  foldl (λ '(s, fresh) '(station1, station2),
           let leg := new_Leg fresh station1 station2 in
           (set_legs s (legs s ++ [leg]), S fresh))
        (s, fresh) (zip itinerary (tail itinerary)).

(** [itertools.combinations(l, 2)] *)
Fixpoint combinations2 {A} (l : list A) : list (A * A) :=
  match l with
  | [] => []
  | x :: l' => (pair x <$> l') ++ combinations2 l'
  end.

Definition load_ods (s : Service) (itinerary : list Station) (fresh : ref)
  : Service * ref :=
  let station_combinations := combinations2 itinerary in
  foldl (λ '(s, fresh) '(origin, destination),
           let od := new_OD fresh origin destination in
           (set_ods s (ods s ++ [od]), S fresh))
        (s, fresh) station_combinations.

Definition load_itinerary (s : Service) (itinerary : list Station)
    (fresh : ref) : Service * ref :=
  let '(s, fresh) := load_legs s itinerary fresh in
  load_ods s itinerary fresh.

(** *** [Service.itinerary] *)

Definition _calculate_station_occurrences_and_connections (s : Service)
  : dict Station Z * dict Station Station :=
  foldl (λ '(stations_occurrences, station_connections) leg,
           let stations_occurrences :=
             defaultdict_update 0 (Z.add 1) stations_occurrences
               (leg_origin leg) in
           let stations_occurrences :=
             defaultdict_update 0 (Z.add 1) stations_occurrences
               (leg_destination leg) in
           let station_connections :=
             dict_set station_connections (leg_origin leg)
               (leg_destination leg) in
           (stations_occurrences, station_connections))
        ([], []) (legs s).

Definition _find_departure_and_destination
    (station_occurrences : dict Station Z)
    (station_connections : dict Station Station)
  : result (Station * Station) :=
  departure_station ←
    next (fst <$>
            filter (λ item, defaultdict_get 0 station_occurrences item.1 = 1)
                   station_connections);
  destination_station ←
    next (snd <$>
            filter (λ item, defaultdict_get 0 station_occurrences item.2 = 1)
                   station_connections);
  Ok (departure_station, destination_station).

(** [while True: ...].  A walk that has not reached the final destination
    after as many hops as there are connections, plus one, is in a cycle and
    never ends: the fuel given by [_calculate_itinerary] is used up only
    then (see [itinerary_loop_cycle] and [itinerary_loop_fuel_mono]). *)
Fixpoint itinerary_loop (fuel : nat) (station_connections : dict Station Station)
    (final_destination current_station : Station) (itinerary : list Station)
  : result (list Station) :=
  match fuel with
  | O => Diverge
  | S fuel' =>
      let itinerary := itinerary ++ [current_station] in
      if decide (current_station = final_destination) then Ok itinerary
      else
        current_station ← dict_getitem station_connections current_station;
        itinerary_loop fuel' station_connections final_destination
          current_station itinerary
  end.

Definition _calculate_itinerary (s : Service) : result (list Station) :=
  let '(station_occurrences, station_connections) :=
    _calculate_station_occurrences_and_connections s in
  '(departure, final_destination) ←
    _find_departure_and_destination station_occurrences station_connections;
  itinerary_loop (S (length station_connections)) station_connections
    final_destination departure [].

Definition Service_itinerary (s : Service) : result (list Station) :=
  _calculate_itinerary s.

(** *** [Service.load_passenger_manifest] *)

Definition od_matches (passenger : Passenger) (od : OD) : Prop :=
  od_origin od = passenger_origin passenger ∧
  od_destination od = passenger_destination passenger.

#[export] Instance od_matches_dec passenger od :
  Decision (od_matches passenger od).
Proof. unfold od_matches. apply _. Defined.

(** [od.passengers.append(passenger)] *)
Definition od_append (od : OD) (passenger : Passenger) : OD :=
  {| od_id := od_id od; od_origin := od_origin od;
     od_destination := od_destination od;
     od_passengers := od_passengers od ++ [passenger] |}.

(** The ODs are mutable objects held by the service: appending to the OD
    found by [next] changes that entry of [self.ods].  The service is
    returned together with the outcome, since what was appended before an
    exception stays appended. *)
Fixpoint load_passenger_manifest (s : Service) (passengers : list Passenger)
  : Service * result () :=
  match passengers with
  | [] => (s, Ok ())
  | passenger :: passengers' =>
      match list_find (od_matches passenger) (ods s) with
      | Some (i, od) =>
          let s := set_ods s (<[i := od_append od passenger]> (ods s)) in
          load_passenger_manifest s passengers'
      | None => (s, Raise StopIteration)
      end
  end.

(** *** [OD.legs] *)

Definition OD_legs (s : Service) (od : OD) : result (list Leg) :=
  itinerary ← Service_itinerary s;
  origin_index ← index itinerary (od_origin od);
  destination_index ← index itinerary (od_destination od);
  Ok (slice (legs s) origin_index destination_index).

(** *** [Leg.passengers] *)

Definition Leg_passengers (s : Service) (self : Leg)
  : result (list Passenger) :=
  passengers_set ←
    for_each (ods s)
      (λ od acc,
         od_legs ← OD_legs s od;
         if decide (self ∈ od_legs)
         then Ok (foldl set_add acc (od_passengers od))
         else Ok acc)
      [];
  Ok passengers_set.

(** *** [OD.history] *)

Variable add : number → number → number.   (* [+] *)
Variable zero : number.                     (* [0.0] *)
Variable less : number → number → bool.     (* [<] *)

(** A data point [[day_x, bookings, revenue]]. *)
Definition point : Type := Z * Z * number.

(** [<] on two data points, as Python compares lists: by the first
    element in which they differ. *)
Definition point_lt (a b : point) : bool :=
  let '(day_a, bookings_a, revenue_a) := a in
  let '(day_b, bookings_b, revenue_b) := b in
  if decide (day_a = day_b) then
    if decide (bookings_a = bookings_b) then less revenue_a revenue_b
    else bookings_a <? bookings_b
  else day_a <? day_b.

(** The first loop of [history]: the two [+=] on
    [history_map[passenger.sale_day_x]]. *)
Definition history_add (history_map : dict Z (Z * number))
    (passenger : Passenger) : dict Z (Z * number) :=
  let history_map :=
    defaultdict_update (0, zero) (λ info, (info.1 + 1, info.2))
      history_map (sale_day_x passenger) in
  defaultdict_update (0, zero) (λ info, (info.1, add info.2 (price passenger)))
    history_map (sale_day_x passenger).

(** The body of the second loop: the two [+=] by which row [i] takes over
    the totals of row [i-1]. *)
Definition accumulate (i : Z) (history_list : list point)
  : result (list point) :=
  row ← getitem history_list i;
  previous ← getitem history_list (i - 1);
  history_list ←
    setitem history_list i (row.1.1, row.1.2 + previous.1.2, row.2);
  row ← getitem history_list i;
  previous ← getitem history_list (i - 1);
  setitem history_list i (row.1.1, row.1.2, add row.2 previous.2).

Definition OD_history (od : OD) : result (list point) :=
  let history_map := foldl history_add [] (od_passengers od) in
  let history_list :=
    sorted point_lt
      ((λ '(sale_day_x, info), (sale_day_x, info.1, info.2)) <$> history_map) in
  for_each (range_from 1 (len history_list)) accumulate history_list.

End bookings.

Arguments Passenger : clear implicits.
Arguments OD : clear implicits.
Arguments Service : clear implicits.
Arguments point : clear implicits.

(** A booking whose price is seen through [f]: an [int] price as the
    [float] that [history] adds. *)
Definition convert_price {A B} (f : A → B) (p : Passenger A) : Passenger B :=
  {| passenger_id := passenger_id p;
     passenger_origin := passenger_origin p;
     passenger_destination := passenger_destination p;
     sale_day_x := sale_day_x p;
     price := f (price p) |}.

(** *** The worked example of the source *)

Module Example.

Definition ply : Station := {| station_id := 0%nat; station_name := "ply" |}.
Definition lpd : Station := {| station_id := 1%nat; station_name := "lpd" |}.
Definition msc : Station := {| station_id := 2%nat; station_name := "msc" |}.

Definition itinerary : list Station := [ply; lpd; msc].

Definition manifest : list (Passenger Z) :=
  [ {| passenger_id := 3%nat; passenger_origin := ply; passenger_destination := lpd;
       sale_day_x := -30; price := 20 |};
    {| passenger_id := 4%nat; passenger_origin := ply; passenger_destination := lpd;
       sale_day_x := -25; price := 30 |};
    {| passenger_id := 5%nat; passenger_origin := ply; passenger_destination := lpd;
       sale_day_x := -20; price := 40 |};
    {| passenger_id := 6%nat; passenger_origin := ply; passenger_destination := lpd;
       sale_day_x := -20; price := 40 |};
    {| passenger_id := 7%nat; passenger_origin := ply; passenger_destination := msc;
       sale_day_x := -10; price := 50 |} ].

(** The service after [load_itinerary]; the date is a day number. *)
Definition service0 : Service Z :=
  (load_itinerary (new_Service "7601" 7) itinerary 8%nat).1.

(** The service after [load_passenger_manifest]. *)
Definition service : Service Z := (load_passenger_manifest service0 manifest).1.

(** A booking in the reverse direction, for which the service sells no OD,
    and one more booking from ply to lpd. *)
Definition reversed : Passenger Z :=
  {| passenger_id := 13%nat; passenger_origin := lpd;
     passenger_destination := ply; sale_day_x := -5; price := 10 |}.

Definition late : Passenger Z :=
  {| passenger_id := 14%nat; passenger_origin := ply;
     passenger_destination := lpd; sale_day_x := -1; price := 60 |}.

(** An OD towards a station where the service does not stop. *)
Definition nce : Station := {| station_id := 15%nat; station_name := "nce" |}.
Definition od_ply_nce : OD Z := new_OD 16%nat ply nce.

(** Services whose legs do not form a chain.  In the first, two legs end at
    msc and a third leg stands apart: the walk from ply stops at msc, which
    is not the final destination found (tln) and where no leg starts.  In
    the second, lpd and msc lead to each other next to a leg apart: the walk
    from ply never comes to the final destination found (tln).  The third is
    a round trip. *)
Definition tln : Station := {| station_id := 17%nat; station_name := "tln" |}.

Definition branching : Service Z :=
  set_legs (new_Service "7603" 7)
    [new_Leg 18%nat ply msc; new_Leg 19%nat lpd msc; new_Leg 20%nat nce tln].

Definition looping : Service Z :=
  set_legs (new_Service "7605" 7)
    [new_Leg 21%nat ply lpd; new_Leg 22%nat lpd msc; new_Leg 23%nat msc lpd;
     new_Leg 24%nat nce tln].

Definition circular : Service Z :=
  set_legs (new_Service "7607" 7)
    [new_Leg 25%nat ply lpd; new_Leg 26%nat lpd msc; new_Leg 27%nat msc ply].

(** The same chain of legs, loaded from Lyon onwards first and from Paris
    to Lyon afterwards, so that [legs] holds them in another order than the
    itinerary's; then the ODs and the manifest of the source. *)
Definition out_of_order0 : Service Z :=
  let '(s, fresh) := load_legs (new_Service "7609" 7) [lpd; msc] 33%nat in
  let '(s, fresh) := load_legs s [ply; lpd] fresh in
  (load_ods s itinerary fresh).1.

Definition out_of_order : Service Z :=
  (load_passenger_manifest out_of_order0 manifest).1.

(** The manifest with the prices as [history] adds them. *)
Definition manifest_float : list (Passenger float) :=
  convert_price float_of_int <$> manifest.

End Example.

End Transport.

Module TransportSpec.
Import Python Transport.

Section bookings.
Context {number : Type} `{EqDecision number}.
Abbreviation Passenger := (Passenger number).
Abbreviation OD := (OD number).
Abbreviation Service := (Service number).

Definition leg_ends (leg : Leg) : Station * Station :=
  (leg_origin leg, leg_destination leg).

Definition od_ends (od : OD) : Station * Station :=
  (od_origin od, od_destination od).

(** The position in [ods] of the OD that [load_passenger_manifest] finds
    for a passenger: the first one with the passenger's origin and
    destination. *)
Definition located (l : list OD) (p : Passenger) : option nat :=
  fst <$> list_find (od_matches p) l.

Definition od_extend (od : OD) (ps : list Passenger) : OD :=
  {| od_id := od_id od; od_origin := od_origin od;
     od_destination := od_destination od;
     od_passengers := od_passengers od ++ ps |}.

(** The ODs once every passenger of [ps] has been appended to the OD found
    for it. *)
Definition deliver (l : list OD) (ps : list Passenger) : list OD :=
  imap (λ i od, od_extend od (filter (λ p, located l p = Some i) ps)) l.

(** The consecutive pairs of an itinerary. *)
Definition chain (stations : list Station) : list (Station * Station) :=
  zip stations (tail stations).

(** The station reached from [current] after [k] connections. *)
Fixpoint hop (connections : dict Station Station) (current : Station)
    (k : nat) : option Station :=
  match k with
  | O => Some current
  | S k' => next_station ← dict_get connections current;
            hop connections next_station k'
  end.

(** How often a station is an end of one of the given connections. *)
Definition occurrences (x : Station) (ends : list (Station * Station)) : Z :=
  Z.of_nat (length (filter (λ e, e.1 = x) ends)) +
  Z.of_nat (length (filter (λ e, e.2 = x) ends)).

(** The legs of the service join the stations into one simple chain; the
    order in which [legs] holds them is free. *)
Definition wf_legs (s : Service) (stations : list Station) : Prop :=
  NoDup stations ∧ (2 ≤ length stations)%nat ∧
  leg_ends <$> legs s ≡ₚ chain stations.

(** A well-formed service: a chain of legs, and ODs between stations of
    the chain. *)
Definition wf_service (s : Service) (stations : list Station) : Prop :=
  wf_legs s stations ∧
  ∀ od, od ∈ ods s → od_origin od ∈ stations ∧ od_destination od ∈ stations.

(** The columns of a data point. *)
Definition point_day (row : point number) : Z := row.1.1.
Definition point_bookings (row : point number) : Z := row.1.2.
Definition point_revenue (row : point number) : number := row.2.

(** The passengers who booked on a given day, in the order of the list, the
    number of them, and what they paid: the prices added one after the other,
    starting from [0.0]. *)
Definition booked_on (d : Z) (ps : list Passenger) : list Passenger :=
  filter (λ p, sale_day_x p = d) ps.

Definition bookings_on (d : Z) (ps : list Passenger) : Z :=
  len (booked_on d ps).

Definition revenue_on (add : number → number → number) (zero : number)
    (d : Z) (ps : list Passenger) : number :=
  foldl (λ acc p, add acc (price p)) zero (booked_on d ps).

(** What [history_map] holds for a day. *)
Definition day_totals (add : number → number → number) (zero : number)
    (d : Z) (ps : list Passenger) : option (Z * number) :=
  match booked_on d ps with
  | [] => None
  | _ => Some (bookings_on d ps, revenue_on add zero d ps)
  end.

(** Row [i] after the second loop of [history] has been through it. *)
Definition add_previous (add : number → number → number)
    (previous current : point number) : point number :=
  (point_day current, point_bookings current + point_bookings previous,
   add (point_revenue current) (point_revenue previous)).

(** The number of passengers held by the ODs of a service. *)
Definition total_passengers (s : Service) : nat :=
  sum_list_with (λ od, length (od_passengers od)) (ods s).

(** The trip a passenger bought goes over a leg: in the itinerary the leg
    starts at or after the passenger's origin and before the passenger's
    destination. *)
Definition crosses (stations : list Station) (leg : Leg) (p : Passenger)
  : Prop :=
  ∃ a b k : nat,
    stations !! a = Some (passenger_origin p) ∧
    stations !! b = Some (passenger_destination p) ∧
    stations !! k = Some (leg_origin leg) ∧
    stations !! S k = Some (leg_destination leg) ∧
    (a ≤ k < b)%nat.

End bookings.

(** The sum of [f] over a list. *)
Definition sumZ {A} (f : A → Z) (l : list A) : Z :=
  foldr (λ x acc, f x + acc) 0 l.

End TransportSpec.

Module PathFinderSpec.
Import Python PathFinder.

(** The value of the matrix at a coordinate ([0] outside the matrix). *)
Definition tget {A} (t : list (list A)) (c : coord) : option A :=
  if (0 <=? c.1) && (0 <=? c.2)
  then r ← t !! Z.to_nat c.1; r !! Z.to_nat c.2
  else None.

Definition cell (grid : list (list Z)) (c : coord) : Z :=
  default 0 (tget grid c).

(** The sum of the matrix values along a path. *)
Definition path_sum (grid : list (list Z)) (p : list coord) : Z :=
  foldr (λ c acc, cell grid c + acc) 0 p.

(** [b] is one cell below or one cell to the right of [a]. *)
Definition is_step (a b : coord) : Prop :=
  b = (a.1 + 1, a.2) ∨ b = (a.1, a.2 + 1).

Fixpoint steps (p : list coord) : Prop :=
  match p with
  | a :: q => match q with b :: _ => is_step a b | [] => True end ∧ steps q
  | [] => True
  end.

(** A path from the top left corner to the bottom right corner of an
    [M]x[N] matrix that moves only right or down, one cell per step. *)
Definition monotone_path (M N : nat) (p : list coord) : Prop :=
  head p = Some (0, 0) ∧
  last p = Some (Z.of_nat M - 1, Z.of_nat N - 1) ∧
  steps p.

(** A matrix of [M] rows of [N] columns each. *)
Definition rectangular {A} (t : list (list A)) (M N : nat) : Prop :=
  length t = M ∧ Forall (λ r, length r = N) t.

(** The integer stored in a cell of the table. *)
Definition val (dp : table) (c : coord) : Z :=
  match tget dp c with
  | Some (Int v) => v
  | _ => 0
  end.

(** The recurrence a filled cell obeys. *)
Definition from_before (dp : table) (c : coord) : Z :=
  if c.1 =? 0 then
    if c.2 =? 0 then 0 else val dp (c.1, c.2 - 1)
  else
    if c.2 =? 0 then val dp (c.1 - 1, c.2)
    else Z.max (val dp (c.1 - 1, c.2)) (val dp (c.1, c.2 - 1)).

Definition filled (grid : list (list Z)) (dp : table) (c : coord) : Prop :=
  val dp c = cell grid c + from_before dp c.

(** Row-major order: the cells the loops have been through when they
    reach [(i, j)]. *)
Definition before (i j : Z) (c : coord) : Prop :=
  c.1 < i ∨ (c.1 = i ∧ c.2 < j).

Definition inside (M N : nat) (c : coord) : Prop :=
  0 ≤ c.1 < Z.of_nat M ∧ 0 ≤ c.2 < Z.of_nat N.

Record fill_inv (grid : list (list Z)) (M N : nat) (i j : Z) (dp : table)
  : Prop := {
  fi_shape : rectangular dp M N;
  fi_ints : ∀ c, inside M N c → tget dp c = Some (Int (val dp c));
  fi_start : val dp (0, 0) = cell grid (0, 0);
  fi_filled : ∀ c, inside M N c → before i j c → filled grid dp c
}.

(** The cells the loop of [path_finder] goes through from [start], in the
    order it appends them. *)
Fixpoint walk (dp : table) (start : coord) (w : list coord) : Prop :=
  match w with
  | [] => start.1 < 0 ∨ start.2 < 0
  | a :: w' =>
      a = start ∧ 0 ≤ a.1 ∧ 0 ≤ a.2 ∧
      ∃ b, path_finder_step dp a.1 a.2 = Ok b ∧ walk dp b w'
  end.

(** The matrix cut to the columns [max_path_finder] reads: the first
    [len(grid[0])] entries of each row. *)
Definition trimmed {A} (grid : list (list A)) : list (list A) :=
  match grid with
  | [] => []
  | grid0 :: _ => take (length grid0) <$> grid
  end.

(** An outcome that is a value or the exception [e0]: no other exception,
    and no loop without end. *)
Definition fails_only_with {A} (e0 : exn) (r : result A) : Prop :=
  match r with
  | Ok _ => True
  | Raise e => e = e0
  | Diverge => False
  end.

End PathFinderSpec.

(** Closes a decidable goal on concrete data by evaluating its decision
    procedure. *)
Ltac by_computation := apply (bool_decide_unpack _); vm_compute; exact I.

Module PythonProofs.
Import Python.

Lemma bind_Ok_eq {A B} (m : result A) (f : A → result B) a r :
  m = Ok a → f a = r → m ≫= f = r.
Proof. by intros -> <-. Qed.

Lemma getitem_nonneg {A} (l : list A) (i : Z) :
  0 ≤ i →
  getitem l i = match l !! Z.to_nat i with
                | Some x => Ok x
                | None => Raise IndexError
                end.
Proof.
  intros Hi. unfold getitem, len.
  destruct (Z.ltb_spec i 0) as [|_]; [lia|].
  destruct (Z.leb_spec 0 i) as [_|]; [|lia]. simpl.
  destruct (Z.ltb_spec i (Z.of_nat (length l))) as [Hlt|Hge]; [done|].
  rewrite lookup_ge_None_2; [done|lia].
Qed.

Lemma setitem_nonneg {A} (l : list A) (i : Z) (x : A) :
  0 ≤ i < len l → setitem l i x = Ok (<[Z.to_nat i := x]> l).
Proof.
  intros Hi. unfold setitem, len in *.
  destruct (Z.ltb_spec i 0) as [|_]; [lia|].
  destruct (Z.leb_spec 0 i) as [_|]; [|lia].
  by destruct (Z.ltb_spec i (Z.of_nat (length l))) as [_|]; [|lia].
Qed.

Lemma getitem_not_Diverge {A} (l : list A) i : getitem l i ≠ Diverge.
Proof.
  unfold getitem. destruct (_ && _); [|done]. by destruct (l !! _).
Qed.

Lemma for_each_app {A St} (l1 l2 : list A) (body : A → St → result St) s :
  for_each (l1 ++ l2) body s = for_each l1 body s ≫= for_each l2 body.
Proof.
  revert s. induction l1 as [|x l1 IH]; intros s; [done|]. simpl.
  destruct (body x s) as [s'| |]; simpl; [apply IH|done|done].
Qed.

(** The invariant rule of a [for] loop over consecutive integers. *)
Lemma for_seqZ_inv {St} (P : Z → St → Prop) (a : Z) (n : nat) body (s : St) :
  P a s →
  (∀ k s, a ≤ k < a + Z.of_nat n → P k s →
          ∃ s', body k s = Ok s' ∧ P (k + 1) s') →
  ∃ s', for_each (seqZ a (Z.of_nat n)) body s = Ok s' ∧
        P (a + Z.of_nat n) s'.
Proof.
  intros H0 Hstep. induction n as [|n IH].
  - exists s. by rewrite Z.add_0_r.
  - destruct IH as (s1 & Hs1 & HP1); [intros; apply Hstep; [lia|done]|].
    destruct (Hstep (a + Z.of_nat n) s1) as (s2 & Hs2 & HP2); [lia|done|].
    exists s2. rewrite seqZ_S, for_each_app, Hs1. simpl. rewrite Hs2. simpl.
    split; [done|].
    by replace (a + Z.of_nat (S n)) with (a + Z.of_nat n + 1) by lia.
Qed.

(** The invariant rule of [for k in range(n)]. *)
Lemma for_range_inv {St} (P : Z → St → Prop) (n : nat) body (s : St) :
  P 0 s →
  (∀ k s, 0 ≤ k < Z.of_nat n → P k s →
          ∃ s', body k s = Ok s' ∧ P (k + 1) s') →
  ∃ s', for_each (range (Z.of_nat n)) body s = Ok s' ∧ P (Z.of_nat n) s'.
Proof. intros H0 Hstep. by apply (for_seqZ_inv P 0 n). Qed.

End PythonProofs.

Module PathFinderProofs.
Import Python PythonProofs PathFinder PathFinderSpec.

Lemma getitem2_tget {A} (t : list (list A)) (i j : Z) x :
  tget t (i, j) = Some x → getitem2 t i j = Ok x.
Proof.
  unfold tget, getitem2. simpl.
  destruct (Z.leb_spec 0 i); [|done].
  destruct (Z.leb_spec 0 j); [|done]. simpl.
  intros Hx. rewrite getitem_nonneg by done.
  destruct (t !! Z.to_nat i) as [r|]; [|done]. simpl in *.
  rewrite getitem_nonneg by done. by rewrite Hx.
Qed.

Lemma tget_Some {A} (t : list (list A)) (c : coord) x :
  tget t c = Some x ↔
  0 ≤ c.1 ∧ 0 ≤ c.2 ∧
  ∃ r, t !! Z.to_nat c.1 = Some r ∧ r !! Z.to_nat c.2 = Some x.
Proof.
  unfold tget.
  destruct (Z.leb_spec 0 c.1); [|split; [done|lia]].
  destruct (Z.leb_spec 0 c.2); [|split; [done|lia]]. simpl.
  destruct (t !! Z.to_nat c.1) as [r|]; simpl.
  - split; [eauto|]. by intros (_ & _ & r' & [= <-] & ?).
  - split; [done|]. by intros (_ & _ & r' & ? & _).
Qed.

Lemma tget_inside {A} (t : list (list A)) M N c :
  rectangular t M N → inside M N c → is_Some (tget t c).
Proof.
  intros [Hlen Hrows] [H1 H2].
  destruct (lookup_lt_is_Some_2 t (Z.to_nat c.1)) as [r Hr]; [lia|].
  assert (length r = N) as Hr'.
  { by eapply (proj1 (Forall_lookup _ _) Hrows). }
  destruct (lookup_lt_is_Some_2 r (Z.to_nat c.2)) as [x Hx]; [lia|].
  exists x. apply tget_Some. eauto with lia.
Qed.

Lemma setitem2_inside {A} (t : list (list A)) M N c x :
  rectangular t M N → inside M N c →
  ∃ t', setitem2 t c.1 c.2 x = Ok t' ∧ rectangular t' M N ∧
        ∀ c', tget t' c' = if decide (c' = c) then Some x else tget t c'.
Proof.
  intros [Hlen Hrows] [H1 H2].
  destruct (lookup_lt_is_Some_2 t (Z.to_nat c.1)) as [r Hr]; [lia|].
  assert (length r = N) as Hr'.
  { by eapply (proj1 (Forall_lookup _ _) Hrows). }
  exists (<[Z.to_nat c.1 := <[Z.to_nat c.2 := x]> r]> t).
  split; [|split].
  - unfold setitem2. rewrite getitem_nonneg, Hr by lia. simpl.
    rewrite setitem_nonneg by (unfold len; lia). simpl.
    by rewrite setitem_nonneg by (unfold len; lia).
  - split; [by rewrite length_insert|].
    apply Forall_insert; [done|]. by rewrite length_insert.
  - intros c'. unfold tget. destruct c as [i j], c' as [i' j']. simpl in *.
    destruct (Z.leb_spec 0 i'); [|by rewrite decide_False by (intros [= ]; lia)].
    destruct (Z.leb_spec 0 j'); [|by rewrite decide_False by (intros [= ]; lia)].
    simpl. destruct (decide (i' = i)) as [->|Hi].
    + rewrite list_lookup_insert_eq by lia. simpl.
      destruct (decide (j' = j)) as [->|Hj].
      * rewrite decide_True by done.
        apply list_lookup_insert_eq. lia.
      * rewrite decide_False by congruence.
        rewrite list_lookup_insert_ne by lia. by rewrite Hr.
    + rewrite decide_False by congruence.
      by rewrite list_lookup_insert_ne by lia.
Qed.

Lemma py_max_Int x y : py_max (Int x) (Int y) = Int (Z.max x y).
Proof.
  unfold py_max. simpl. destruct (Z.ltb_spec x y); f_equal; lia.
Qed.

Lemma fill_cell_inv grid M N i j dp :
  rectangular grid M N → inside M N (i, j) →
  fill_inv grid M N i j dp →
  ∃ dp', fill_cell grid i j dp = Ok dp' ∧ fill_inv grid M N i (j + 1) dp'.
Proof.
  intros Hgrid Hin [Hshape Hints Hstart Hfilled].
  pose proof Hin as [Hi Hj]. simpl in Hi, Hj. unfold fill_cell.
  destruct (Z.eqb_spec (i + j) 0) as [H0|H0].
  { assert (i = 0 ∧ j = 0) as [-> ->] by lia.
    exists dp. split; [done|]. split; try done.
    intros [a b] [Ha Hb] [Hlt|[Heq Hlt]]; simpl in *; [lia|].
    assert (a = 0 ∧ b = 0) as [-> ->] by lia.
    unfold filled, from_before. simpl. lia. }
  destruct (tget_inside grid M N (i, j) Hgrid Hin) as [g Hg].
  assert (0 < i → getitem2 dp (i - 1) j = Ok (Int (val dp (i - 1, j))))
    as Hup.
  { intros. apply getitem2_tget, Hints. split; simpl; lia. }
  assert (0 < j → getitem2 dp i (j - 1) = Ok (Int (val dp (i, j - 1))))
    as Hleft.
  { intros. apply getitem2_tget, Hints. split; simpl; lia. }
  set (ans1 := if 0 <? i then Int (val dp (i - 1, j)) else NegInf).
  assert ((if 0 <? i
           then up ← getitem2 dp (i - 1) j; Ok (py_max NegInf up)
           else Ok NegInf) = Ok ans1) as Hans1.
  { unfold ans1. destruct (Z.ltb_spec 0 i); [|done].
    by rewrite Hup. }
  assert (∃ a, (if 0 <? j
                then left ← getitem2 dp i (j - 1); Ok (py_max ans1 left)
                else Ok ans1) = Ok (Int a) ∧ a = from_before dp (i, j))
    as (a & Hans2 & Hfrom).
  { unfold from_before, ans1. simpl.
    destruct (Z.ltb_spec 0 i) as [Hi'|Hi'], (Z.ltb_spec 0 j) as [Hj'|Hj'];
      destruct (Z.eqb_spec i 0), (Z.eqb_spec j 0); try lia.
    - rewrite Hleft by done. simpl. rewrite py_max_Int. eauto.
    - eauto.
    - rewrite Hleft by done. simpl. eauto. }
  destruct (setitem2_inside dp M N (i, j) (Int (g + a)) Hshape Hin)
    as (dp' & Hset & Hshape' & Hget').
  assert (∀ c, c ≠ (i, j) → val dp' c = val dp c) as Hval.
  { intros c Hc. unfold val. by rewrite Hget', decide_False. }
  assert (val dp' (i, j) = g + a) as Hvalij.
  { unfold val. by rewrite Hget', decide_True. }
  exists dp'. split.
  { rewrite Hans1. simpl. rewrite Hans2. simpl.
    rewrite (getitem2_tget grid i j g Hg). simpl. exact Hset. }
  split; [done| | |].
  - intros c Hc. destruct (decide (c = (i, j))) as [->|Hne].
    + by rewrite Hget', decide_True, Hvalij.
    + rewrite Hget', decide_False, Hval by done. by apply Hints.
  - rewrite Hval; [done|]. intros [= <- <-]. lia.
  - intros [r c] Hc Hbefore. unfold filled.
    assert (from_before dp' (r, c) = from_before dp (r, c)) as ->.
    { unfold from_before, before in *. simpl in *.
      rewrite !Hval; [done|intros [= ]; lia..]. }
    destruct (decide ((r, c) = (i, j))) as [[= -> ->]|Hne].
    + rewrite Hvalij, <- Hfrom. unfold cell. by rewrite Hg.
    + rewrite Hval by done. apply Hfilled; [done|].
      unfold before in *. simpl in *.
      destruct (decide (c = j)); [|lia]. destruct (decide (r = i)); [|lia].
      congruence.
Qed.

Lemma fill_inv_weaken grid M N i j i' j' dp :
  (∀ c, inside M N c → before i' j' c → before i j c) →
  fill_inv grid M N i j dp → fill_inv grid M N i' j' dp.
Proof. intros Hsub [? ? ? Hf]. split; auto. Qed.

Lemma fill_table_inv grid M N dp :
  rectangular grid M N →
  fill_inv grid M N 0 0 dp →
  ∃ dp', fill_table grid (Z.of_nat M) (Z.of_nat N) dp = Ok dp' ∧
         fill_inv grid M N (Z.of_nat M) 0 dp'.
Proof.
  intros Hgrid Hinv. unfold fill_table.
  apply (for_range_inv (λ i dp, fill_inv grid M N i 0 dp)); [done|].
  intros i dp1 Hi Hinv1.
  destruct (for_range_inv (λ j dp, fill_inv grid M N i j dp) N
              (λ col dp, fill_cell grid i col dp) dp1) as (dp2 & Hrun & Hinv2);
    [done| |].
  - intros j dp2 Hj Hinv2. by apply fill_cell_inv.
  - exists dp2. split; [done|]. revert Hinv2. apply fill_inv_weaken.
    intros c [_ Hc]. unfold before. lia.
Qed.

Lemma tget_replicate {A} M N (x : A) c :
  inside M N c → tget (replicate M (replicate N x)) c = Some x.
Proof.
  intros [H1 H2]. apply tget_Some. split; [lia|]. split; [lia|].
  exists (replicate N x). split; apply lookup_replicate_2; lia.
Qed.

Lemma rectangular_replicate {A} M N (x : A) :
  rectangular (replicate M (replicate N x)) M N.
Proof.
  split; [apply length_replicate|].
  apply Forall_replicate, length_replicate.
Qed.

Lemma fill_inv_init grid M N dp g :
  inside M N (0, 0) →
  tget grid (0, 0) = Some g →
  setitem2 (replicate M (replicate N (Int 0))) 0 0 (Int g) = Ok dp →
  fill_inv grid M N 0 0 dp.
Proof.
  intros Hin Hg Hset.
  destruct (setitem2_inside (replicate M (replicate N (Int 0))) M N (0, 0)
              (Int g) (rectangular_replicate _ _ _) Hin)
    as (dp' & Hset' & Hshape & Hget).
  simpl in Hset'. rewrite Hset in Hset'. injection Hset' as <-.
  split; [done| | |].
  - intros c Hc. unfold val. rewrite Hget. case_decide; [done|].
    by rewrite tget_replicate.
  - unfold val, cell. by rewrite Hget, decide_True, Hg.
  - intros c [Hc1 Hc2]. unfold before. lia.
Qed.

(** *** Paths *)

Lemma steps_snoc p b :
  steps (p ++ [b]) ↔ steps p ∧ ∀ a, last p = Some a → is_step a b.
Proof.
  induction p as [|a p IH]; simpl.
  - split; [|done]. intros _. split; [done|]. by intros ? [= ].
  - rewrite IH. destruct p as [|a' p]; simpl.
    + split.
      * intros [Hab _]. split; [done|]. by intros ? [= <-].
      * intros [_ Hab]. split; [by apply Hab|]. split; [done|]. by intros ? [= ].
    + tauto.
Qed.

Lemma path_sum_app grid p q :
  path_sum grid (p ++ q) = path_sum grid p + path_sum grid q.
Proof.
  induction p as [|a p IH]; simpl; [done|]. rewrite IH. lia.
Qed.

Lemma path_sum_reverse grid p : path_sum grid (reverse p) = path_sum grid p.
Proof.
  induction p as [|a p IH]; [done|].
  rewrite reverse_cons, path_sum_app, IH. simpl. lia.
Qed.

Lemma steps_lower_bound p a :
  steps p → head p = Some a →
  ∀ b, b ∈ p → a.1 + a.2 ≤ b.1 + b.2.
Proof.
  revert a. induction p as [|a' p IH]; intros a Hsteps [= <-] b Hb.
  apply elem_of_cons in Hb as [->|Hb]; [lia|].
  destruct Hsteps as [Hstep Hsteps]. destruct p as [|a'' p].
  { by apply elem_of_nil in Hb. }
  specialize (IH a'' Hsteps eq_refl b Hb).
  destruct Hstep as [-> | ->]; simpl in *; lia.
Qed.

Lemma steps_NoDup p : steps p → NoDup p.
Proof.
  induction p as [|a p IH]; intros Hsteps; [constructor|].
  destruct Hsteps as [Hstep Hsteps]. constructor; [|by apply IH].
  intros Ha. destruct p as [|a' p]; [by apply elem_of_nil in Ha|].
  pose proof (steps_lower_bound (a' :: p) a' Hsteps eq_refl a Ha).
  destruct Hstep as [-> | ->]; simpl in *; lia.
Qed.

(** *** The loop of [path_finder] *)

Lemma getitem2_not_Diverge {A} (t : list (list A)) i j :
  getitem2 t i j ≠ Diverge.
Proof.
  unfold getitem2. pose proof (getitem_not_Diverge t i).
  destruct (getitem t i); simpl; [apply getitem_not_Diverge|done..].
Qed.

Lemma moves_up_not_Diverge dp row col : moves_up dp row col ≠ Diverge.
Proof.
  unfold moves_up. destruct (0 <? row); [|done]. destruct (col =? 0); [done|].
  pose proof (getitem2_not_Diverge dp (row - 1) col).
  pose proof (getitem2_not_Diverge dp row (col - 1)).
  destruct (getitem2 dp (row - 1) col); simpl; [|done..].
  by destruct (getitem2 dp row (col - 1)).
Qed.

(** The loop always ends: the fuel [path_finder] gives is enough for every
    table, also a jagged one. *)
Lemma path_finder_loop_terminates dp fuel row col path :
  -1 ≤ row → -1 ≤ col → 0 ≤ row + col + 1 →
  row + col + 2 ≤ Z.of_nat fuel →
  path_finder_loop fuel dp row col path ≠ Diverge.
Proof.
  revert row col path.
  induction fuel as [|fuel IH]; intros row col path Hr Hc Hrc Hfuel; [lia|].
  simpl. destruct (Z.leb_spec 0 row); [|done].
  destruct (Z.leb_spec 0 col); [|done]. simpl.
  unfold path_finder_step.
  pose proof (moves_up_not_Diverge dp row col).
  destruct (moves_up dp row col) as [[]| |]; simpl; try done.
  - apply IH; lia.
  - apply IH; lia.
Qed.

Lemma path_finder_terminates dp : path_finder dp ≠ Diverge.
Proof.
  unfold path_finder. pose proof (getitem_not_Diverge dp 0) as Hg.
  destruct (getitem dp 0) as [dp0| |] eqn:Hdp0; simpl; [|done..].
  assert (0 < len dp).
  { unfold getitem in Hdp0. simpl in Hdp0.
    by destruct (Z.ltb_spec 0 (len dp)). }
  pose proof (path_finder_loop_terminates dp (length dp + length dp0)
                (len dp - 1) (len dp0 - 1) []) as Hloop.
  destruct (path_finder_loop _ _ _ _ _); simpl; try done.
  apply Hloop; unfold len in *; lia.
Qed.

Section filled_table.
Context (grid : list (list Z)) (M N : nat) (dp : table).
Hypothesis Hdp : fill_inv grid M N (Z.of_nat M) 0 dp.

Lemma filled_inside c : inside M N c → filled grid dp c.
Proof.
  intros Hc. apply (fi_filled _ _ _ _ _ _ Hdp); [done|].
  destruct Hc as [? _]. unfold before. lia.
Qed.

Lemma getitem2_filled r c :
  inside M N (r, c) → getitem2 dp r c = Ok (Int (val dp (r, c))).
Proof. intros Hc. by apply getitem2_tget, (fi_ints _ _ _ _ _ _ Hdp). Qed.

(** What the loop decides on a filled table, and why the value is kept. *)
Lemma path_finder_step_filled r c :
  inside M N (r, c) →
  ∃ r' c', path_finder_step dp r c = Ok (r', c') ∧
    is_step (r', c') (r, c) ∧
    val dp (r, c) = cell grid (r, c) +
                    (if (r =? 0) && (c =? 0) then 0 else val dp (r', c')) ∧
    ((r, c) ≠ (0, 0) → inside M N (r', c')) ∧
    ((r, c) = (0, 0) → c' = -1).
Proof.
  intros Hin. pose proof (filled_inside _ Hin) as Hf.
  destruct Hin as [Hr Hc]. simpl in Hr, Hc.
  unfold filled, from_before in Hf. simpl in Hf.
  unfold path_finder_step, moves_up, is_step, inside. simpl.
  destruct (Z.ltb_spec 0 r) as [Hr0|Hr0].
  - destruct (Z.eqb_spec r 0) as [|_]; [lia|]. simpl.
    destruct (Z.eqb_spec c 0) as [->|Hc0].
    + exists (r - 1), 0. simpl. repeat split; try lia; try done.
      * left. f_equal. lia.
      * intros [= ]. lia.
    + rewrite !getitem2_filled by (split; simpl; lia). simpl.
      destruct (Z.leb_spec (val dp (r, c - 1)) (val dp (r - 1, c))).
      * exists (r - 1), c. repeat split; try lia.
        -- left. f_equal. lia.
        -- intros [= ]. lia.
      * exists r, (c - 1). repeat split; try lia.
        -- right. f_equal. lia.
        -- intros [= ]. lia.
  - assert (r = 0) as -> by lia. simpl in *. exists 0, (c - 1).
    destruct (Z.eqb_spec c 0) as [->|Hc0]; simpl.
    + repeat split; try lia; try done. right. done.
    + repeat split; try lia.
      * right. f_equal. lia.
      * intros [= ]. lia.
Qed.

Lemma path_finder_loop_filled fuel r c acc :
  inside M N (r, c) → r + c + 2 ≤ Z.of_nat fuel →
  ∃ w, path_finder_loop fuel dp r c acc = Ok (acc ++ w) ∧
       head w = Some (r, c) ∧ last w = Some (0, 0) ∧
       steps (reverse w) ∧
       path_sum grid w = val dp (r, c) ∧
       Z.of_nat (length w) = r + c + 1.
Proof.
  revert r c acc.
  induction fuel as [|fuel IH]; intros r c acc Hin Hfuel.
  { destruct Hin; simpl in *; lia. }
  destruct (path_finder_step_filled r c Hin)
    as (r' & c' & Hstep & His & Hval & Hnext & Hstop).
  pose proof Hin as [Hr Hc]. simpl in Hr, Hc. simpl.
  destruct (Z.leb_spec 0 r); [|lia]. destruct (Z.leb_spec 0 c); [|lia].
  simpl. rewrite Hstep. simpl.
  destruct (decide ((r, c) = (0, 0))) as [[= -> ->]|Hne].
  - rewrite (Hstop eq_refl). exists [(0, 0)].
    destruct fuel as [|fuel]; [lia|]. simpl.
    destruct (Z.leb_spec 0 r'); simpl; repeat split; try done;
      simpl in Hval; lia.
  - destruct (IH r' c' (acc ++ [(r, c)]) (Hnext Hne)) as
      (w & Hrun & Hhead & Hlast & Hsteps & Hsum & Hlen).
    { destruct His as [[= -> ->]|[= -> ->]]; simpl in *; lia. }
    exists ((r, c) :: w). rewrite Hrun, <- app_assoc. simpl.
    split; [done|]. split; [done|]. split; [|split; [|split]].
    + destruct w; [done|]. by rewrite last_cons_cons.
    + rewrite reverse_cons. apply steps_snoc. split; [done|].
      intros a. rewrite last_reverse, Hhead. by intros [= <-].
    + rewrite Hsum, Hval.
      destruct (Z.eqb_spec r 0), (Z.eqb_spec c 0); simpl; try done.
      congruence.
    + destruct His as [[= -> ->]|[= -> ->]]; simpl in *; lia.
Qed.

(** No monotone path to a cell collects more than the table holds there. *)
Lemma path_sum_upper_bound p c :
  steps p → head p = Some (0, 0) → last p = Some c →
  0 ≤ c.1 ∧ 0 ≤ c.2 ∧ (inside M N c → path_sum grid p ≤ val dp c).
Proof.
  revert c. induction p as [|b p IH] using rev_ind; intros c Hsteps Hhead Hlast.
  { done. }
  rewrite last_snoc in Hlast. injection Hlast as ->.
  apply steps_snoc in Hsteps as [Hsteps Hstep].
  destruct p as [|a0 p].
  { simpl in Hhead. injection Hhead as ->. simpl.
    split; [done|]. split; [done|]. intros _.
    rewrite (fi_start _ _ _ _ _ _ Hdp). lia. }
  destruct (last (a0 :: p)) as [a|] eqn:Hlasta.
  2:{ by rewrite last_cons in Hlasta; destruct (last p). }
  specialize (IH a Hsteps Hhead eq_refl) as (Ha1 & Ha2 & IH).
  specialize (Hstep a eq_refl).
  assert (0 ≤ c.1 ∧ 0 ≤ c.2) as [Hc1 Hc2].
  { destruct Hstep as [-> | ->]; simpl; lia. }
  split; [done|]. split; [done|]. intros Hin.
  rewrite path_sum_app. simpl.
  pose proof (filled_inside c Hin) as Hf.
  unfold filled, from_before in Hf.
  assert (inside M N a) as Hina.
  { destruct Hin as [? ?]. split; destruct Hstep as [-> | ->]; simpl in *; lia. }
  specialize (IH Hina). destruct a as [a1 a2].
  destruct Hstep as [-> | ->]; simpl in *.
  - destruct (Z.eqb_spec (a1 + 1) 0); [lia|].
    replace (a1 + 1 - 1) with a1 in Hf by lia.
    destruct (Z.eqb_spec a2 0); lia.
  - destruct (Z.eqb_spec (a2 + 1) 0); [lia|].
    replace (a2 + 1 - 1) with a2 in Hf by lia.
    destruct (Z.eqb_spec a1 0); lia.
Qed.

End filled_table.

(** C1. On a non-empty rectangular matrix of non-negative integers with [M]
    rows and [N] columns, [max_path_finder] returns a pair [(v, path)]:
    [path] goes from [(0,0)] to [(M-1,N-1)] by steps to the right or down,
    visits no cell twice, has [M+N-1] coordinates, the matrix values along
    it sum to [v], and no path of that kind has a larger sum. *)
Theorem max_path_finder_correct (grid : list (list Z)) (M N : nat) :
  (0 < M)%nat → (0 < N)%nat →
  rectangular grid M N →
  Forall (Forall (λ x, 0 ≤ x)) grid →
  ∃ v path,
    max_path_finder grid = Ok (Int v, path) ∧
    monotone_path M N path ∧
    NoDup path ∧
    length path = (M + N - 1)%nat ∧
    path_sum grid path = v ∧
    ∀ p, monotone_path M N p → path_sum grid p ≤ v.
Proof.
  intros HM HN Hgrid _.
  assert (inside M N (0, 0)) as Hin0 by (split; simpl; lia).
  assert (inside M N (Z.of_nat M - 1, Z.of_nat N - 1)) as Hinlast
    by (split; simpl; lia).
  destruct (tget_inside grid M N (0, 0) Hgrid Hin0) as [g00 Hg00].
  pose proof Hg00 as (_ & _ & grid0 & Hgrid0 & _)%tget_Some. simpl in Hgrid0.
  pose proof Hgrid as [HlenM Hrows].
  assert (length grid0 = N) as HlenN.
  { by eapply (proj1 (Forall_lookup _ _) Hrows). }
  destruct (setitem2_inside (replicate M (replicate N (Int 0))) M N (0, 0)
              (Int g00) (rectangular_replicate _ _ _) Hin0)
    as (dp0 & Hset & _ & _). simpl in Hset.
  pose proof (fill_inv_init grid M N dp0 g00 Hin0 Hg00 Hset) as Hinv0.
  destruct (fill_table_inv grid M N dp0 Hgrid Hinv0) as (dp & Hfill & Hinv).
  pose proof (fi_shape _ _ _ _ _ _ Hinv) as [HdpM Hdprows].
  destruct (lookup_lt_is_Some_2 dp 0%nat) as [dprow0 Hdprow0]; [lia|].
  assert (length dprow0 = N) as HdpN.
  { by eapply (proj1 (Forall_lookup _ _) Hdprows). }
  destruct (path_finder_loop_filled grid M N dp Hinv (M + N)
              (Z.of_nat M - 1) (Z.of_nat N - 1) [] Hinlast)
    as (w & Hloop & Hhead & Hlast & Hsteps & Hsum & Hlen); [lia|].
  exists (val dp (Z.of_nat M - 1, Z.of_nat N - 1)), (reverse w).
  split; [|split; [|split; [|split; [|split]]]].
  - unfold max_path_finder. rewrite getitem_nonneg, Hgrid0 by done. simpl.
    rewrite (getitem2_tget grid 0 0 g00 Hg00). simpl.
    rewrite HlenM, HlenN, Hset. simpl.
    unfold len. rewrite HlenM, HlenN, Hfill. simpl.
    unfold path_finder. rewrite getitem_nonneg by done.
    change (Z.to_nat 0) with 0%nat. rewrite Hdprow0. simpl.
    unfold len. rewrite HdpM, HdpN, Hloop. simpl.
    by rewrite (getitem2_filled grid M N dp Hinv _ _ Hinlast).
  - split; [by rewrite head_reverse|]. split; [by rewrite last_reverse|done].
  - by apply steps_NoDup.
  - rewrite length_reverse. lia.
  - by rewrite path_sum_reverse.
  - intros p (Hp1 & Hp2 & Hp3).
    by apply (path_sum_upper_bound grid M N dp Hinv p _ Hp3 Hp1 Hp2).
Qed.

(** *** The tie-break *)

Lemma num_ge_refl x : num_ge x x = true.
Proof. destruct x; simpl; [done|]. by apply Z.leb_le. Qed.

Lemma path_finder_step_tie dp row col x :
  0 < row → 0 < col →
  getitem2 dp (row - 1) col = Ok x →
  getitem2 dp row (col - 1) = Ok x →
  path_finder_step dp row col = Ok (row - 1, col).
Proof.
  intros Hrow Hcol Hup Hleft. unfold path_finder_step, moves_up.
  destruct (Z.ltb_spec 0 row); [|lia]. destruct (Z.eqb_spec col 0); [lia|].
  rewrite Hup, Hleft. simpl. by rewrite num_ge_refl.
Qed.

Lemma path_finder_loop_walk dp fuel row col acc p :
  path_finder_loop fuel dp row col acc = Ok p →
  ∃ w, p = acc ++ w ∧ walk dp (row, col) w.
Proof.
  revert row col acc. induction fuel as [|fuel IH]; intros row col acc; [done|].
  simpl. destruct (Z.leb_spec 0 row) as [Hr|Hr]; simpl.
  - destruct (Z.leb_spec 0 col) as [Hc|Hc]; simpl.
    + destruct (path_finder_step dp row col) as [[row' col']| |] eqn:Hstep;
        simpl; [|done..].
      intros (w & -> & Hw)%IH. exists ((row, col) :: w).
      rewrite <- app_assoc. split; [done|]. simpl. eauto 10.
    + intros [= <-]. exists []. rewrite app_nil_r. split; [done|]. by right.
  - intros [= <-]. exists []. rewrite app_nil_r. split; [done|]. by left.
Qed.

Lemma walk_middle dp start w1 a w2 :
  walk dp start (w1 ++ a :: w2) → walk dp a (a :: w2).
Proof.
  revert start. induction w1 as [|a' w1 IH]; intros start; simpl.
  - intros (-> & ? & ? & b & ? & ?). eauto 10.
  - intros (_ & _ & _ & b & _ & Hw). by apply (IH b).
Qed.

Lemma path_finder_step_sum dp row col b :
  path_finder_step dp row col = Ok b → b.1 + b.2 = row + col - 1.
Proof.
  unfold path_finder_step.
  destruct (moves_up dp row col) as [[]| |]; simpl; intros [= <-]; simpl; lia.
Qed.

Lemma walk_below dp start w b :
  walk dp start w → b ∈ w → b.1 + b.2 ≤ start.1 + start.2.
Proof.
  revert start. induction w as [|a w IH]; intros start; simpl.
  - by intros _ ?%elem_of_nil.
  - intros (-> & _ & _ & b' & Hstep & Hw) [->|Hb]%elem_of_cons; [lia|].
    apply path_finder_step_sum in Hstep. specialize (IH b' Hw Hb). lia.
Qed.

(** Along the walk [row + col] goes down. *)
Lemma walk_decreasing dp start w1 a w2 b :
  walk dp start (w1 ++ a :: w2) → b ∈ w2 → b.1 + b.2 < a.1 + a.2.
Proof.
  intros (_ & _ & _ & b' & Hstep & Hw)%walk_middle Hb.
  apply path_finder_step_sum in Hstep.
  pose proof (walk_below dp b' w2 b Hw Hb). lia.
Qed.

(** C3. In the backward walk of [path_finder], when the cell above and the
    cell to the left both exist and hold equal values the step goes up: the
    next [(row, col)] is [(row - 1, col)], in the returned path the cell
    above comes right before the cell, and the cell to the left is not on
    the path.  The two matrices of the specification give the values and
    paths listed there. *)
Theorem tie_break_prefers_up :
  (∀ dp row col x,
     0 < row → 0 < col →
     getitem2 dp (row - 1) col = Ok x →
     getitem2 dp row (col - 1) = Ok x →
     path_finder_step dp row col = Ok (row - 1, col)) ∧
  (∀ dp path row col x,
     path_finder dp = Ok path →
     (row, col) ∈ path →
     0 < row → 0 < col →
     getitem2 dp (row - 1) col = Ok x →
     getitem2 dp row (col - 1) = Ok x →
     (∃ p1 p2, path = p1 ++ (row - 1, col) :: (row, col) :: p2) ∧
     (row, col - 1) ∉ path) ∧
  max_path_finder [[1; 1; 8]; [3; 2; 1]]
    = Ok (Int 11, [(0, 0); (0, 1); (0, 2); (1, 2)]) ∧
  max_path_finder [[1; 2; 3]; [3; 4; 5]]
    = Ok (Int 13, [(0, 0); (1, 0); (1, 1); (1, 2)]).
Proof.
  split; [exact path_finder_step_tie|]. split; [|by split].
  intros dp path row col x Hrun Hin Hrow Hcol Hup Hleft.
  unfold path_finder in Hrun.
  destruct (getitem dp 0) as [dp0| |]; simpl in Hrun; [|done..].
  destruct (path_finder_loop _ _ _ _ _) as [p| |] eqn:Hloop;
    simpl in Hrun; [|done..].
  injection Hrun as <-.
  apply path_finder_loop_walk in Hloop as (w & -> & Hw). simpl in *.
  apply elem_of_reverse, list_elem_of_split in Hin as (w1 & w2 & ->).
  pose proof (walk_middle _ _ _ _ _ Hw) as (_ & _ & _ & b & Hstep & Hw2).
  simpl in Hstep.
  rewrite (path_finder_step_tie dp row col x) in Hstep by done.
  injection Hstep as <-. destruct w2 as [|b w2].
  { simpl in Hw2. lia. }
  destruct Hw2 as (-> & _). split.
  - exists (reverse w2), (reverse w1).
    rewrite reverse_app, !reverse_cons, <- !app_assoc. done.
  - rewrite elem_of_reverse.
    intros [Hleft1|[[= ]|[[= ]|Hleft2]%elem_of_cons]%elem_of_cons]%elem_of_app;
      try lia.
    + apply list_elem_of_split in Hleft1 as (u1 & u2 & ->).
      rewrite <- app_assoc in Hw. simpl in Hw.
      pose proof (walk_decreasing _ _ _ _ _ (row, col) Hw) as Hlt.
      simpl in Hlt. assert (row + col < row + (col - 1)); [|lia].
      apply Hlt. apply elem_of_app. right. by left.
    + replace (w1 ++ (row, col) :: (row - 1, col) :: w2)
        with ((w1 ++ [(row, col)]) ++ (row - 1, col) :: w2) in Hw
        by (by rewrite <- app_assoc).
      pose proof (walk_decreasing _ _ _ _ _ (row, col - 1) Hw Hleft2) as Hlt.
      simpl in Hlt. lia.
Qed.

Lemma max_path_finder_correct_witness :
  ∃ v path,
    max_path_finder [[1; 1; 8]; [3; 2; 1]] = Ok (Int v, path) ∧
    monotone_path 2 3 path ∧
    NoDup path ∧
    length path = 4%nat ∧
    path_sum [[1; 1; 8]; [3; 2; 1]] path = v ∧
    ∀ p, monotone_path 2 3 p → path_sum [[1; 1; 8]; [3; 2; 1]] p ≤ v.
Proof.
  apply (max_path_finder_correct [[1; 1; 8]; [3; 2; 1]] 2 3).
  - lia.
  - lia.
  - split; [reflexivity|]. repeat constructor.
  - repeat constructor; lia.
Defined.

Lemma tie_break_prefers_up_witness :
  path_finder_step [[Int 1; Int 2]; [Int 2; Int 3]] 1 1 = Ok (0, 1) ∧
  (∃ p1 p2, [(0, 0); (0, 1); (1, 1)] = p1 ++ (1 - 1, 1) :: (1, 1) :: p2) ∧
  (1, 1 - 1) ∉ [(0, 0); (0, 1); (1, 1)].
Proof.
  split.
  - apply (proj1 tie_break_prefers_up [[Int 1; Int 2]; [Int 2; Int 3]] 1 1
             (Int 2)); [lia|lia|reflexivity|reflexivity].
  - apply (proj1 (proj2 tie_break_prefers_up)
             [[Int 1; Int 2]; [Int 2; Int 3]] [(0, 0); (0, 1); (1, 1)] 1 1
             (Int 2)); [reflexivity| |lia|lia|reflexivity|reflexivity].
    by_computation.
Defined.

End PathFinderProofs.

Module TransportProofs.
Import Python PythonProofs Transport TransportSpec.

Section manifest.
Context {number : Type} `{EqDecision number}.
Abbreviation Passenger := (Passenger number).
Abbreviation OD := (OD number).
Abbreviation Service := (Service number).
Implicit Types (s : Service) (od : OD) (p q : Passenger) (l : list OD)
  (ps : list Passenger).

Lemma od_matches_append p od q : od_matches p (od_append od q) ↔ od_matches p od.
Proof. done. Qed.

Lemma located_Some l p i :
  located l p = Some i ↔
  ∃ od, l !! i = Some od ∧ od_matches p od ∧
        ∀ j od', l !! j = Some od' → (j < i)%nat → ¬ od_matches p od'.
Proof.
  unfold located. split.
  - destruct (list_find _ l) as [[i' od]|] eqn:Hfind; [|done].
    intros [= ->]. apply list_find_Some in Hfind. eauto.
  - intros (od & Hod).
    by rewrite (proj2 (list_find_Some (od_matches p) l i od) Hod).
Qed.

Lemma located_insert l i od q p :
  l !! i = Some od →
  located (<[i := od_append od q]> l) p = located l p.
Proof.
  intros Hi. destruct (located l p) as [j|] eqn:Hj.
  - apply located_Some in Hj as (odj & Hodj & Hm & Hfirst).
    apply located_Some. destruct (decide (i = j)) as [->|Hne].
    + exists (od_append od q). split; [|split].
      * apply list_lookup_insert_eq. by eapply lookup_lt_Some.
      * by simplify_eq.
      * intros j' od' Hj' Hlt. rewrite list_lookup_insert_ne in Hj' by lia.
        by eapply Hfirst.
    + exists odj. split; [by rewrite list_lookup_insert_ne|]. split; [done|].
      intros j' od' Hj' Hlt. destruct (decide (i = j')) as [->|Hne'].
      * rewrite list_lookup_insert_eq in Hj' by (by eapply lookup_lt_Some).
        injection Hj' as <-. rewrite od_matches_append. by eapply Hfirst.
      * rewrite list_lookup_insert_ne in Hj' by done. by eapply Hfirst.
  - unfold located in *. destruct (list_find _ l) eqn:Hfind; [done|].
    destruct (list_find _ (<[_ := _]> l)) as [[j odj]|] eqn:Hfind'; [|done].
    exfalso. apply list_find_Some in Hfind' as (Hodj & Hm & _).
    apply (proj1 (list_find_None _ _)) in Hfind.
    destruct (decide (i = j)) as [->|Hne].
    + rewrite list_lookup_insert_eq in Hodj by (by eapply lookup_lt_Some).
      injection Hodj as <-. rewrite od_matches_append in Hm.
      eapply (proj1 (Forall_lookup _ _) Hfind); eauto.
    + rewrite list_lookup_insert_ne in Hodj by done.
      eapply (proj1 (Forall_lookup _ _) Hfind); eauto.
Qed.

Lemma deliver_nil l : deliver l [] = l.
Proof.
  apply list_eq. intros i. unfold deliver. rewrite list_lookup_imap.
  destruct (l !! i) as [[????]|]; [|done]. simpl. unfold od_extend. simpl.
  by rewrite filter_nil, app_nil_r.
Qed.

Lemma deliver_cons l i od p ps :
  list_find (od_matches p) l = Some (i, od) →
  deliver (<[i := od_append od p]> l) ps = deliver l (p :: ps).
Proof.
  intros Hfind. assert (located l p = Some i) as Hloc.
  { unfold located. by rewrite Hfind. }
  apply list_find_Some in Hfind as (Hi & _).
  apply list_eq. intros j. unfold deliver. rewrite !list_lookup_imap.
  assert (∀ k, filter (λ q, located (<[i := od_append od p]> l) q = Some k) ps
               = filter (λ q, located l q = Some k) ps) as Hfilter.
  { intros k. apply list_filter_iff. intros q. by rewrite located_insert. }
  rewrite Hfilter. destruct (decide (i = j)) as [<-|Hne].
  - rewrite list_lookup_insert_eq by (by eapply lookup_lt_Some).
    rewrite Hi. simpl. rewrite filter_cons_True by done.
    unfold od_extend. simpl. by rewrite <- app_assoc.
  - rewrite list_lookup_insert_ne by done.
    rewrite filter_cons_False; [done|]. rewrite Hloc. congruence.
Qed.

(** Loading a manifest in which every passenger has an OD. *)
Lemma load_passenger_manifest_ok s ps :
  (∀ p, p ∈ ps → is_Some (located (ods s) p)) →
  load_passenger_manifest s ps = (set_ods s (deliver (ods s) ps), Ok ()).
Proof.
  revert s. induction ps as [|p ps IH]; intros s Hall; simpl.
  - rewrite deliver_nil. by destruct s.
  - destruct (Hall p) as [i Hi]; [by left|]. unfold located in Hi.
    destruct (list_find _ (ods s)) as [[i' od]|] eqn:Hfind; [|done].
    rewrite IH.
    + simpl. by rewrite (deliver_cons _ _ _ _ _ Hfind).
    + intros q Hq. simpl. apply list_find_Some in Hfind as (Hi' & _).
      rewrite located_insert by done. apply Hall. by right.
Qed.

(** Loading stops at the first passenger without an OD. *)
Lemma load_passenger_manifest_stops s pre p rest :
  (∀ q, q ∈ pre → is_Some (located (ods s) q)) →
  located (ods s) p = None →
  load_passenger_manifest s (pre ++ p :: rest)
  = (set_ods s (deliver (ods s) pre), Raise StopIteration).
Proof.
  revert s. induction pre as [|q pre IH]; intros s Hall Hp; simpl.
  - unfold located in Hp. destruct (list_find _ (ods s)); [done|].
    rewrite deliver_nil. by destruct s.
  - destruct (Hall q) as [i Hi]; [by left|]. unfold located in Hi.
    destruct (list_find _ (ods s)) as [[i' od]|] eqn:Hfind; [|done].
    pose proof Hfind as (Hi' & _)%list_find_Some.
    rewrite IH.
    + simpl. by rewrite (deliver_cons _ _ _ _ _ Hfind).
    + intros q' Hq'. simpl. rewrite located_insert by done.
      apply Hall. by right.
    + simpl. by rewrite located_insert.
Qed.

Lemma located_is_Some l p :
  is_Some (located l p) ↔ ∃ od, od ∈ l ∧ od_matches p od.
Proof.
  split.
  - intros [i (od & Hod & Hm & _)%located_Some].
    exists od. split; [|done]. by eapply list_elem_of_lookup_2.
  - intros (od & Hod & Hm). unfold located.
    destruct (list_find_elem_of (od_matches p) l od Hod Hm) as [[i od'] ->].
    by eexists.
Qed.

Lemma located_None l p :
  located l p = None ↔ ∀ od, od ∈ l → ¬ od_matches p od.
Proof.
  rewrite eq_None_not_Some, located_is_Some. split.
  - intros Hno od Hod Hm. apply Hno. eauto.
  - intros Hno (od & Hod & Hm). by eapply Hno.
Qed.

Lemma deliver_lookup l ps i od :
  l !! i = Some od →
  deliver l ps !! i
  = Some (od_extend od (filter (λ p, located l p = Some i) ps)).
Proof. intros Hi. unfold deliver. by rewrite list_lookup_imap, Hi. Qed.

Lemma located_unique l i od p :
  l !! i = Some od →
  (∀ j od2, l !! j = Some od2 → od_ends od2 = od_ends od → j = i) →
  located l p = Some i ↔ od_matches p od.
Proof.
  intros Hi Huniq. split.
  - intros (od' & Hod' & Hm & _)%located_Some. by simplify_eq.
  - intros Hm. destruct (proj2 (located_is_Some l p)) as [j Hj].
    { exists od. split; [|done]. by eapply list_elem_of_lookup_2. }
    pose proof Hj as (odj & Hodj & Hmj & _)%located_Some.
    rewrite Hj. f_equal. apply (Huniq j odj Hodj).
    destruct Hm as [Hm1 Hm2], Hmj as [Hmj1 Hmj2]. unfold od_ends. congruence.
Qed.

(** C8. When every passenger of the manifest has an OD with its origin and
    destination, [load_passenger_manifest] returns normally; each passenger
    went to the OD found for it, which has the passenger's origin and
    destination, and every OD holds what it held before followed by its
    passengers of the manifest in manifest order.  For an OD that is the only
    one with its origin and destination these are exactly the passengers of
    the manifest with that origin and destination. *)
Theorem load_passenger_manifest_allocates s ps :
  (∀ p, p ∈ ps → ∃ od, od ∈ ods s ∧ od_matches p od) →
  ∃ s',
    load_passenger_manifest s ps = (s', Ok ()) ∧
    legs s' = legs s ∧
    length (ods s') = length (ods s) ∧
    (∀ p, p ∈ ps →
       ∃ i od, located (ods s) p = Some i ∧ ods s !! i = Some od ∧
               od_matches p od) ∧
    ∀ i od, ods s !! i = Some od →
      ∃ od', ods s' !! i = Some od' ∧
        od_id od' = od_id od ∧ od_ends od' = od_ends od ∧
        od_passengers od'
        = od_passengers od ++ filter (λ p, located (ods s) p = Some i) ps ∧
        ((∀ j od2, ods s !! j = Some od2 → od_ends od2 = od_ends od → j = i) →
         od_passengers od'
         = od_passengers od ++ filter (λ p, od_matches p od) ps).
Proof.
  intros Hall. exists (set_ods s (deliver (ods s) ps)).
  split; [|split; [|split; [|split]]].
  - apply load_passenger_manifest_ok. intros p Hp.
    by apply located_is_Some, Hall.
  - done.
  - simpl. unfold deliver. by rewrite length_imap.
  - intros p Hp. destruct (proj2 (located_is_Some (ods s) p) (Hall p Hp))
      as [i Hi].
    pose proof Hi as (od & Hod & Hm & _)%located_Some. eauto.
  - intros i od Hi. eexists. split; [by apply deliver_lookup|].
    simpl. repeat split; try done.
    intros Huniq. f_equal. apply list_filter_iff. intros p.
    by apply located_unique.
Qed.

(** C5, as the code has it.  When some passenger of the manifest has no OD
    with its origin and destination, [load_passenger_manifest] raises
    [StopIteration], which is not a [LookupError], at the first such
    passenger: the service is left as loading the passengers before that one
    leaves it, and nothing of the rest of the manifest is appended. *)
Theorem load_passenger_manifest_unmatched s ps :
  (∃ p, p ∈ ps ∧ ∀ od, od ∈ ods s → ¬ od_matches p od) →
  is_LookupError StopIteration = false ∧
  ∃ s' pre p rest,
    ps = pre ++ p :: rest ∧
    (∀ q, q ∈ pre → ∃ od, od ∈ ods s ∧ od_matches q od) ∧
    (∀ od, od ∈ ods s → ¬ od_matches p od) ∧
    load_passenger_manifest s ps = (s', Raise StopIteration) ∧
    load_passenger_manifest s pre = (s', Ok ()).
Proof.
  intros (p0 & Hp0 & Hno). split; [done|].
  assert (∃ pre p rest, ps = pre ++ p :: rest ∧
            (∀ q, q ∈ pre → is_Some (located (ods s) q)) ∧
            located (ods s) p = None) as (pre & p & rest & -> & Hpre & Hp).
  { clear -Hp0 Hno. apply located_None in Hno.
    induction ps as [|q ps IH]; [by apply elem_of_nil in Hp0|].
    destruct (located (ods s) q) as [i|] eqn:Hq.
    - apply elem_of_cons in Hp0 as [->|Hp0]; [congruence|].
      destruct (IH Hp0) as (pre & p & rest & -> & Hpre & Hp).
      exists (q :: pre), p, rest. split; [done|]. split; [|done].
      intros q' [->|Hq']%elem_of_cons; [by rewrite Hq|by apply Hpre].
    - exists [], q, ps. split; [done|]. split; [|done].
      intros q' Hq'. by apply elem_of_nil in Hq'. }
  exists (set_ods s (deliver (ods s) pre)), pre, p, rest.
  split; [done|]. split; [|split; [|split]].
  - intros q Hq. by apply located_is_Some, Hpre.
  - by apply located_None.
  - by apply load_passenger_manifest_stops.
  - by apply load_passenger_manifest_ok.
Qed.

(** C10. [load_passenger_manifest] is not atomic: when the first passengers
    of the manifest each have an OD and the next one has none, the call
    raises at that passenger, and the service it leaves is the one obtained
    by loading the first passengers alone, each of them appended to its
    OD. *)
Theorem load_passenger_manifest_not_atomic s pre p rest :
  (∀ q, q ∈ pre → ∃ od, od ∈ ods s ∧ od_matches q od) →
  (∀ od, od ∈ ods s → ¬ od_matches p od) →
  ∃ s',
    load_passenger_manifest s (pre ++ p :: rest) = (s', Raise StopIteration) ∧
    load_passenger_manifest s pre = (s', Ok ()) ∧
    ∀ i od, ods s !! i = Some od →
      ∃ od', ods s' !! i = Some od' ∧
        od_passengers od'
        = od_passengers od ++ filter (λ q, located (ods s) q = Some i) pre.
Proof.
  intros Hpre Hp. exists (set_ods s (deliver (ods s) pre)).
  assert (∀ q, q ∈ pre → is_Some (located (ods s) q)) as Hpre'.
  { intros q Hq. by apply located_is_Some, Hpre. }
  split; [|split].
  - apply load_passenger_manifest_stops; [done|]. by apply located_None.
  - by apply load_passenger_manifest_ok.
  - intros i od Hi. eexists. split; [by apply deliver_lookup|]. done.
Qed.

End manifest.

(** *** Dictionaries *)

Section dict.
Context `{EqDecision K} {V : Type}.
Implicit Types (d : dict K V) (k : K) (v : V).

Lemma dict_get_set d k v k' :
  dict_get (dict_set d k v) k' = if decide (k = k') then Some v else dict_get d k'.
Proof.
  induction d as [|[k0 v0] d IH]; simpl.
  - by destruct (decide (k = k')).
  - destruct (decide (k0 = k)) as [->|Hne]; simpl.
    + by destruct (decide (k = k')).
    + rewrite IH. destruct (decide (k0 = k')) as [->|]; [|done].
      by rewrite decide_False.
Qed.

Lemma dict_set_fresh d k v : k ∉ d.*1 → dict_set d k v = d ++ [(k, v)].
Proof.
  induction d as [|[k0 v0] d IH]; simpl; [done|].
  intros Hk. apply not_elem_of_cons in Hk as [Hne Hk].
  rewrite decide_False by done. by rewrite IH.
Qed.

Lemma dict_get_NoDup d k v :
  NoDup d.*1 → dict_get d k = Some v ↔ (k, v) ∈ d.
Proof.
  induction d as [|[k0 v0] d IH]; simpl.
  - intros _. split; [done|]. by intros ?%elem_of_nil.
  - intros [Hk0 Hd]%NoDup_cons. rewrite elem_of_cons, <- (IH Hd).
    destruct (decide (k0 = k)) as [->|Hne].
    + split; [intros [= ->]; by left|]. intros [[= ->]|Hget]; [done|].
      exfalso. apply Hk0. apply (IH Hd) in Hget.
      apply list_elem_of_fmap. by exists (k, v).
    + split; [by right|]. intros [[= ]|]; [congruence|done].
Qed.

Lemma defaultdict_get_update (dflt : V) (f : V → V) d k k' :
  defaultdict_get dflt (defaultdict_update dflt f d k) k'
  = if decide (k = k') then f (defaultdict_get dflt d k)
    else defaultdict_get dflt d k'.
Proof.
  unfold defaultdict_update, defaultdict_get at 1. rewrite dict_get_set.
  by destruct (decide (k = k')).
Qed.

End dict.

Lemma next_filter_unique {A B} (P : A → Prop) `{∀ x, Decision (P x)}
    (f : A → B) (l : list A) (y : B) :
  (∃ x, x ∈ l ∧ P x) → (∀ x, x ∈ l → P x → f x = y) →
  next (f <$> filter P l) = Ok y.
Proof.
  intros (x & Hx & HPx) Hall.
  assert (x ∈ filter P l) as Hin by by apply list_elem_of_filter.
  destruct (filter P l) as [|x' l'] eqn:Hfilter; [by apply elem_of_nil in Hin|].
  simpl. f_equal. assert (x' ∈ filter P l) as Hx' by (rewrite Hfilter; by left).
  apply list_elem_of_filter in Hx' as [? ?]. by apply Hall.
Qed.

(** *** Chains of stations *)

Lemma chain_cons a b l : chain (a :: b :: l) = (a, b) :: chain (b :: l).
Proof. done. Qed.

Lemma chain_snd a l : (chain (a :: l)).*2 = l.
Proof. apply (snd_zip (a :: l) l). simpl. lia. Qed.

Lemma chain_fst a l sl :
  last (a :: l) = Some sl → (chain (a :: l)).*1 ++ [sl] = a :: l.
Proof.
  revert a. induction l as [|b l IH]; intros a.
  - by intros [= ->].
  - rewrite last_cons_cons, chain_cons. intros Hlast.
    rewrite fmap_cons, <- app_comm_cons. f_equal. by apply IH.
Qed.

Lemma length_chain l : length (chain l) = (length l - 1)%nat.
Proof.
  unfold chain. rewrite length_zip_with. destruct l as [|a l]; [done|].
  change (tail (a :: l)) with l. simpl length. lia.
Qed.

Lemma chain_middle pre a b rest : (a, b) ∈ chain (pre ++ a :: b :: rest).
Proof.
  induction pre as [|c pre IH]; simpl.
  - rewrite chain_cons. by left.
  - destruct pre as [|c' pre]; simpl in *; rewrite chain_cons; by right.
Qed.

Lemma length_filter_fst {A B} `{EqDecision A} (x : A) (l : list (A * B)) :
  length (filter (λ e, e.1 = x) l) = length (filter (λ y, y = x) l.*1).
Proof.
  induction l as [|[a b] l IH]; [done|]. simpl.
  rewrite !filter_cons. simpl. destruct (decide (a = x)); simpl; by rewrite IH.
Qed.

Lemma length_filter_snd {A B} `{EqDecision B} (x : B) (l : list (A * B)) :
  length (filter (λ e, e.2 = x) l) = length (filter (λ y, y = x) l.*2).
Proof.
  induction l as [|[a b] l IH]; [done|]. simpl.
  rewrite !filter_cons. simpl. destruct (decide (b = x)); simpl; by rewrite IH.
Qed.

Lemma length_filter_eq_NoDup {A} `{EqDecision A} (x : A) (l : list A) :
  NoDup l →
  length (filter (λ y, y = x) l) = if decide (x ∈ l) then 1%nat else 0%nat.
Proof.
  induction l as [|a l IH]; [done|]. intros [Ha Hl]%NoDup_cons.
  rewrite filter_cons. destruct (decide (a = x)) as [->|Hne]; simpl;
    rewrite (IH Hl).
  - rewrite (decide_False (P := x ∈ l)) by done.
    by rewrite decide_True by by left.
  - destruct (decide (x ∈ l)).
    + by rewrite decide_True by by right.
    + rewrite decide_False; [done|]. intros [->|]%elem_of_cons; done.
Qed.

(** In a chain of distinct stations the first one occurs once, as an origin,
    the last one once, as a destination, and the others twice. *)
Lemma occurrences_chain stations x :
  NoDup stations →
  occurrences x (chain stations)
  = (if decide (x ∈ (chain stations).*1) then 1 else 0) +
    (if decide (x ∈ (chain stations).*2) then 1 else 0).
Proof.
  intros Hnd. unfold occurrences.
  rewrite length_filter_fst, length_filter_snd.
  destruct stations as [|a l]; [done|].
  destruct (last (a :: l)) as [sl|] eqn:Hlast.
  2:{ by rewrite last_cons in Hlast; destruct (last l). }
  pose proof (chain_fst a l sl Hlast) as Hfst.
  pose proof (chain_snd a l) as Hsnd.
  rewrite !length_filter_eq_NoDup.
  - by do 2 case_decide.
  - rewrite Hsnd. by apply NoDup_cons in Hnd as [_ ?].
  - rewrite <- Hfst in Hnd. by apply NoDup_app in Hnd as [? _].
Qed.

Section itinerary.
Context {number : Type} `{EqDecision number}.
Abbreviation Service := (Service number).
Implicit Types (s : Service) (stations : list Station).

Lemma wf_legs_length s stations :
  wf_legs s stations → length (legs s) = (length stations - 1)%nat.
Proof.
  intros (_ & _ & Hperm).
  by rewrite <- length_chain, <- Hperm, length_fmap.
Qed.

Lemma occurrences_cons x a b ends :
  occurrences x ((a, b) :: ends)
  = (if decide (a = x) then 1 else 0) + (if decide (b = x) then 1 else 0)
    + occurrences x ends.
Proof.
  unfold occurrences. rewrite !filter_cons. simpl.
  destruct (decide (a = x)), (decide (b = x)); simpl length; lia.
Qed.

Lemma occurrences_Permutation x ends ends' :
  ends ≡ₚ ends' → occurrences x ends = occurrences x ends'.
Proof. intros Hperm. unfold occurrences. by rewrite Hperm. Qed.

(** What the loop of [_calculate_station_occurrences_and_connections]
    leaves in its two dictionaries. *)
Lemma calculate_fold (l : list Leg) occ conn :
  let r :=
    foldl (λ '(stations_occurrences, station_connections) leg,
             let stations_occurrences :=
               defaultdict_update 0 (Z.add 1) stations_occurrences
                 (leg_origin leg) in
             let stations_occurrences :=
               defaultdict_update 0 (Z.add 1) stations_occurrences
                 (leg_destination leg) in
             let station_connections :=
               dict_set station_connections (leg_origin leg)
                 (leg_destination leg) in
             (stations_occurrences, station_connections))
          (occ, conn) l in
  (∀ x, defaultdict_get 0 r.1 x
        = defaultdict_get 0 occ x + occurrences x (leg_ends <$> l)) ∧
  (NoDup (conn.*1 ++ (leg_origin <$> l)) → r.2 = conn ++ (leg_ends <$> l)).
Proof.
  cbv zeta. revert occ conn.
  induction l as [|leg l IH]; intros occ conn; simpl.
  - unfold occurrences. simpl. split; [intros; lia|]. intros _.
    by rewrite app_nil_r.
  - destruct (IH (defaultdict_update 0 (Z.add 1)
                    (defaultdict_update 0 (Z.add 1) occ (leg_origin leg))
                    (leg_destination leg))
                 (dict_set conn (leg_origin leg) (leg_destination leg)))
      as [IHocc IHconn].
    split.
    + intros x. rewrite IHocc, !defaultdict_get_update.
      unfold leg_ends at 2. rewrite occurrences_cons.
      change (list_fmap _ _ leg_ends l) with (leg_ends <$> l).
      generalize (occurrences x (leg_ends <$> l)). intros n.
      destruct (decide (leg_destination leg = x)) as [Hd|Hd],
               (decide (leg_origin leg = x)) as [Ho|Ho],
               (decide (leg_origin leg = leg_destination leg)) as [Hod|Hod];
        try congruence; rewrite <- ?Hd, <- ?Ho, ?Hod; lia.
    + intros Hnd.
      assert (leg_origin leg ∉ conn.*1) as Hfresh.
      { apply NoDup_app in Hnd as (_ & Hdisj & _).
        intros Hin. apply (Hdisj _ Hin). by left. }
      rewrite dict_set_fresh in IHconn |- * by done.
      rewrite IHconn; [by rewrite <- app_assoc|].
      rewrite fmap_app, <- app_assoc. done.
Qed.

Lemma calculate_occurrences s x :
  defaultdict_get 0 (_calculate_station_occurrences_and_connections s).1 x
  = occurrences x (leg_ends <$> legs s).
Proof.
  exact (proj1 (calculate_fold (legs s) [] []) x).
Qed.

Lemma calculate_connections s :
  NoDup (leg_origin <$> legs s) →
  (_calculate_station_occurrences_and_connections s).2 = leg_ends <$> legs s.
Proof.
  intros Hnd.
  exact (proj2 (calculate_fold (legs s) [] []) Hnd).
Qed.

Lemma itinerary_loop_chain (conn : dict Station Station) stations final :
  NoDup stations → last stations = Some final →
  (∀ a b, (a, b) ∈ chain stations → dict_get conn a = Some b) →
  ∀ rest pre cur acc fuel,
    stations = pre ++ cur :: rest → (length rest < fuel)%nat →
    itinerary_loop fuel conn final cur acc = Ok (acc ++ cur :: rest).
Proof.
  intros Hnd Hlast Hconn. induction rest as [|nxt rest IH];
    intros pre cur acc [|fuel] Hst Hfuel; simpl in Hfuel; try lia; simpl.
  - rewrite Hst, last_snoc in Hlast. injection Hlast as ->.
    by rewrite decide_True.
  - rewrite decide_False.
    + unfold dict_getitem. rewrite (Hconn cur nxt).
      2:{ rewrite Hst. apply chain_middle. }
      simpl. rewrite (IH (pre ++ [cur]) nxt (acc ++ [cur]) fuel).
      * by rewrite <- app_assoc.
      * by rewrite <- app_assoc.
      * lia.
    + intros ->. rewrite Hst in Hnd, Hlast.
      apply NoDup_app in Hnd as (_ & _ & [Hfinal _]%NoDup_cons).
      apply Hfinal. rewrite last_app_cons, last_cons_cons in Hlast.
      by apply last_Some_elem_of.
Qed.

(** *** The fuel of [itinerary_loop] *)

Lemma itinerary_loop_Diverge (conn : dict Station Station) final fuel cur acc :
  itinerary_loop fuel conn final cur acc = Diverge ↔
  ∀ k, (k < fuel)%nat →
       ∃ x, hop conn cur k = Some x ∧ x ≠ final ∧ is_Some (dict_get conn x).
Proof.
  revert cur acc. induction fuel as [|fuel IH]; intros cur acc; simpl.
  { split; [intros _ k; lia|done]. }
  destruct (decide (cur = final)) as [->|Hne].
  { split; [done|]. intros Hall.
    destruct (Hall 0%nat) as (x & [= <-] & Hx & _); [lia|done]. }
  unfold dict_getitem. destruct (dict_get conn cur) as [nxt|] eqn:Hnxt; simpl.
  - rewrite IH. split.
    + intros Hall [|k] Hk; simpl.
      * exists cur. rewrite Hnxt. eauto.
      * rewrite Hnxt. simpl. apply Hall. lia.
    + intros Hall k Hk. specialize (Hall (S k)). simpl in Hall.
      rewrite Hnxt in Hall. apply Hall. lia.
  - split; [done|]. intros Hall.
    destruct (Hall 0%nat) as (x & [= <-] & _ & [? Hx]); [lia|].
    congruence.
Qed.

Lemma hop_add (conn : dict Station Station) cur i t :
  hop conn cur (i + t) = x ← hop conn cur i; hop conn x t.
Proof.
  revert cur. induction i as [|i IH]; intros cur; simpl; [done|].
  destruct (dict_get conn cur) as [nxt|]; simpl; [apply IH|done].
Qed.

(** More fuel does not change an outcome that was reached. *)
Lemma itinerary_loop_fuel_mono (conn : dict Station Station) final fuel fuel'
    cur acc :
  (fuel ≤ fuel')%nat →
  itinerary_loop fuel conn final cur acc ≠ Diverge →
  itinerary_loop fuel' conn final cur acc
  = itinerary_loop fuel conn final cur acc.
Proof.
  revert fuel' cur acc. induction fuel as [|fuel IH];
    intros [|fuel'] cur acc Hle; simpl; try done; try lia.
  destruct (decide (cur = final)); [done|].
  destruct (dict_getitem conn cur) as [nxt| |]; simpl; try done.
  apply IH. lia.
Qed.

(** A walk that uses up the fuel of [_calculate_itinerary] has been through
    some station twice, and so goes on for ever. *)
Lemma itinerary_loop_cycle (conn : dict Station Station) final cur acc :
  itinerary_loop (S (length conn)) conn final cur acc = Diverge →
  ∀ fuel acc', itinerary_loop fuel conn final cur acc' = Diverge.
Proof.
  intros Hdiv fuel acc'.
  pose proof (proj1 (itinerary_loop_Diverge _ _ _ _ _) Hdiv) as Hhops.
  assert (∀ i j, (i < j ≤ length conn)%nat →
                 hop conn cur i = hop conn cur j →
                 itinerary_loop fuel conn final cur acc' = Diverge) as Hcycle.
  { intros i j Hij Heq. apply itinerary_loop_Diverge.
    intros k _. induction (lt_wf k) as [k _ IH].
    destruct (decide (k < S (length conn))%nat) as [Hk|Hk]; [by apply Hhops|].
    destruct (IH (k - (j - i))%nat) as (x & Hx & Hfinal & Hnext); [lia|].
    exists x. split; [|done]. rewrite <- Hx.
    replace k with (j + (k - j))%nat at 1 by lia.
    replace (k - (j - i))%nat with (i + (k - j))%nat by lia.
    by rewrite !hop_add, Heq. }
  destruct (decide (itinerary_loop fuel conn final cur acc' = Diverge))
    as [|Hrun]; [done|]. exfalso.
  set (xs := (λ k, default cur (hop conn cur k)) <$> seq 0 (S (length conn))).
  assert (∀ k, (k < S (length conn))%nat → xs !! k = hop conn cur k) as Hxs.
  { intros k Hk. unfold xs. rewrite list_lookup_fmap, lookup_seq_lt by done.
    simpl. by destruct (Hhops k Hk) as (x & -> & _). }
  assert (length xs = S (length conn)) as Hlen.
  { unfold xs. by rewrite length_fmap, length_seq. }
  assert (NoDup xs) as Hnd.
  { apply NoDup_alt. intros a b x Ha Hb.
    assert (a < S (length conn))%nat
      by (rewrite <- Hlen; by eapply lookup_lt_Some).
    assert (b < S (length conn))%nat
      by (rewrite <- Hlen; by eapply lookup_lt_Some).
    rewrite Hxs in Ha, Hb by done.
    destruct (Nat.lt_trichotomy a b) as [?|[?|?]]; [|done|]; exfalso;
      apply Hrun; [apply (Hcycle a b)|apply (Hcycle b a)];
      (lia || congruence). }
  assert (xs ⊆+ conn.*1) as Hsub.
  { apply NoDup_submseteq; [done|]. intros x (k & Hk)%list_elem_of_lookup_1.
    assert (k < S (length conn))%nat
      by (rewrite <- Hlen; by eapply lookup_lt_Some).
    rewrite Hxs in Hk by done.
    destruct (Hhops k ltac:(done)) as (x' & Hx' & _ & [y Hy]).
    simplify_eq. clear -Hy. induction conn as [|[k0 v0] d IH]; [done|].
    simpl in Hy. rewrite fmap_cons. destruct (decide (k0 = x)) as [->|];
      [by left|right; by apply IH]. }
  apply submseteq_length in Hsub. rewrite length_fmap in Hsub. lia.
Qed.

(** The itinerary of a service whose legs form a chain is that chain,
    whatever the order of [legs]. *)
Lemma Service_itinerary_wf s stations :
  wf_legs s stations → Service_itinerary s = Ok stations.
Proof.
  intros (Hnd & Hlen & Hperm).
  destruct stations as [|s0 [|s1 rest]]; simpl in Hlen; try lia.
  destruct (last (s0 :: s1 :: rest)) as [sl|] eqn:Hlast.
  2:{ by rewrite !last_cons in Hlast; destruct (last rest). }
  set (stations := s0 :: s1 :: rest) in *.
  pose proof (chain_fst s0 (s1 :: rest) sl Hlast) as Hfst.
  pose proof (chain_snd s0 (s1 :: rest)) as Hsnd.
  fold stations in Hfst, Hsnd.
  assert (NoDup (chain stations).*1) as Hnd1.
  { rewrite <- Hfst in Hnd. by apply NoDup_app in Hnd as [? _]. }
  assert (NoDup (leg_origin <$> legs s)) as Hndo.
  { replace (leg_origin <$> legs s) with ((leg_ends <$> legs s).*1)
      by (by rewrite <- list_fmap_compose).
    by rewrite Hperm. }
  unfold Service_itinerary, _calculate_itinerary.
  pose proof (calculate_occurrences s) as Hocc.
  pose proof (calculate_connections s Hndo) as Hconn.
  destruct (_calculate_station_occurrences_and_connections s) as [occ conn].
  simpl in Hocc, Hconn. subst conn.
  assert (∀ x, defaultdict_get 0 occ x
               = (if decide (x ∈ (chain stations).*1) then 1 else 0) +
                 (if decide (x ∈ (chain stations).*2) then 1 else 0)) as Hocc'.
  { intros x. rewrite Hocc, (occurrences_Permutation _ _ _ Hperm).
    by apply occurrences_chain. }
  assert (∀ x, x ∈ stations ↔ x = s0 ∨ x ∈ (chain stations).*2) as Hin2.
  { intros x. rewrite Hsnd. apply elem_of_cons. }
  assert (∀ x, x ∈ stations ↔ x ∈ (chain stations).*1 ∨ x = sl) as Hin1.
  { intros x. rewrite <- Hfst at 1. rewrite elem_of_app, list_elem_of_singleton.
    done. }
  assert (s0 ∉ (chain stations).*2) as Hs0.
  { rewrite Hsnd. by apply NoDup_cons in Hnd as [? _]. }
  assert (sl ∉ (chain stations).*1) as Hsl.
  { rewrite <- Hfst in Hnd. apply NoDup_app in Hnd as (_ & Hdisj & _).
    intros Hin. apply (Hdisj _ Hin). by left. }
  assert (_find_departure_and_destination occ (leg_ends <$> legs s)
          = Ok (s0, sl)) as ->.
  { unfold _find_departure_and_destination.
    eapply bind_Ok_eq; [|eapply bind_Ok_eq; [|done]].
    - apply next_filter_unique.
      + exists (s0, s1). split; [rewrite Hperm; by left|]. simpl.
        rewrite Hocc'.
        rewrite (decide_False (P := s0 ∈ (chain stations).*2)) by done.
        rewrite decide_True; [done|]. by left.
      + intros [a b] Hab. rewrite Hperm in Hab. simpl. rewrite Hocc'.
        assert (a ∈ (chain stations).*1) as Ha.
        { apply list_elem_of_fmap. by exists (a, b). }
        rewrite (decide_True (P := a ∈ (chain stations).*1)) by done.
        case_decide as Ha2; [lia|]. intros _.
        assert (a ∈ stations) as Hast by (apply Hin1; by left).
        apply Hin2 in Hast as [?|?]; done.
    - apply next_filter_unique.
      + assert (sl ∈ (chain stations).*2) as Hin.
        { rewrite Hsnd. apply last_Some_elem_of. exact Hlast. }
        apply list_elem_of_fmap in Hin as ([a b] & -> & Hab).
        exists (a, b). split; [by rewrite Hperm|]. simpl. rewrite Hocc'.
        rewrite decide_False by done. rewrite decide_True; [done|].
        apply list_elem_of_fmap. by exists (a, b).
      + intros [a b] Hab. rewrite Hperm in Hab. simpl. rewrite Hocc'.
        assert (b ∈ (chain stations).*2) as Hb.
        { apply list_elem_of_fmap. by exists (a, b). }
        rewrite (decide_True (P := b ∈ (chain stations).*2)) by done.
        case_decide as Hb1; [lia|]. intros _.
        assert (b ∈ stations) as Hbst by (apply Hin2; by right).
        apply Hin1 in Hbst as [?|?]; done. }
  change (itinerary_loop (S (length (leg_ends <$> legs s)))
            (leg_ends <$> legs s) sl s0 [] = Ok stations).
  rewrite length_fmap, (wf_legs_length s stations) by done.
  apply (itinerary_loop_chain _ stations sl Hnd Hlast)
    with (pre := []) (rest := s1 :: rest) (cur := s0) (acc := []);
    [|done|simpl; lia].
  intros a b Hab. apply dict_get_NoDup; [by rewrite Hperm|].
  by rewrite Hperm.
Qed.

(** *** [load_itinerary] *)

Lemma load_legs_spec s stations (fresh : ref) :
  ∃ new,
    load_legs s stations fresh
    = (set_legs s (legs s ++ new), (fresh + length new)%nat) ∧
    leg_ends <$> new = chain stations.
Proof.
  unfold load_legs. fold (chain stations).
  generalize (chain stations). intros pairs. revert s fresh.
  induction pairs as [|[a b] pairs IH]; intros s fresh; cbn [foldl].
  - exists []. rewrite app_nil_r, Nat.add_0_r. by destruct s.
  - destruct (IH (set_legs s (legs s ++ [new_Leg fresh a b])) (S fresh))
      as (new & Hrun & Hnew).
    exists (new_Leg fresh a b :: new). split; [|by rewrite fmap_cons, Hnew].
    etransitivity; [exact Hrun|]. simpl. rewrite <- app_assoc.
    f_equal. lia.
Qed.

Lemma load_ods_spec s stations (fresh : ref) :
  ∃ new,
    load_ods s stations fresh
    = (set_ods s (ods s ++ new), (fresh + length new)%nat) ∧
    od_ends <$> new = combinations2 stations ∧
    Forall (λ od, od_passengers od = []) new.
Proof.
  unfold load_ods. generalize (combinations2 stations). intros pairs.
  revert s fresh.
  induction pairs as [|[a b] pairs IH]; intros s fresh; cbn [foldl].
  - exists []. rewrite app_nil_r, Nat.add_0_r. by destruct s.
  - destruct (IH (set_ods s (ods s ++ [new_OD fresh a b])) (S fresh))
      as (new & Hrun & Hnew & Hempty).
    exists (new_OD fresh a b :: new).
    split; [|split; [by rewrite fmap_cons, Hnew|by constructor]].
    etransitivity; [exact Hrun|]. simpl. rewrite <- app_assoc.
    f_equal. lia.
Qed.

Lemma length_combinations2 {A} (l : list A) :
  length (combinations2 l) = (length l * (length l - 1) / 2)%nat.
Proof.
  induction l as [|x l IH]; [done|]. simpl combinations2.
  rewrite length_app, length_fmap, IH. simpl length.
  replace (S (length l) * (S (length l) - 1))%nat
    with (length l * (length l - 1) + length l * 2)%nat by nia.
  rewrite Nat.div_add by done. lia.
Qed.

(** *** [OD.legs] *)

Lemma index_NoDup {A} `{EqDecision A} (l : list A) i x :
  NoDup l → l !! i = Some x → index l x = Ok (Z.of_nat i).
Proof.
  revert i. induction l as [|y l IH]; intros i Hnd Hi; [done|].
  apply NoDup_cons in Hnd as [Hy Hnd]. simpl.
  destruct i as [|i]; simpl in Hi.
  - injection Hi as ->. by rewrite decide_True.
  - rewrite decide_False.
    + rewrite (IH i) by done. simpl. f_equal. lia.
    + intros ->. apply Hy. by eapply list_elem_of_lookup_2.
Qed.

Lemma index_absent {A} `{EqDecision A} (l : list A) x :
  x ∉ l → index l x = Raise ValueError.
Proof.
  induction l as [|y l IH]; [done|].
  intros [Hne Hx]%not_elem_of_cons. simpl.
  rewrite decide_False by done. by rewrite IH.
Qed.

Lemma slice_nat {A} (l : list A) (i j : nat) :
  (i ≤ length l)%nat → (j ≤ length l)%nat →
  slice l (Z.of_nat i) (Z.of_nat j) = take (j - i) (drop i l).
Proof.
  intros Hi Hj. unfold slice, clip, len.
  destruct (Z.ltb_spec (Z.of_nat i) 0); [lia|].
  destruct (Z.ltb_spec (Z.of_nat j) 0); [lia|].
  rewrite !Z.min_l, !Nat2Z.id by lia. done.
Qed.

Lemma index_present {A} `{EqDecision A} (l : list A) x :
  NoDup l → x ∈ l → ∃ i : nat, l !! i = Some x ∧ index l x = Ok (Z.of_nat i).
Proof.
  intros Hnd (i & Hi)%list_elem_of_lookup_1. exists i.
  split; [done|]. by apply index_NoDup.
Qed.

(** C2. Loading an itinerary of [k >= 2] distinct stations into a new
    service creates [k-1] legs, one per pair of consecutive stations, and
    [k*(k-1)/2] ODs, one per combination of two stations; [Service.itinerary]
    then returns the stations as given, and it still does when the list of
    legs is put in any other order. *)
Theorem load_itinerary_roundtrip name date stations (fresh : ref) :
  NoDup stations → (2 ≤ length stations)%nat →
  let s : Service := (load_itinerary (new_Service name date) stations fresh).1 in
  length (legs s) = (length stations - 1)%nat ∧
  leg_ends <$> legs s = chain stations ∧
  length (ods s) = (length stations * (length stations - 1) / 2)%nat ∧
  od_ends <$> ods s = combinations2 stations ∧
  Service_itinerary s = Ok stations ∧
  ∀ legs', legs' ≡ₚ legs s → Service_itinerary (set_legs s legs') = Ok stations.
Proof.
  intros Hnd Hlen. unfold load_itinerary.
  set (s0 := new_Service name date : Service).
  destruct (load_legs_spec s0 stations fresh) as (new_legs & -> & Hlegs).
  destruct (load_ods_spec (set_legs s0 (legs s0 ++ new_legs))
              stations (fresh + length new_legs)%nat)
    as (new_ods & -> & Hods & _).
  subst s0. cbn [fst legs ods set_legs set_ods new_Service app].
  split; [|split; [done|split; [|split; [done|split]]]].
  - by rewrite <- length_chain, <- Hlegs, length_fmap.
  - by rewrite <- length_combinations2, <- Hods, length_fmap.
  - apply Service_itinerary_wf. split; [done|]. split; [done|].
    simpl. by rewrite Hlegs.
  - intros legs' Hperm. apply Service_itinerary_wf.
    split; [done|]. split; [done|]. simpl. by rewrite Hperm, Hlegs.
Qed.

(** C6. In a service whose legs form a chain, an OD whose origin is at
    position [i] of the itinerary and whose destination is at a later
    position [j] has as [legs] the slice of the service's legs from [i] up to
    but excluding [j], which holds [j - i] legs. *)
Theorem OD_legs_slice s stations (od : OD number) (i j : nat) :
  wf_legs s stations →
  stations !! i = Some (od_origin od) →
  stations !! j = Some (od_destination od) →
  (i < j)%nat →
  Service_itinerary s = Ok stations ∧
  index stations (od_origin od) = Ok (Z.of_nat i) ∧
  index stations (od_destination od) = Ok (Z.of_nat j) ∧
  OD_legs s od = Ok (slice (legs s) (Z.of_nat i) (Z.of_nat j)) ∧
  slice (legs s) (Z.of_nat i) (Z.of_nat j) = take (j - i) (drop i (legs s)) ∧
  length (slice (legs s) (Z.of_nat i) (Z.of_nat j)) = (j - i)%nat.
Proof.
  intros Hwf Hi Hj Hij. pose proof Hwf as (Hnd & _ & _).
  pose proof (Service_itinerary_wf s stations Hwf) as Hit.
  pose proof (index_NoDup stations i _ Hnd Hi) as Hio.
  pose proof (index_NoDup stations j _ Hnd Hj) as Hjd.
  pose proof (wf_legs_length s stations Hwf) as Hlen.
  apply lookup_lt_Some in Hj.
  assert (slice (legs s) (Z.of_nat i) (Z.of_nat j)
          = take (j - i) (drop i (legs s))) as Hslice.
  { apply slice_nat; lia. }
  repeat split; try done.
  - unfold OD_legs. by rewrite Hit; simpl; rewrite Hio; simpl; rewrite Hjd.
  - rewrite Hslice, length_take, length_drop. lia.
Qed.

(** C7, as the code has it.  In a service whose legs form a chain, [OD.legs]
    of an OD whose origin or destination is not a station of the itinerary
    raises [ValueError], the exception of [list.index], which is not a
    [LookupError]. *)
Theorem OD_legs_absent s stations (od : OD number) :
  wf_legs s stations →
  od_origin od ∉ stations ∨ od_destination od ∉ stations →
  OD_legs s od = Raise ValueError ∧ is_LookupError ValueError = false.
Proof.
  intros Hwf Habsent. split; [|done]. pose proof Hwf as (Hnd & _ & _).
  unfold OD_legs. rewrite (Service_itinerary_wf s stations Hwf). simpl.
  destruct (decide (od_origin od ∈ stations)) as [Ho|Ho].
  - destruct (index_present stations _ Hnd Ho) as (i & _ & ->). simpl.
    destruct Habsent as [Hno|Hd]; [by destruct Hno|].
    by rewrite (index_absent _ _ Hd).
  - by rewrite (index_absent _ _ Ho).
Qed.

(** *** [Leg.passengers] *)

Lemma foldl_set_add {A} `{EqDecision A} (l acc : list A) :
  NoDup acc →
  NoDup (foldl set_add acc l) ∧
  ∀ x, x ∈ foldl set_add acc l ↔ x ∈ acc ∨ x ∈ l.
Proof.
  revert acc. induction l as [|y l IH]; intros acc Hnd; simpl.
  - split; [done|]. intros x. rewrite elem_of_nil. tauto.
  - assert (NoDup (set_add acc y)) as Hnd'.
    { unfold set_add. case_decide; [done|].
      apply NoDup_app. split; [done|]. split; [|apply NoDup_singleton].
      by intros x Hx ->%list_elem_of_singleton. }
    destruct (IH _ Hnd') as [IH1 IH2]. split; [done|].
    intros x. rewrite IH2, elem_of_cons. unfold set_add.
    case_decide as Hy.
    + split; [tauto|]. intros [?|[->|?]]; tauto.
    + rewrite elem_of_app, list_elem_of_singleton. tauto.
Qed.

Lemma OD_legs_wf s stations (od : OD number) :
  wf_legs s stations →
  od_origin od ∈ stations → od_destination od ∈ stations →
  ∃ lg, OD_legs s od = Ok lg.
Proof.
  intros Hwf Ho Hd. pose proof Hwf as (Hnd & _ & _).
  unfold OD_legs. rewrite (Service_itinerary_wf s stations Hwf). simpl.
  destruct (index_present stations _ Hnd Ho) as (i & _ & ->).
  destruct (index_present stations _ Hnd Hd) as (j & _ & ->).
  simpl. eauto.
Qed.

Lemma Leg_passengers_loop s (self : Leg) (l : list (OD number)) acc :
  (∀ od, od ∈ l → ∃ lg, OD_legs s od = Ok lg) →
  NoDup acc →
  ∃ r,
    for_each l
      (λ od acc,
         od_legs ← OD_legs s od;
         if decide (self ∈ od_legs)
         then Ok (foldl set_add acc (od_passengers od))
         else Ok acc)
      acc = Ok r ∧
    NoDup r ∧
    ∀ p, p ∈ r ↔
         p ∈ acc ∨
         ∃ od lg, od ∈ l ∧ OD_legs s od = Ok lg ∧ self ∈ lg ∧
                  p ∈ od_passengers od.
Proof.
  revert acc. induction l as [|od l IH]; intros acc Hlegs Hnd; simpl.
  - exists acc. split; [done|]. split; [done|]. intros p. split; [by left|].
    intros [?|(od & lg & []%elem_of_nil & _)]; done.
  - destruct (Hlegs od) as [lg Hlg]; [by left|].
    destruct (foldl_set_add (od_passengers od) acc Hnd) as [Hnd' Hin'].
    destruct (decide (self ∈ lg)) as [Hself|Hself].
    + destruct (IH (foldl set_add acc (od_passengers od)))
        as (r & Hrun & ? & Hr); [intros; apply Hlegs; by right|done|].
      exists r. split; [|split; [done|]].
      { eapply bind_Ok_eq; [|exact Hrun]. rewrite Hlg. simpl.
        by rewrite decide_True. }
      intros p. rewrite Hr, Hin'. split.
      * intros [[?|?]|(od' & lg' & ? & ? & ? & ?)]; [by left|right..].
        -- exists od, lg. split; [by left|done].
        -- exists od', lg'. split; [by right|done].
      * intros [?|(od' & lg' & [->|?]%elem_of_cons & Hlg' & ? & ?)].
        -- by left; left.
        -- left; right. done.
        -- right. by exists od', lg'.
    + destruct (IH acc) as (r & Hrun & ? & Hr);
        [intros; apply Hlegs; by right|done|].
      exists r. split; [|split; [done|]].
      { eapply bind_Ok_eq; [|exact Hrun]. rewrite Hlg. simpl.
        by rewrite decide_False. }
      intros p. rewrite Hr. split.
      * intros [?|(od' & lg' & ? & ? & ? & ?)]; [by left|right].
        exists od', lg'. split; [by right|done].
      * intros [?|(od' & lg' & [->|?]%elem_of_cons & Hlg' & ? & ?)].
        -- by left.
        -- rewrite Hlg in Hlg'. by simplify_eq.
        -- right. by exists od', lg'.
Qed.

Lemma OD_legs_positions s stations (od : OD number) (a b : nat) :
  wf_legs s stations →
  stations !! a = Some (od_origin od) →
  stations !! b = Some (od_destination od) →
  OD_legs s od = Ok (take (b - a) (drop a (legs s))).
Proof.
  intros Hwf Ha Hb. pose proof Hwf as (Hnd & _ & _).
  pose proof (wf_legs_length s stations Hwf) as Hlen.
  unfold OD_legs. rewrite (Service_itinerary_wf s stations Hwf). simpl.
  rewrite (index_NoDup stations a _ Hnd Ha). simpl.
  rewrite (index_NoDup stations b _ Hnd Hb). simpl.
  apply lookup_lt_Some in Ha, Hb. f_equal. apply slice_nat; lia.
Qed.

Lemma elem_of_take_drop_NoDup {A} (l : list A) (i a b : nat) x :
  NoDup l → l !! i = Some x →
  x ∈ take (b - a) (drop a l) ↔ (a ≤ i < b)%nat.
Proof.
  intros Hnd Hi. rewrite elem_of_take. split.
  - intros (k & Hk & Hlt). rewrite lookup_drop in Hk.
    pose proof (NoDup_lookup l _ _ x Hnd Hi Hk). lia.
  - intros Hab. exists (i - a)%nat. rewrite lookup_drop.
    replace (a + (i - a))%nat with i by lia. split; [done|lia].
Qed.

Lemma chain_NoDup stations : NoDup stations → NoDup (chain stations).
Proof.
  intros Hnd. apply (NoDup_fmap_1 fst). destruct stations as [|a l]; [done|].
  destruct (last (a :: l)) as [sl|] eqn:Hlast.
  2:{ by rewrite last_cons in Hlast; destruct (last l). }
  rewrite <- (chain_fst a l sl Hlast) in Hnd.
  by apply NoDup_app in Hnd as [? _].
Qed.

(** The passengers of a leg, in a well-formed service. *)
Lemma Leg_passengers_wf s stations (self : Leg) :
  wf_service s stations →
  ∃ l, Leg_passengers s self = Ok l ∧ NoDup l ∧
       ∀ p, p ∈ l ↔
            ∃ od lg, od ∈ ods s ∧ OD_legs s od = Ok lg ∧ self ∈ lg ∧
                     p ∈ od_passengers od.
Proof.
  intros [Hwf Hods].
  destruct (Leg_passengers_loop s self (ods s) []) as (r & Hr & Hnd & Hin).
  { intros od [? ?]%Hods. by eapply OD_legs_wf. }
  { constructor. }
  exists r. unfold Leg_passengers. rewrite Hr. split; [done|]. split; [done|].
  intros p. rewrite Hin, elem_of_nil. tauto.
Qed.

(** When the legs are held in the order of the itinerary, the ODs whose
    [legs] contain leg [i] are those that start at or before station [i] and
    end after it. *)
Lemma Leg_passengers_crossing s stations (i : nat) (self : Leg) l :
  wf_service s stations →
  leg_ends <$> legs s = chain stations →
  legs s !! i = Some self →
  Leg_passengers s self = Ok l →
  ∀ p, p ∈ l ↔
       ∃ od (a b : nat),
         od ∈ ods s ∧
         stations !! a = Some (od_origin od) ∧
         stations !! b = Some (od_destination od) ∧
         (a ≤ i < b)%nat ∧
         p ∈ od_passengers od.
Proof.
  intros Hwf Hchain Hi Hrun p. pose proof Hwf as [Hlegs Hods].
  pose proof Hlegs as (Hnd & _ & _).
  assert (NoDup (legs s)) as Hndlegs.
  { apply (NoDup_fmap_1 leg_ends). rewrite Hchain. by apply chain_NoDup. }
  destruct (Leg_passengers_wf s stations self Hwf) as (l' & Hrun' & _ & Hin).
  rewrite Hrun in Hrun'. injection Hrun' as <-. rewrite Hin. split.
  - intros (od & lg & Hod & Hlg & Hself & Hp).
    destruct (Hods od Hod) as [(a & Ha)%list_elem_of_lookup_1
                                 (b & Hb)%list_elem_of_lookup_1].
    rewrite (OD_legs_positions s stations od a b Hlegs Ha Hb) in Hlg.
    injection Hlg as <-.
    apply (elem_of_take_drop_NoDup _ i) in Hself; [|done..].
    exists od, a, b. done.
  - intros (od & a & b & Hod & Ha & Hb & Hab & Hp).
    exists od, (take (b - a) (drop a (legs s))).
    split; [done|]. split; [by apply (OD_legs_positions s stations)|].
    split; [|done]. by apply (elem_of_take_drop_NoDup _ i).
Qed.

End itinerary.

(** X28. In a well-formed service [Leg.passengers] returns, each once, the
    passengers of the ODs of the service whose [legs] contain the leg, and
    no others.  When the service holds its legs in the order of the
    itinerary, these are the ODs that start at or before the origin of the
    leg and end after it.  In the example of three stations the leg from ply
    to lpd has 5 passengers and the leg from lpd to msc has 1. *)
Theorem Leg_passengers_correct :
  (∀ (number : Type) `(EqDecision number) (s : Service number) stations
     (i : nat) (self : Leg),
     wf_service s stations →
     legs s !! i = Some self →
     ∃ l, Leg_passengers s self = Ok l ∧ NoDup l ∧
          (∀ p, p ∈ l ↔
                ∃ od lg, od ∈ ods s ∧ OD_legs s od = Ok lg ∧ self ∈ lg ∧
                         p ∈ od_passengers od) ∧
          (leg_ends <$> legs s = chain stations →
           ∀ p, p ∈ l ↔
                ∃ od (a b : nat),
                  od ∈ ods s ∧
                  stations !! a = Some (od_origin od) ∧
                  stations !! b = Some (od_destination od) ∧
                  (a ≤ i < b)%nat ∧
                  p ∈ od_passengers od)) ∧
  (leg ← getitem (legs Example.service) 0;
   l ← Leg_passengers Example.service leg; Ok (len l)) = Ok 5 ∧
  (leg ← getitem (legs Example.service) 1;
   l ← Leg_passengers Example.service leg; Ok (len l)) = Ok 1.
Proof.
  split; [|by split].
  intros number ? s stations i self Hwf Hi.
  destruct (Leg_passengers_wf s stations self Hwf) as (l & Hrun & Hnd & Hin).
  exists l. split; [done|]. split; [done|]. split; [done|].
  intros Hchain. by apply (Leg_passengers_crossing s stations i self).
Qed.

(** *** [OD.history] *)

Section history.
Context {number : Type} `{EqDecision number}.
Variable add : number → number → number.
Variable zero : number.
Variable less : number → number → bool.
Abbreviation Passenger := (Passenger number).
Abbreviation point := (point number).
Implicit Types (p : Passenger) (ps : list Passenger) (d : Z)
  (row : point) (rows : list point).

Lemma dict_get_defaultdict_update {K V} `{EqDecision K} (dflt : V) (f : V → V)
    (m : dict K V) k k' :
  dict_get (defaultdict_update dflt f m k) k'
  = if decide (k = k') then Some (f (defaultdict_get dflt m k))
    else dict_get m k'.
Proof. unfold defaultdict_update. apply dict_get_set. Qed.

Lemma dict_set_keys {K V} `{EqDecision K} (m : dict K V) k v :
  (dict_set m k v).*1 = if decide (k ∈ m.*1) then m.*1 else m.*1 ++ [k].
Proof.
  induction m as [|[k0 v0] m IH]; [done|]. cbn [dict_set].
  destruct (decide (k0 = k)) as [->|Hne]; rewrite !fmap_cons; cbn [fst].
  - by rewrite decide_True by by left.
  - rewrite IH. destruct (decide (k ∈ m.*1)).
    + by rewrite decide_True by by right.
    + rewrite decide_False; [done|]. by intros [->|?]%elem_of_cons.
Qed.

Lemma dict_set_keys_NoDup {K V} `{EqDecision K} (m : dict K V) k v :
  NoDup m.*1 → NoDup (dict_set m k v).*1.
Proof.
  intros Hnd. rewrite dict_set_keys. case_decide as Hk; [done|].
  apply NoDup_app. split; [done|]. split; [|apply NoDup_singleton].
  by intros x Hx ->%list_elem_of_singleton.
Qed.

Lemma booked_on_snoc d ps p :
  booked_on d (ps ++ [p])
  = booked_on d ps ++ (if decide (sale_day_x p = d) then [p] else []).
Proof.
  unfold booked_on. by rewrite filter_app.
Qed.

(** The first loop of [history]: the dictionary has one key per day on which
    a passenger booked, holding that day's totals. *)
Lemma history_map_spec ps :
  let history_map := foldl (history_add add zero) [] ps in
  NoDup history_map.*1 ∧
  ∀ d, dict_get history_map d = day_totals add zero d ps.
Proof.
  cbv zeta. induction ps as [|p ps IH] using rev_ind.
  - split; [constructor|done].
  - destruct IH as [IHnd IHget]. rewrite foldl_snoc.
    set (hm := foldl (history_add add zero) [] ps) in *. split.
    + unfold history_add, defaultdict_update. by do 2 apply dict_set_keys_NoDup.
    + intros d. unfold history_add.
      rewrite !dict_get_defaultdict_update, defaultdict_get_update.
      rewrite (decide_True (P := sale_day_x p = sale_day_x p)) by done.
      cbn [fst snd]. unfold day_totals, bookings_on, revenue_on.
      rewrite booked_on_snoc. unfold defaultdict_get.
      destruct (decide (sale_day_x p = d)) as [<-|Hne].
      * rewrite IHget. unfold day_totals, bookings_on, revenue_on.
        destruct (booked_on (sale_day_x p) ps) as [|q qs] eqn:Hq; simpl.
        -- done.
        -- rewrite foldl_snoc. unfold len. simpl length.
           rewrite length_app. simpl length. do 2 f_equal. lia.
      * by rewrite IHget, app_nil_r.
Qed.

(** Data points with different days are ordered by their days. *)
Lemma point_lt_days (a b : point) :
  point_day a ≠ point_day b →
  point_lt less a b = bool_decide (point_day a < point_day b).
Proof.
  destruct a as [[da ba] ra], b as [[db bb] rb]. unfold point_day. simpl.
  intros Hne. rewrite decide_False by done.
  destruct (Z.ltb_spec da db).
  - by rewrite bool_decide_eq_true_2.
  - by rewrite bool_decide_eq_false_2 by lia.
Qed.

Lemma insort_spec x rows :
  point_day x ∉ point_day <$> rows →
  StronglySorted (λ a b, point_day a < point_day b) rows →
  StronglySorted (λ a b, point_day a < point_day b)
    (insort (point_lt less) x rows) ∧
  insort (point_lt less) x rows ≡ₚ x :: rows.
Proof.
  induction rows as [|y rows IH]; intros Hx Hsorted; simpl.
  - split; [|done]. repeat constructor.
  - rewrite fmap_cons in Hx. apply not_elem_of_cons in Hx as [Hne Hx].
    apply StronglySorted_cons in Hsorted as [Hy Hsorted].
    rewrite point_lt_days by done. case_bool_decide as Hlt.
    + split; [|done]. apply StronglySorted_cons. split.
      * constructor; [done|]. eapply Forall_impl; [exact Hy|].
        simpl. intros z Hz. lia.
      * by apply StronglySorted_cons.
    + destruct (IH Hx Hsorted) as [IHs IHp]. split.
      * apply StronglySorted_cons. split; [|done]. rewrite IHp.
        constructor; [lia|done].
      * rewrite IHp. apply Permutation_swap.
Qed.

Lemma sorted_spec rows :
  NoDup (point_day <$> rows) →
  StronglySorted (λ a b, point_day a < point_day b)
    (sorted (point_lt less) rows) ∧
  sorted (point_lt less) rows ≡ₚ rows.
Proof.
  unfold sorted.
  assert (∀ acc : list point,
            NoDup (point_day <$> (acc ++ rows)) →
            StronglySorted (λ a b, point_day a < point_day b) acc →
            StronglySorted (λ a b, point_day a < point_day b)
              (foldl (λ acc x, insort (point_lt less) x acc) acc rows) ∧
            foldl (λ acc x, insort (point_lt less) x acc) acc rows
            ≡ₚ acc ++ rows) as Hgen.
  { induction rows as [|x rows IH]; intros acc Hnd Hsorted; simpl.
    - by rewrite app_nil_r.
    - destruct (insort_spec x acc) as [Hs Hp]; [|done|].
      { rewrite fmap_app, fmap_cons in Hnd.
        apply NoDup_app in Hnd as (_ & Hdisj & _).
        intros Hin. apply (Hdisj _ Hin). by left. }
      destruct (IH (insort (point_lt less) x acc)) as [IHs IHp]; [|done|].
      { by rewrite Hp, <- app_comm_cons, Permutation_middle. }
      split; [done|]. by rewrite IHp, Hp, <- app_comm_cons, Permutation_middle. }
  intros Hnd. apply (Hgen []); [done|constructor].
Qed.

(** The second loop of [history]. *)
Lemma accumulate_loop rows :
  ∃ h,
    for_each (range_from 1 (len rows)) (accumulate add) rows = Ok h ∧
    length h = length rows ∧
    point_day <$> h = point_day <$> rows ∧
    h !! 0%nat = rows !! 0%nat ∧
    ∀ i current,
      rows !! S i = Some current →
      ∃ previous,
        h !! i = Some previous ∧
        h !! S i = Some (add_previous add previous current).
Proof.
  destruct rows as [|row0 rows'] eqn:Hrows.
  { exists []. repeat split; try done. }
  rewrite <- Hrows. set (n := length rows).
  assert (n = S (length rows')) as Hn by (unfold n; by rewrite Hrows).
  destruct (for_seqZ_inv
    (λ k h,
       length h = n ∧ point_day <$> h = point_day <$> rows ∧
       (∀ j : nat, k ≤ Z.of_nat j → h !! j = rows !! j) ∧
       h !! 0%nat = rows !! 0%nat ∧
       ∀ (j : nat) current,
         Z.of_nat (S j) < k → rows !! S j = Some current →
         ∃ previous,
           h !! j = Some previous ∧
           h !! S j = Some (add_previous add previous current))
    1 (n - 1) (accumulate add) rows) as (h & Hrun & Hlen & Hdays & _ & H0 & Hacc).
  - repeat split; try done. intros; lia.
  - intros k h Hk (Hlen & Hdays & Hrest & H0 & Hacc).
    destruct (lookup_lt_is_Some_2 h (Z.to_nat (k - 1))) as [previous Hprev];
      [lia|].
    destruct (lookup_lt_is_Some_2 h (Z.to_nat k)) as [current Hcur]; [lia|].
    exists (<[Z.to_nat k := add_previous add previous current]> h). split.
    { assert (Z.to_nat k < length h)%nat as Hklt by lia.
      assert (Z.to_nat k ≠ Z.to_nat (k - 1)) as Hkne by lia.
      unfold accumulate, Transport.point in *.
      rewrite !getitem_nonneg, Hprev, Hcur by lia. simpl.
      rewrite setitem_nonneg by (unfold len; lia). simpl.
      rewrite (getitem_nonneg _ k) by lia.
      rewrite list_lookup_insert_eq by done. simpl.
      rewrite (getitem_nonneg _ (k - 1)) by lia.
      rewrite list_lookup_insert_ne by done. rewrite Hprev. simpl.
      rewrite setitem_nonneg by (unfold len; rewrite length_insert; lia).
      by rewrite list_insert_insert_eq. }
    split; [by rewrite length_insert|]. split; [|split; [|split]].
    + rewrite list_fmap_insert, <- Hdays. apply list_insert_id.
      rewrite list_lookup_fmap, Hcur. by destruct current as [[? ?] ?].
    + intros j Hj. rewrite list_lookup_insert_ne by lia. apply Hrest. lia.
    + rewrite list_lookup_insert_ne by lia. done.
    + intros j cur Hj Hcur'. destruct (decide (S j = Z.to_nat k)) as [Heq|Hne].
      * exists previous. rewrite list_lookup_insert_ne by lia.
        rewrite Heq, list_lookup_insert_eq by lia.
        replace j with (Z.to_nat (k - 1)) by lia. split; [done|].
        rewrite Hrest in Hcur by lia. rewrite <- Heq, Hcur' in Hcur.
        by injection Hcur as ->.
      * destruct (Hacc j cur) as (prev & ? & ?); [lia|done|].
        exists prev. by rewrite !list_lookup_insert_ne by lia.
  - exists h. split.
    { unfold range_from, len. fold n.
      by replace (Z.of_nat n - 1) with (Z.of_nat (n - 1)) by lia. }
    split; [done|]. split; [done|]. split; [done|].
    intros i current Hi. apply Hacc; [|done].
    apply lookup_lt_Some in Hi. fold n in Hi. lia.
Qed.

Lemma booked_on_nil d ps :
  booked_on d ps = [] ↔ ¬ ∃ p, p ∈ ps ∧ sale_day_x p = d.
Proof.
  unfold booked_on. split.
  - intros Hnil (p & Hp & Hd).
    assert (p ∈ filter (λ p, sale_day_x p = d) ps) as Hin
      by by apply list_elem_of_filter.
    rewrite Hnil in Hin. by apply elem_of_nil in Hin.
  - intros Hno. destruct (filter _ ps) as [|p l] eqn:Hfilter; [done|].
    exfalso. apply Hno. exists p.
    assert (p ∈ filter (λ p, sale_day_x p = d) ps) as Hin
      by (rewrite Hfilter; by left).
    apply list_elem_of_filter in Hin as [? ?]. done.
Qed.

Lemma day_totals_Some d ps v :
  day_totals add zero d ps = Some v ↔
  (∃ p, p ∈ ps ∧ sale_day_x p = d) ∧
  v = (bookings_on d ps, revenue_on add zero d ps).
Proof.
  unfold day_totals. pose proof (booked_on_nil d ps) as Hnil.
  destruct (booked_on d ps) as [|q qs] eqn:Hb.
  - split; [done|]. intros [Hex _]. by apply Hnil in Hex.
  - split.
    + intros [= <-]. split; [|done]. exists q.
      assert (q ∈ booked_on d ps) as Hq by (rewrite Hb; by left).
      apply list_elem_of_filter in Hq as [? ?]. done.
    + by intros [_ ->].
Qed.

Lemma OD_history_spec (od : OD number) :
  ∃ h,
    OD_history add zero less od = Ok h ∧
    StronglySorted Z.lt (point_day <$> h) ∧
    (∀ d, d ∈ point_day <$> h ↔
          ∃ p, p ∈ od_passengers od ∧ sale_day_x p = d) ∧
    (∀ row,
       h !! 0%nat = Some row →
       point_bookings row = bookings_on (point_day row) (od_passengers od) ∧
       point_revenue row
       = revenue_on add zero (point_day row) (od_passengers od)) ∧
    (∀ i previous row,
       h !! i = Some previous → h !! S i = Some row →
       point_bookings row
       = bookings_on (point_day row) (od_passengers od)
         + point_bookings previous ∧
       point_revenue row
       = add (revenue_on add zero (point_day row) (od_passengers od))
             (point_revenue previous)).
Proof.
  unfold OD_history. set (ps := od_passengers od).
  destruct (history_map_spec ps) as [Hnd Hget].
  set (hm := foldl (history_add add zero) [] ps) in *.
  set (rows0 := (λ '(sale_day_x, info), (sale_day_x, info.1, info.2)) <$> hm).
  assert (point_day <$> rows0 = hm.*1) as Hdays0.
  { unfold rows0. rewrite <- list_fmap_compose. apply list_fmap_ext.
    by intros i [d [b r]] _. }
  assert (∀ row, row ∈ rows0 ↔
            (∃ p, p ∈ ps ∧ sale_day_x p = point_day row) ∧
            point_bookings row = bookings_on (point_day row) ps ∧
            point_revenue row = revenue_on add zero (point_day row) ps)
    as Hrows0.
  { intros [[d b] r]. unfold point_day, point_bookings, point_revenue. simpl.
    transitivity ((d, (b, r)) ∈ hm).
    - unfold rows0. rewrite list_elem_of_fmap. split.
      + by intros ([d' [b' r']] & [= -> -> ->] & Hin).
      + intros Hin. by exists (d, (b, r)).
    - rewrite <- dict_get_NoDup by done. rewrite Hget, day_totals_Some.
      split.
      + by intros (? & [= -> ->]).
      + by intros (? & -> & ->). }
  destruct (sorted_spec rows0) as [Hsorted Hperm]; [by rewrite Hdays0|].
  set (rows := sorted (point_lt less) rows0) in *.
  destruct (accumulate_loop rows) as (h & Hrun & Hlen & Hdays & H0 & Hacc).
  exists h. split; [done|]. split; [|split; [|split]].
  - rewrite Hdays. eapply StronglySorted_fmap; [|exact Hsorted]. done.
  - intros d. rewrite Hdays, Hperm. rewrite list_elem_of_fmap. split.
    + intros (row & -> & Hrow). by apply Hrows0 in Hrow as [? _].
    + intros Hex.
      exists (d, bookings_on d ps, revenue_on add zero d ps).
      split; [done|]. apply Hrows0. by repeat split.
  - intros row Hrow. rewrite H0 in Hrow.
    apply list_elem_of_lookup_2 in Hrow. rewrite Hperm in Hrow.
    by apply Hrows0 in Hrow as [_ ?].
  - intros i previous row Hprev Hrow.
    destruct (lookup_lt_is_Some_2 rows (S i)) as [current Hcur].
    { rewrite <- Hlen. by eapply lookup_lt_Some. }
    destruct (Hacc i current Hcur) as (previous' & Hprev' & Hrow').
    simplify_eq.
    apply list_elem_of_lookup_2 in Hcur. rewrite Hperm in Hcur.
    apply Hrows0 in Hcur as (_ & Hb & Hr).
    unfold add_previous, point_day, point_bookings, point_revenue in *.
    simpl. by rewrite Hb, Hr.
Qed.

End history.

(** C4. [history()] returns one row per day on which a passenger of the OD
    booked, by ascending day and without a row for any other day; the first
    row holds its day's number of bookings and revenue, and every later row
    holds its day's number of bookings and revenue added to those of the row
    before it.  In the example of three stations the history of the OD from
    ply to lpd is [(-30,1,20), (-25,2,50), (-20,4,130)]. *)
Theorem OD_history_correct :
  (∀ (number : Type) `(EqDecision number) (add : number → number → number)
     (zero : number) (less : number → number → bool) (od : OD number),
     ∃ h,
       OD_history add zero less od = Ok h ∧
       StronglySorted Z.lt (point_day <$> h) ∧
       (∀ d, d ∈ point_day <$> h ↔
             ∃ p, p ∈ od_passengers od ∧ sale_day_x p = d) ∧
       (∀ row,
          h !! 0%nat = Some row →
          point_bookings row = bookings_on (point_day row) (od_passengers od) ∧
          point_revenue row
          = revenue_on add zero (point_day row) (od_passengers od)) ∧
       (∀ i previous row,
          h !! i = Some previous → h !! S i = Some row →
          point_bookings row
          = bookings_on (point_day row) (od_passengers od)
            + point_bookings previous ∧
          point_revenue row
          = add (revenue_on add zero (point_day row) (od_passengers od))
                (point_revenue previous))) ∧
  (od_ply_lpd ←
     next (filter (λ od, od_origin od = Example.ply ∧
                         od_destination od = Example.lpd)
                  (ods Example.service));
   OD_history Z.add 0 Z.ltb od_ply_lpd)
  = Ok [(-30, 1, 20); (-25, 2, 50); (-20, 4, 130)].
Proof.
  split; [|done]. intros. apply OD_history_spec.
Qed.

(** *** The theorems on the worked example *)

Lemma wf_legs_example : wf_legs Example.service Example.itinerary.
Proof.
  split; [|split].
  - by_computation.
  - simpl. lia.
  - reflexivity.
Defined.

Lemma wf_service_example : wf_service Example.service Example.itinerary.
Proof.
  split; [exact wf_legs_example|]. apply Forall_forall.
  by_computation.
Defined.

Lemma manifest_located :
  ∀ p, p ∈ Example.manifest →
       ∃ od, od ∈ ods Example.service0 ∧ od_matches p od.
Proof.
  intros p Hp. apply located_is_Some. revert p Hp. apply Forall_forall.
  by_computation.
Defined.

Lemma reversed_not_located :
  ∀ od, od ∈ ods Example.service0 → ¬ od_matches Example.reversed od.
Proof.
  apply Forall_forall. by_computation.
Defined.

Lemma load_itinerary_roundtrip_witness :
  let s : Service Z :=
    (load_itinerary (new_Service "7601" 7) Example.itinerary 8%nat).1 in
  length (legs s) = 2%nat ∧
  leg_ends <$> legs s = chain Example.itinerary ∧
  length (ods s) = 3%nat ∧
  od_ends <$> ods s = combinations2 Example.itinerary ∧
  Service_itinerary s = Ok Example.itinerary ∧
  ∀ legs', legs' ≡ₚ legs s →
           Service_itinerary (set_legs s legs') = Ok Example.itinerary.
Proof.
  apply (load_itinerary_roundtrip (number := Z) "7601" 7 Example.itinerary
           8%nat).
  - by_computation.
  - simpl. lia.
Defined.

Lemma OD_history_correct_witness :
  ∃ h,
    OD_history Z.add 0 Z.ltb (od_extend Example.od_ply_nce Example.manifest)
    = Ok h ∧
    StronglySorted Z.lt (point_day <$> h) ∧
    (∀ d, d ∈ point_day <$> h ↔
          ∃ p, p ∈ Example.manifest ∧ sale_day_x p = d) ∧
    (∀ row,
       h !! 0%nat = Some row →
       point_bookings row = bookings_on (point_day row) Example.manifest ∧
       point_revenue row
       = revenue_on Z.add 0 (point_day row) Example.manifest) ∧
    (∀ i previous row,
       h !! i = Some previous → h !! S i = Some row →
       point_bookings row
       = bookings_on (point_day row) Example.manifest
         + point_bookings previous ∧
       point_revenue row
       = revenue_on Z.add 0 (point_day row) Example.manifest
         + point_revenue previous).
Proof.
  exact (proj1 OD_history_correct Z _ Z.add 0 Z.ltb
           (od_extend Example.od_ply_nce Example.manifest)).
Defined.

Lemma load_passenger_manifest_unmatched_witness :
  is_LookupError StopIteration = false ∧
  ∃ s' pre p rest,
    Example.manifest ++ [Example.reversed; Example.late] = pre ++ p :: rest ∧
    (∀ q, q ∈ pre → ∃ od, od ∈ ods Example.service0 ∧ od_matches q od) ∧
    (∀ od, od ∈ ods Example.service0 → ¬ od_matches p od) ∧
    load_passenger_manifest Example.service0
      (Example.manifest ++ [Example.reversed; Example.late])
    = (s', Raise StopIteration) ∧
    load_passenger_manifest Example.service0 pre = (s', Ok ()).
Proof.
  apply (load_passenger_manifest_unmatched Example.service0
           (Example.manifest ++ [Example.reversed; Example.late])).
  exists Example.reversed. split; [|exact reversed_not_located].
  by_computation.
Defined.

(** C5 as stated fails: a manifest with a booking in the reverse direction
    makes [load_passenger_manifest] raise [StopIteration], and no
    [LookupError]. *)
Lemma load_passenger_manifest_LookupError_counterexample :
  (∃ p, p ∈ [Example.reversed] ∧
        ∀ od, od ∈ ods Example.service0 → ¬ od_matches p od) ∧
  load_passenger_manifest Example.service0 [Example.reversed]
  = (Example.service0, Raise StopIteration) ∧
  ¬ ∃ s' e,
      load_passenger_manifest Example.service0 [Example.reversed]
      = (s', Raise e) ∧
      is_LookupError e = true.
Proof.
  split; [|split].
  - exists Example.reversed. split; [by left|exact reversed_not_located].
  - reflexivity.
  - intros (s' & e & Hrun & He). vm_compute in Hrun.
    injection Hrun as _ <-. discriminate He.
Qed.

Lemma OD_legs_slice_witness :
  Service_itinerary Example.service = Ok Example.itinerary ∧
  index Example.itinerary Example.ply = Ok 0 ∧
  index Example.itinerary Example.msc = Ok 2 ∧
  OD_legs Example.service (new_OD 11%nat Example.ply Example.msc)
  = Ok (slice (legs Example.service) 0 2) ∧
  slice (legs Example.service) 0 2
  = take (2 - 0) (drop 0 (legs Example.service)) ∧
  length (slice (legs Example.service) 0 2) = (2 - 0)%nat.
Proof.
  apply (OD_legs_slice Example.service Example.itinerary
           (new_OD 11%nat Example.ply Example.msc) 0%nat 2%nat).
  - exact wf_legs_example.
  - reflexivity.
  - reflexivity.
  - lia.
Defined.

Lemma OD_legs_absent_witness :
  OD_legs Example.service Example.od_ply_nce = Raise ValueError ∧
  is_LookupError ValueError = false.
Proof.
  apply (OD_legs_absent Example.service Example.itinerary Example.od_ply_nce).
  - exact wf_legs_example.
  - right. by_computation.
Defined.

(** C7 as stated fails: [OD.legs] of an OD towards a station outside the
    itinerary raises [ValueError], and no [LookupError]. *)
Lemma OD_legs_LookupError_counterexample :
  wf_service Example.service Example.itinerary ∧
  (od_destination Example.od_ply_nce ∉ Example.itinerary) ∧
  OD_legs Example.service Example.od_ply_nce = Raise ValueError ∧
  ¬ ∃ e, OD_legs Example.service Example.od_ply_nce = Raise e ∧
         is_LookupError e = true.
Proof.
  split; [exact wf_service_example|]. split; [|split].
  - by_computation.
  - reflexivity.
  - intros (e & Hrun & He). vm_compute in Hrun.
    injection Hrun as <-. discriminate He.
Qed.

Lemma load_passenger_manifest_allocates_witness :
  ∃ s',
    load_passenger_manifest Example.service0 Example.manifest = (s', Ok ()) ∧
    legs s' = legs Example.service0 ∧
    length (ods s') = length (ods Example.service0) ∧
    (∀ p, p ∈ Example.manifest →
       ∃ i od, located (ods Example.service0) p = Some i ∧
               ods Example.service0 !! i = Some od ∧ od_matches p od) ∧
    ∀ i od, ods Example.service0 !! i = Some od →
      ∃ od', ods s' !! i = Some od' ∧
        od_id od' = od_id od ∧ od_ends od' = od_ends od ∧
        od_passengers od'
        = od_passengers od
          ++ filter (λ p, located (ods Example.service0) p = Some i)
               Example.manifest ∧
        ((∀ j od2, ods Example.service0 !! j = Some od2 →
                   od_ends od2 = od_ends od → j = i) →
         od_passengers od'
         = od_passengers od ++ filter (λ p, od_matches p od) Example.manifest).
Proof.
  apply (load_passenger_manifest_allocates Example.service0 Example.manifest).
  exact manifest_located.
Defined.

Lemma Leg_passengers_correct_witness :
  ∃ l, Leg_passengers Example.service (new_Leg 8%nat Example.ply Example.lpd)
       = Ok l ∧
       NoDup l ∧
       (∀ p, p ∈ l ↔
             ∃ od lg, od ∈ ods Example.service ∧
                      OD_legs Example.service od = Ok lg ∧
                      new_Leg 8%nat Example.ply Example.lpd ∈ lg ∧
                      p ∈ od_passengers od) ∧
       (leg_ends <$> legs Example.service = chain Example.itinerary →
        ∀ p, p ∈ l ↔
             ∃ od (a b : nat),
               od ∈ ods Example.service ∧
               Example.itinerary !! a = Some (od_origin od) ∧
               Example.itinerary !! b = Some (od_destination od) ∧
               (a ≤ 0 < b)%nat ∧
               p ∈ od_passengers od).
Proof.
  apply (proj1 Leg_passengers_correct Z _ Example.service Example.itinerary
           0%nat (new_Leg 8%nat Example.ply Example.lpd)).
  - exact wf_service_example.
  - reflexivity.
Defined.

(** C9, on the code.  [OD.legs] cuts [service.legs], which holds the legs in
    the order they were loaded, at the positions of the OD's stations in the
    itinerary.  On the service [out_of_order], whose legs form the chain
    ply-lpd-msc (its itinerary is found) but were loaded from Lyon onwards
    first, the legs of the OD from ply to lpd are the leg from lpd to msc;
    [Leg.passengers] of the leg from lpd to msc returns the 5 passengers of
    the manifest, among them one who booked from ply to lpd and whose trip
    does not go over that leg, and [Leg.passengers] of the leg from ply to
    lpd returns 1 passenger.  In itinerary order the same legs have 1 and 5
    passengers. *)
Theorem Leg_passengers_out_of_order :
  let leg_lpd_msc := new_Leg 33%nat Example.lpd Example.msc in
  let leg_ply_lpd := new_Leg 34%nat Example.ply Example.lpd in
  legs Example.out_of_order = [leg_lpd_msc; leg_ply_lpd] ∧
  wf_service Example.out_of_order Example.itinerary ∧
  Service_itinerary Example.out_of_order = Ok Example.itinerary ∧
  OD_legs Example.out_of_order (new_OD 35%nat Example.ply Example.lpd)
  = Ok [leg_lpd_msc] ∧
  (∃ l p,
     Leg_passengers Example.out_of_order leg_lpd_msc = Ok l ∧
     length l = 5%nat ∧
     p ∈ l ∧
     passenger_origin p = Example.ply ∧
     passenger_destination p = Example.lpd ∧
     ¬ crosses Example.itinerary leg_lpd_msc p) ∧
  (∃ l, Leg_passengers Example.out_of_order leg_ply_lpd = Ok l ∧
        length l = 1%nat).
Proof.
  intros leg_lpd_msc leg_ply_lpd.
  split; [reflexivity|]. split; [|split; [reflexivity|split; [reflexivity|]]].
  - split; [split; [by_computation|split; [simpl; lia|]]|].
    + apply Permutation_swap.
    + apply Forall_forall. by_computation.
  - split.
    + eexists _, _. split; [by vm_compute|]. split; [reflexivity|].
      split; [by left|]. split; [reflexivity|]. split; [reflexivity|].
      intros (a & b & k & Ha & Hb & Hk & _ & Hakb).
      destruct b as [|[|[|b]]]; try done.
      destruct k as [|[|[|k]]]; try done. lia.
    + eexists. split; [by vm_compute|]. reflexivity.
Qed.

Lemma load_passenger_manifest_not_atomic_witness :
  ∃ s',
    load_passenger_manifest Example.service0
      (Example.manifest ++ Example.reversed :: [Example.late])
    = (s', Raise StopIteration) ∧
    load_passenger_manifest Example.service0 Example.manifest = (s', Ok ()) ∧
    ∀ i od, ods Example.service0 !! i = Some od →
      ∃ od', ods s' !! i = Some od' ∧
        od_passengers od'
        = od_passengers od
          ++ filter (λ q, located (ods Example.service0) q = Some i)
               Example.manifest.
Proof.
  apply (load_passenger_manifest_not_atomic Example.service0 Example.manifest
           Example.reversed [Example.late]).
  - exact manifest_located.
  - exact reversed_not_located.
Defined.

End TransportProofs.

(** ** Further properties of the path finder *)

Module PathFinderProperties.
Import Python PythonProofs PathFinder PathFinderSpec PathFinderProofs.

(** What a run of [max_path_finder] on a rectangular matrix of arbitrary
    integers goes through: the filled table and the cells of the backward
    walk. *)
Lemma max_path_finder_run (grid : list (list Z)) (M N : nat) :
  (0 < M)%nat → (0 < N)%nat →
  rectangular grid M N →
  ∃ dp w,
    fill_inv grid M N (Z.of_nat M) 0 dp ∧
    max_path_finder grid
    = Ok (Int (val dp (Z.of_nat M - 1, Z.of_nat N - 1)), reverse w) ∧
    head w = Some (Z.of_nat M - 1, Z.of_nat N - 1) ∧
    last w = Some (0, 0) ∧
    steps (reverse w) ∧
    path_sum grid w = val dp (Z.of_nat M - 1, Z.of_nat N - 1) ∧
    length w = (M + N - 1)%nat.
Proof.
  intros HM HN Hgrid.
  assert (inside M N (0, 0)) as Hin0 by (split; simpl; lia).
  assert (inside M N (Z.of_nat M - 1, Z.of_nat N - 1)) as Hinlast
    by (split; simpl; lia).
  destruct (tget_inside grid M N (0, 0) Hgrid Hin0) as [g00 Hg00].
  pose proof Hg00 as (_ & _ & grid0 & Hgrid0 & _)%tget_Some. simpl in Hgrid0.
  pose proof Hgrid as [HlenM Hrows].
  assert (length grid0 = N) as HlenN.
  { by eapply (proj1 (Forall_lookup _ _) Hrows). }
  destruct (setitem2_inside (replicate M (replicate N (Int 0))) M N (0, 0)
              (Int g00) (rectangular_replicate _ _ _) Hin0)
    as (dp0 & Hset & _ & _). simpl in Hset.
  pose proof (fill_inv_init grid M N dp0 g00 Hin0 Hg00 Hset) as Hinv0.
  destruct (fill_table_inv grid M N dp0 Hgrid Hinv0) as (dp & Hfill & Hinv).
  pose proof (fi_shape _ _ _ _ _ _ Hinv) as [HdpM Hdprows].
  destruct (lookup_lt_is_Some_2 dp 0%nat) as [dprow0 Hdprow0]; [lia|].
  assert (length dprow0 = N) as HdpN.
  { by eapply (proj1 (Forall_lookup _ _) Hdprows). }
  destruct (path_finder_loop_filled grid M N dp Hinv (M + N)
              (Z.of_nat M - 1) (Z.of_nat N - 1) [] Hinlast)
    as (w & Hloop & Hhead & Hlast & Hsteps & Hsum & Hlen); [lia|].
  exists dp, w.
  split; [done|].
  split; [|split; [done|split; [done|split; [done|split; [done|lia]]]]].
  unfold max_path_finder. rewrite getitem_nonneg, Hgrid0 by done. simpl.
  rewrite (getitem2_tget grid 0 0 g00 Hg00). simpl.
  rewrite HlenM, HlenN, Hset. simpl.
  unfold len. rewrite HlenM, HlenN, Hfill. simpl.
  unfold path_finder. rewrite getitem_nonneg by done.
  change (Z.to_nat 0) with 0%nat. rewrite Hdprow0. simpl.
  unfold len. rewrite HdpM, HdpN, Hloop. simpl.
  by rewrite (getitem2_filled grid M N dp Hinv _ _ Hinlast).
Qed.

Lemma steps_le_head p a :
  steps p → head p = Some a →
  ∀ b, b ∈ p → a.1 ≤ b.1 ∧ a.2 ≤ b.2.
Proof.
  revert a. induction p as [|x q IH]; intros a Hs Hh b Hb; [by inversion Hb|].
  simpl in Hh. injection Hh as ->.
  apply elem_of_cons in Hb as [->|Hb]; [lia|].
  destruct q as [|y q']; [by inversion Hb|].
  destruct Hs as [Hstep Hs].
  destruct (IH y Hs eq_refl b Hb).
  destruct Hstep as [->| ->]; simpl in *; lia.
Qed.

Lemma steps_le_last p c :
  steps p → last p = Some c →
  ∀ b, b ∈ p → b.1 ≤ c.1 ∧ b.2 ≤ c.2.
Proof.
  induction p as [|x q IH]; intros Hs Hl b Hb; [by inversion Hb|].
  destruct q as [|y q'].
  - simpl in Hl. injection Hl as ->.
    apply list_elem_of_singleton in Hb as ->. lia.
  - destruct Hs as [Hstep Hs]. change (last (y :: q') = Some c) in Hl.
    apply elem_of_cons in Hb as [->|Hb]; [|by apply IH].
    destruct (IH Hs Hl y) as [? ?]; [left|].
    destruct Hstep as [->| ->]; simpl in *; lia.
Qed.

Lemma monotone_path_inside M N p :
  monotone_path M N p → ∀ b, b ∈ p → inside M N b.
Proof.
  intros (Hh & Hl & Hs) b Hb.
  destruct (steps_le_head p _ Hs Hh b Hb).
  destruct (steps_le_last p _ Hs Hl b Hb).
  split; simpl in *; lia.
Qed.

Lemma path_sum_le grid grid' p :
  (∀ b, b ∈ p → cell grid b ≤ cell grid' b) →
  path_sum grid p ≤ path_sum grid' p.
Proof.
  induction p as [|a p IH]; intros Hle; simpl; [done|].
  pose proof (Hle a ltac:(left)).
  assert (path_sum grid p ≤ path_sum grid' p).
  { apply IH. intros b Hb. apply Hle. by right. }
  unfold path_sum in *. lia.
Qed.

Lemma path_sum_constant grid p value :
  (∀ b, b ∈ p → cell grid b = value) →
  path_sum grid p = value * Z.of_nat (length p).
Proof.
  induction p as [|a p IH]; intros Hc; simpl; [lia|].
  pose proof (Hc a ltac:(left)).
  assert (path_sum grid p = value * Z.of_nat (length p)).
  { apply IH. intros b Hb. apply Hc. by right. }
  unfold path_sum in *. lia.
Qed.

(** X6. Raising entries never lowers the result: if two rectangular
    matrices of the same shape satisfy [grid[r][c] <= grid'[r][c]] in every
    cell, [max_path_finder] returns on both, and the sum it returns for
    [grid] is at most the sum it returns for [grid']. *)
Theorem max_path_finder_monotone (grid grid' : list (list Z)) (M N : nat) :
  (0 < M)%nat → (0 < N)%nat →
  rectangular grid M N → rectangular grid' M N →
  (∀ c, inside M N c → cell grid c ≤ cell grid' c) →
  ∃ v v' path path',
    max_path_finder grid = Ok (Int v, path) ∧
    max_path_finder grid' = Ok (Int v', path') ∧
    v ≤ v'.
Proof.
  intros HM HN Hg Hg' Hle.
  destruct (max_path_finder_run grid M N HM HN Hg)
    as (dp & w & Hinv & Hr & Hhead & Hlast & Hsteps & Hsum & Hlen).
  destruct (max_path_finder_run grid' M N HM HN Hg')
    as (dp' & w' & Hinv' & Hr' & _).
  eexists _, _, _, _. split; [exact Hr|]. split; [exact Hr'|].
  assert (monotone_path M N (reverse w)) as Hmono.
  { split; [by rewrite head_reverse|]. split; [by rewrite last_reverse|done]. }
  rewrite <- Hsum, <- path_sum_reverse.
  etransitivity.
  - apply (path_sum_le grid grid'). intros b Hb. apply Hle.
    by apply (monotone_path_inside M N (reverse w)).
  - destruct Hmono as (H1 & H2 & H3).
    apply (path_sum_upper_bound grid' M N dp' Hinv' _ _ H3 H1 H2).
    split; simpl; lia.
Qed.

(** X7. On a rectangular [M]x[N] matrix whose entries all equal [value]
    (of either sign), [max_path_finder] returns the sum
    [value * (M + N - 1)]: every path has [M + N - 1] cells. *)
Theorem max_path_finder_constant (grid : list (list Z)) (M N : nat) value :
  (0 < M)%nat → (0 < N)%nat →
  rectangular grid M N →
  Forall (Forall (λ x, x = value)) grid →
  ∃ path,
    max_path_finder grid
    = Ok (Int (value * (Z.of_nat M + Z.of_nat N - 1)), path).
Proof.
  intros HM HN Hgrid Hc.
  destruct (max_path_finder_run grid M N HM HN Hgrid)
    as (dp & w & Hinv & Hr & Hhead & Hlast & Hsteps & Hsum & Hlen).
  exists (reverse w). rewrite Hr. do 3 f_equal.
  rewrite <- Hsum, <- path_sum_reverse.
  rewrite (path_sum_constant grid (reverse w) value).
  - rewrite length_reverse. lia.
  - intros b Hb.
    assert (inside M N b) as Hin.
    { apply (monotone_path_inside M N (reverse w)); [|done].
      split; [by rewrite head_reverse|].
      split; [by rewrite last_reverse|done]. }
    destruct (tget_inside grid M N b Hgrid Hin) as [x Hx].
    unfold cell. rewrite Hx. simpl.
    apply tget_Some in Hx as (_ & _ & r & Hr1 & Hr2).
    pose proof (proj1 (Forall_lookup _ _) Hc _ _ Hr1) as Hrow.
    by apply (proj1 (Forall_lookup _ _) Hrow _ _ Hr2).
Qed.


Lemma path_finder_step_rect (dp : table) M N r c :
  rectangular dp M N → inside M N (r, c) →
  ∃ r' c', path_finder_step dp r c = Ok (r', c') ∧
    is_step (r', c') (r, c) ∧
    ((r, c) ≠ (0, 0) → inside M N (r', c')) ∧
    ((r, c) = (0, 0) → c' = -1).
Proof.
  intros Hdp [Hr Hc]. simpl in Hr, Hc.
  unfold path_finder_step, moves_up, is_step, inside. simpl.
  destruct (Z.ltb_spec 0 r) as [Hr0|Hr0].
  - destruct (Z.eqb_spec c 0) as [->|Hc0].
    + exists (r - 1), 0. simpl. repeat split; try lia; try done.
      * left. f_equal. lia.
      * intros [= ]. lia.
    + destruct (tget_inside dp M N (r - 1, c) Hdp) as [up Hup];
        [split; simpl; lia|].
      destruct (tget_inside dp M N (r, c - 1) Hdp) as [left Hleft];
        [split; simpl; lia|].
      rewrite (getitem2_tget dp (r - 1) c up Hup),
        (getitem2_tget dp r (c - 1) left Hleft). simpl.
      destruct (num_ge up left).
      * exists (r - 1), c. repeat split; try lia.
        -- left. f_equal. lia.
        -- intros [= ]. lia.
      * exists r, (c - 1). repeat split; try lia.
        -- right. f_equal. lia.
        -- intros [= ]. lia.
  - assert (r = 0) as -> by lia. simpl in *. exists 0, (c - 1).
    simpl. repeat split; try lia.
    + right. f_equal. lia.
    + destruct (decide (c = 0)) as [->|]; [done|lia].
    + intros [= ?]. lia.
Qed.

Lemma path_finder_loop_rect (dp : table) M N fuel r c acc :
  rectangular dp M N →
  inside M N (r, c) → r + c + 2 ≤ Z.of_nat fuel →
  ∃ w, path_finder_loop fuel dp r c acc = Ok (acc ++ w) ∧
       head w = Some (r, c) ∧ last w = Some (0, 0) ∧
       steps (reverse w) ∧
       Z.of_nat (length w) = r + c + 1.
Proof.
  intros Hdp. revert r c acc.
  induction fuel as [|fuel IH]; intros r c acc Hin Hfuel.
  { destruct Hin; simpl in *; lia. }
  destruct (path_finder_step_rect dp M N r c Hdp Hin)
    as (r' & c' & Hstep & His & Hnext & Hstop).
  pose proof Hin as [Hr Hc]. simpl in Hr, Hc. simpl.
  destruct (Z.leb_spec 0 r); [|lia]. destruct (Z.leb_spec 0 c); [|lia].
  simpl. rewrite Hstep. simpl.
  destruct (decide ((r, c) = (0, 0))) as [[= -> ->]|Hne].
  - rewrite (Hstop eq_refl). exists [(0, 0)].
    destruct fuel as [|fuel]; [lia|]. simpl.
    destruct (Z.leb_spec 0 r'); simpl; repeat split; done.
  - destruct (IH r' c' (acc ++ [(r, c)]) (Hnext Hne)) as
      (w & Hrun & Hhead & Hlast & Hsteps & Hlen).
    { destruct His as [[= -> ->]|[= -> ->]]; simpl in *; lia. }
    exists ((r, c) :: w). rewrite Hrun, <- app_assoc. simpl.
    split; [done|]. split; [done|]. split; [|split].
    + destruct w; [done|]. by rewrite last_cons_cons.
    + rewrite reverse_cons. apply steps_snoc. split; [done|].
      intros a. rewrite last_reverse, Hhead. by intros [= <-].
    + destruct His as [[= -> ->]|[= -> ->]]; simpl in *; lia.
Qed.

(** X5. [path_finder] on its own: for every rectangular [M]x[N] table,
    whatever it holds ([float("-inf")] included), the loop ends and the
    list returned is a path from [(0, 0)] to [(M-1, N-1)] that moves one cell
    right or down at each step, without repetition, of [M + N - 1] cells. *)
Theorem path_finder_rectangular (dp : table) (M N : nat) :
  (0 < M)%nat → (0 < N)%nat →
  rectangular dp M N →
  ∃ path,
    path_finder dp = Ok path ∧
    monotone_path M N path ∧
    NoDup path ∧
    length path = (M + N - 1)%nat.
Proof.
  intros HM HN Hdp. pose proof Hdp as [HdpM Hdprows].
  destruct (lookup_lt_is_Some_2 dp 0%nat) as [dprow0 Hdprow0]; [lia|].
  assert (length dprow0 = N) as HdpN.
  { by eapply (proj1 (Forall_lookup _ _) Hdprows). }
  destruct (path_finder_loop_rect dp M N (M + N) (Z.of_nat M - 1)
              (Z.of_nat N - 1) [] Hdp)
    as (w & Hloop & Hhead & Hlast & Hsteps & Hlen);
    [split; simpl; lia|lia|].
  exists (reverse w). split; [|split; [|split]].
  - unfold path_finder. rewrite getitem_nonneg by done.
    change (Z.to_nat 0) with 0%nat. rewrite Hdprow0. simpl.
    unfold len. rewrite HdpM, HdpN, Hloop. done.
  - split; [by rewrite head_reverse|]. split; [by rewrite last_reverse|done].
  - by apply steps_NoDup.
  - rewrite length_reverse. lia.
Qed.

(** *** Failures *)

Lemma fails_only_with_bind {A B} e0 (m : result A) (f : A → result B) :
  fails_only_with e0 m → (∀ a, fails_only_with e0 (f a)) →
  fails_only_with e0 (m ≫= f).
Proof. destruct m; simpl; auto. Qed.

Lemma getitem_fails {A} (l : list A) i :
  fails_only_with IndexError (getitem l i).
Proof.
  unfold getitem. destruct (_ && _); [|done]. by destruct (l !! _).
Qed.

Lemma setitem_fails {A} (l : list A) i x :
  fails_only_with IndexError (setitem l i x).
Proof. unfold setitem. by destruct (_ && _). Qed.

Lemma getitem2_fails {A} (t : list (list A)) i j :
  fails_only_with IndexError (getitem2 t i j).
Proof.
  apply fails_only_with_bind; [apply getitem_fails|]. intros.
  apply getitem_fails.
Qed.

Lemma setitem2_fails {A} (t : list (list A)) i j x :
  fails_only_with IndexError (setitem2 t i j x).
Proof.
  apply fails_only_with_bind; [apply getitem_fails|]. intros.
  apply fails_only_with_bind; [apply setitem_fails|]. intros.
  apply setitem_fails.
Qed.

Lemma for_each_fails {A St} e0 (l : list A) (body : A → St → result St) s :
  (∀ x s, fails_only_with e0 (body x s)) →
  fails_only_with e0 (for_each l body s).
Proof.
  intros Hbody. revert s. induction l as [|x l IH]; intros s; simpl; [done|].
  by apply fails_only_with_bind.
Qed.

Lemma fill_cell_fails grid row col dp :
  fails_only_with IndexError (fill_cell grid row col dp).
Proof.
  unfold fill_cell. destruct (row + col =? 0); [done|].
  apply fails_only_with_bind.
  { destruct (0 <? row); [|done].
    apply fails_only_with_bind; [apply getitem2_fails|done]. }
  intros ans. apply fails_only_with_bind.
  { destruct (0 <? col); [|done].
    apply fails_only_with_bind; [apply getitem2_fails|done]. }
  intros ans'. apply fails_only_with_bind; [apply getitem2_fails|].
  intros g. apply setitem2_fails.
Qed.

Lemma path_finder_loop_fails fuel dp row col path e :
  path_finder_loop fuel dp row col path = Raise e → e = IndexError.
Proof.
  revert row col path.
  induction fuel as [|fuel IH]; intros row col path; [done|].
  simpl. destruct (_ && _); [|done].
  unfold path_finder_step, moves_up.
  destruct (0 <? row); simpl; [|by apply IH].
  destruct (col =? 0); simpl; [by apply IH|].
  pose proof (getitem2_fails dp (row - 1) col) as Hup.
  destruct (getitem2 dp (row - 1) col) as [up| |]; simpl in *;
    [|congruence|done].
  pose proof (getitem2_fails dp row (col - 1)) as Hleft.
  destruct (getitem2 dp row (col - 1)) as [left| |]; simpl in *;
    [|congruence|done].
  destruct (num_ge up left); by apply IH.
Qed.

Lemma path_finder_fails dp : fails_only_with IndexError (path_finder dp).
Proof.
  pose proof (path_finder_terminates dp) as Hterm.
  destruct (path_finder dp) as [p|e|] eqn:Hrun; simpl; [done| |done].
  unfold path_finder in Hrun.
  pose proof (getitem_fails dp 0) as H0.
  destruct (getitem dp 0) as [dp0|e'|]; simpl in *; [|congruence|done].
  destruct (path_finder_loop _ _ _ _ _) as [w|e'|] eqn:Hloop; simpl in *;
    [done| |done].
  injection Hrun as <-. by eapply path_finder_loop_fails.
Qed.

Lemma max_path_finder_fails grid :
  fails_only_with IndexError (max_path_finder grid).
Proof.
  unfold max_path_finder.
  apply fails_only_with_bind; [apply getitem_fails|]. intros grid0.
  apply fails_only_with_bind; [apply getitem2_fails|]. intros g00.
  apply fails_only_with_bind; [apply setitem2_fails|]. intros dp0.
  apply fails_only_with_bind.
  { apply for_each_fails. intros row dp. apply for_each_fails.
    intros col dp'. apply fill_cell_fails. }
  intros dp. apply fails_only_with_bind; [apply path_finder_fails|].
  intros path. apply fails_only_with_bind; [apply getitem2_fails|done].
Qed.

(** X4. The only way [path_finder] and [max_path_finder] fail: on every
    input, a jagged or empty one included, each of them either returns or
    raises [IndexError]; no other exception is raised and the [while] loop
    always ends. *)
Theorem path_finders_fail_with_IndexError :
  (∀ dp, (∃ path, path_finder dp = Ok path) ∨
         path_finder dp = Raise IndexError) ∧
  (∀ grid, (∃ r, max_path_finder grid = Ok r) ∨
           max_path_finder grid = Raise IndexError).
Proof.
  split.
  - intros dp. pose proof (path_finder_fails dp) as H.
    destruct (path_finder dp); simpl in H; [eauto|by subst; right|done].
  - intros grid. pose proof (max_path_finder_fails grid) as H.
    destruct (max_path_finder grid); simpl in H; [eauto|by subst; right|done].
Qed.


(** *** Rows longer than the first *)

Lemma for_each_ext {A St} (l : list A) (body body' : A → St → result St) s :
  (∀ x s, x ∈ l → body x s = body' x s) →
  for_each l body s = for_each l body' s.
Proof.
  revert s. induction l as [|a l IH]; intros s Hb; simpl; [done|].
  rewrite Hb by left. destruct (body' a s); simpl; try done.
  apply IH. intros. apply Hb. by right.
Qed.

Lemma for_each_Ok_inv {A St} (l : list A) (body : A → St → result St)
    s s' x :
  for_each l body s = Ok s' → x ∈ l → ∃ s1 s2, body x s1 = Ok s2.
Proof.
  revert s. induction l as [|a l IH]; intros s Hrun Hx; [by inversion Hx|].
  simpl in Hrun. destruct (body a s) as [s1| |] eqn:Ha; simpl in Hrun; try done.
  apply elem_of_cons in Hx as [->|Hx]; [eauto|]. by eapply IH.
Qed.

Lemma getitem_fmap {A B} (f : A → B) (l : list A) i :
  getitem (f <$> l) i = (r ← getitem l i; Ok (f r)).
Proof.
  unfold getitem, len. rewrite length_fmap. destruct (_ && _); [|done].
  rewrite list_lookup_fmap. by destruct (l !! _).
Qed.

Lemma getitem_take {A} (l : list A) (m : nat) j :
  0 ≤ j < Z.of_nat m → getitem (take m l) j = getitem l j.
Proof.
  intros. rewrite !getitem_nonneg by lia. by rewrite lookup_take_lt by lia.
Qed.

Lemma getitem2_take {A} (grid : list (list A)) (m : nat) i j :
  0 ≤ j < Z.of_nat m → getitem2 (take m <$> grid) i j = getitem2 grid i j.
Proof.
  intros. unfold getitem2. rewrite getitem_fmap.
  destruct (getitem grid i); simpl; [by apply getitem_take|done..].
Qed.

Lemma fill_cell_take grid (m : nat) row col dp :
  0 ≤ col < Z.of_nat m →
  fill_cell (take m <$> grid) row col dp = fill_cell grid row col dp.
Proof. intros. unfold fill_cell. by rewrite getitem2_take. Qed.

Lemma max_path_finder_trimmed_eq grid :
  max_path_finder (trimmed grid) = max_path_finder grid.
Proof.
  destruct grid as [|grid0 rest]; [done|].
  unfold trimmed. set (m := length grid0).
  destruct (decide (m = 0%nat)) as [Hm|Hm].
  { apply nil_length_inv in Hm. by subst grid0. }
  assert (getitem (grid0 :: rest) 0 = Ok grid0) as H0
    by (by rewrite getitem_nonneg).
  assert (getitem (take m <$> grid0 :: rest) 0 = Ok grid0) as H0'.
  { rewrite getitem_fmap, H0. simpl. f_equal. by apply take_ge. }
  unfold max_path_finder.
  eapply bind_Ok_eq; [exact H0'|]. symmetry.
  eapply bind_Ok_eq; [exact H0|]. symmetry. cbv beta.
  rewrite getitem2_take by lia.
  rewrite length_fmap. unfold len. rewrite length_fmap. fold m.
  destruct (getitem2 (grid0 :: rest) 0 0) as [g00| |]; simpl; [|done..].
  destruct (setitem2 _ 0 0 (Int g00)) as [dp0| |]; simpl; [|done..].
  match goal with
  | |- ?a ≫= _ = ?b ≫= _ => assert (a = b) as Heq; [|by rewrite Heq]
  end.
  change (take m grid0 :: list_fmap _ _ (take m) rest)
    with (take m <$> grid0 :: rest).
  unfold fill_table. apply for_each_ext. intros row dp _.
  apply for_each_ext. intros col dp' Hcol. apply fill_cell_take.
  unfold range in Hcol. apply elem_of_seqZ in Hcol. lia.
Qed.

Lemma rectangular_trimmed {A} (grid0 : list A) rest :
  Forall (λ row, (length grid0 ≤ length row)%nat) (grid0 :: rest) →
  rectangular (trimmed (grid0 :: rest)) (length (grid0 :: rest)) (length grid0).
Proof.
  intros Hwide. split; [unfold trimmed; by rewrite length_fmap|].
  unfold trimmed. apply Forall_fmap. eapply Forall_impl; [exact Hwide|].
  intros row Hrow. simpl. by apply length_take_le.
Qed.

Lemma tget_trimmed {A} (grid0 : list A) rest c :
  c.2 < Z.of_nat (length grid0) →
  tget (trimmed (grid0 :: rest)) c = tget (grid0 :: rest) c.
Proof.
  intros Hc. unfold tget, trimmed.
  destruct ((0 <=? c.1) && (0 <=? c.2)) eqn:Hb; [|done].
  apply andb_prop in Hb as [_ Hb2]. apply Z.leb_le in Hb2.
  rewrite list_lookup_fmap.
  destruct ((grid0 :: rest) !! Z.to_nat c.1); simpl; [|done].
  apply lookup_take_lt. lia.
Qed.

Lemma path_sum_ext grid grid' p :
  (∀ b, b ∈ p → cell grid b = cell grid' b) →
  path_sum grid p = path_sum grid' p.
Proof.
  induction p as [|a p IH]; intros Hc; simpl; [done|].
  f_equal; [apply Hc; left|]. apply IH. intros b Hb. apply Hc. by right.
Qed.

Lemma path_sum_trimmed (grid0 : list Z) rest M p :
  monotone_path M (length grid0) p →
  path_sum (trimmed (grid0 :: rest)) p = path_sum (grid0 :: rest) p.
Proof.
  intros Hp. apply path_sum_ext. intros b Hb.
  unfold cell. rewrite tget_trimmed; [done|].
  by destruct (monotone_path_inside _ _ _ Hp b Hb) as [_ [_ ?]].
Qed.

(** X1. Optimality without the assumptions of the comment in the source:
    the entries may be any integers, negative ones included, and the rows
    need not have the same length as long as none is shorter than the first.
    With [M] rows and [N = len(grid[0]) > 0], [max_path_finder] returns a sum
    and a right/down path from [(0, 0)] to [(M-1, N-1)] whose entries add up
    to that sum, and no such path adds up to more. *)
Theorem max_path_finder_optimal (grid : list (list Z)) (grid0 : list Z) :
  head grid = Some grid0 → grid0 ≠ [] →
  Forall (λ row, (length grid0 ≤ length row)%nat) grid →
  ∃ v path,
    max_path_finder grid = Ok (Int v, path) ∧
    monotone_path (length grid) (length grid0) path ∧
    path_sum grid path = v ∧
    ∀ p, monotone_path (length grid) (length grid0) p →
         path_sum grid p ≤ v.
Proof.
  intros Hhead Hne Hwide.
  destruct grid as [|grid0' rest]; [done|]. injection Hhead as ->.
  assert (0 < length grid0)%nat as HN by (destruct grid0; [done|simpl; lia]).
  assert (0 < length (grid0 :: rest))%nat as HM by (simpl; lia).
  pose proof (rectangular_trimmed grid0 rest Hwide) as Hrect.
  destruct (max_path_finder_run _ _ _ HM HN Hrect)
    as (dp & w & Hinv & Hrun & Hh & Hl & Hsteps & Hsum & Hlen).
  rewrite max_path_finder_trimmed_eq in Hrun.
  assert (monotone_path (length (grid0 :: rest)) (length grid0) (reverse w))
    as Hmono.
  { split; [by rewrite head_reverse|]. split; [by rewrite last_reverse|done]. }
  eexists _, (reverse w). split; [exact Hrun|]. split; [done|]. split.
  - rewrite <- (path_sum_trimmed _ _ _ _ Hmono). by rewrite path_sum_reverse.
  - intros p Hp. rewrite <- (path_sum_trimmed _ _ _ _ Hp).
    destruct Hp as (Hp1 & Hp2 & Hp3).
    apply (path_sum_upper_bound _ _ _ dp Hinv p _ Hp3 Hp1 Hp2).
    split; simpl; lia.
Qed.

Lemma getitem2_Ok {A} (t : list (list A)) i j x :
  0 ≤ i → 0 ≤ j → getitem2 t i j = Ok x →
  ∃ r, t !! Z.to_nat i = Some r ∧ r !! Z.to_nat j = Some x.
Proof.
  intros Hi Hj. unfold getitem2. rewrite getitem_nonneg by done.
  destruct (t !! Z.to_nat i) as [r|]; simpl; [|done].
  rewrite getitem_nonneg by done.
  destruct (r !! Z.to_nat j) as [y|] eqn:Hy; [|done].
  intros [= ->]. eauto.
Qed.

Lemma fill_cell_Ok grid row col dp dp' :
  row + col ≠ 0 → fill_cell grid row col dp = Ok dp' →
  ∃ g, getitem2 grid row col = Ok g.
Proof.
  intros Hne. unfold fill_cell. destruct (Z.eqb_spec (row + col) 0); [done|].
  destruct (if 0 <? row then _ else _) as [ans| |]; simpl; try done.
  destruct (if 0 <? col then _ else _) as [ans'| |]; simpl; try done.
  destruct (getitem2 grid row col) as [g| |]; simpl; try done. eauto.
Qed.

(** X2. When [max_path_finder] returns: exactly when the matrix has a
    first row, that row is not empty, and no row is shorter than it.  (By X4
    it raises [IndexError] otherwise: on [[]], on [[[]]], and on a matrix
    with a row shorter than the first.) *)
Theorem max_path_finder_succeeds_iff (grid : list (list Z)) :
  (∃ r, max_path_finder grid = Ok r) ↔
  ∃ grid0, head grid = Some grid0 ∧ grid0 ≠ [] ∧
           Forall (λ row, (length grid0 ≤ length row)%nat) grid.
Proof.
  split.
  - intros [r Hrun]. destruct grid as [|grid0 rest]; [done|].
    exists grid0. split; [done|].
    assert (getitem (grid0 :: rest) 0 = Ok grid0) as H0
      by (by rewrite getitem_nonneg).
    unfold max_path_finder in Hrun.
    rewrite (bind_Ok_eq _ _ _ _ H0 eq_refl) in Hrun.
    destruct (getitem2 (grid0 :: rest) 0 0) as [g00| |] eqn:Hg00;
      simpl in Hrun; try done.
    apply getitem2_Ok in Hg00 as (r0 & [= <-] & Hg00); [|done..].
    split; [by intros ->|].
    destruct (setitem2 _ 0 0 (Int g00)) as [dp0| |]; simpl in Hrun; try done.
    destruct (fill_table _ _ _ dp0) as [dp| |] eqn:Hfill; simpl in Hrun;
      try done.
    apply Forall_lookup. intros i row Hrow.
    destruct i as [|i]; [by injection Hrow as ->|].
    assert (0 < length grid0)%nat as Hm by (by apply lookup_lt_Some in Hg00).
    unfold fill_table in Hfill.
    destruct (for_each_Ok_inv _ _ _ _ (Z.of_nat (S i)) Hfill)
      as (dp1 & dp2 & Hrowrun).
    { apply elem_of_seqZ. apply lookup_lt_Some in Hrow. unfold len. lia. }
    destruct (for_each_Ok_inv _ _ _ _ (Z.of_nat (length grid0) - 1) Hrowrun)
      as (dp3 & dp4 & Hcell).
    { apply elem_of_seqZ. unfold len. lia. }
    apply fill_cell_Ok in Hcell as [g Hg]; [|lia].
    apply getitem2_Ok in Hg as (r1 & Hr1 & Hg); [|lia..].
    rewrite Nat2Z.id, Hrow in Hr1. injection Hr1 as <-.
    apply lookup_lt_Some in Hg. lia.
  - intros (grid0 & Hhead & Hne & Hwide).
    destruct grid as [|grid0' rest]; [done|]. injection Hhead as ->.
    assert (0 < length grid0)%nat as HN by (destruct grid0; [done|simpl; lia]).
    assert (0 < length (grid0 :: rest))%nat as HM by (simpl; lia).
    destruct (max_path_finder_run _ _ _ HM HN
                (rectangular_trimmed grid0 rest Hwide))
      as (dp & w & _ & Hrun & _).
    rewrite max_path_finder_trimmed_eq in Hrun. eauto.
Qed.

(** X3. [max_path_finder] reads only the first [len(grid[0])] entries of
    each row: two matrices that agree once every row is cut to the length of
    the first row give the same outcome (the same sum and path, or the same
    exception). *)
Theorem max_path_finder_ignores_extra_columns (grid grid' : list (list Z)) :
  trimmed grid = trimmed grid' →
  max_path_finder grid = max_path_finder grid'.
Proof.
  intros Heq.
  by rewrite <- (max_path_finder_trimmed_eq grid), Heq,
    max_path_finder_trimmed_eq.
Qed.

Lemma max_path_finder_optimal_witness :
  ∃ v path,
    max_path_finder [[1; -2; 3]; [4; -5; 6; 9]] = Ok (Int v, path) ∧
    monotone_path 2 3 path ∧
    path_sum [[1; -2; 3]; [4; -5; 6; 9]] path = v ∧
    ∀ p, monotone_path 2 3 p → path_sum [[1; -2; 3]; [4; -5; 6; 9]] p ≤ v.
Proof.
  apply (max_path_finder_optimal [[1; -2; 3]; [4; -5; 6; 9]] [1; -2; 3]);
    [reflexivity|done|by_computation].
Defined.

Lemma max_path_finder_ignores_extra_columns_witness :
  max_path_finder [[1; 2]; [3; 4; 5]] = max_path_finder [[1; 2]; [3; 4; 7; 8]].
Proof. apply max_path_finder_ignores_extra_columns. reflexivity. Defined.

Lemma path_finder_rectangular_witness :
  ∃ path,
    path_finder [[Int 1; NegInf]; [Int 2; Int 0]] = Ok path ∧
    monotone_path 2 2 path ∧
    NoDup path ∧
    length path = (2 + 2 - 1)%nat.
Proof.
  apply (path_finder_rectangular [[Int 1; NegInf]; [Int 2; Int 0]] 2 2);
    [lia|lia|].
  split; [reflexivity|]. by repeat constructor.
Defined.

Lemma max_path_finder_monotone_witness :
  ∃ v v' path path',
    max_path_finder [[1; 2]; [3; 4]] = Ok (Int v, path) ∧
    max_path_finder [[1; 5]; [3; 4]] = Ok (Int v', path') ∧
    v ≤ v'.
Proof.
  apply (max_path_finder_monotone [[1; 2]; [3; 4]] [[1; 5]; [3; 4]] 2 2);
    [lia|lia|split; [reflexivity|by repeat constructor]
    |split; [reflexivity|by repeat constructor]|].
  intros [r c] [Hr Hc]. simpl in Hr, Hc.
  assert (r = 0 ∨ r = 1) as [-> | ->] by lia;
    assert (c = 0 ∨ c = 1) as [-> | ->] by lia; vm_compute; discriminate.
Defined.

Lemma max_path_finder_constant_witness :
  ∃ path,
    max_path_finder [[-2; -2; -2]; [-2; -2; -2]]
    = Ok (Int (-2 * (Z.of_nat 2 + Z.of_nat 3 - 1)), path).
Proof.
  apply (max_path_finder_constant [[-2; -2; -2]; [-2; -2; -2]] 2 3 (-2));
    [lia|lia|split; [reflexivity|by repeat constructor]|by repeat constructor].
Defined.

End PathFinderProperties.

(** ** Further properties of services, legs and ODs *)

Module TransportProperties.
Import Python PythonProofs Transport TransportSpec TransportProofs.

Section manifest.
Context {number : Type} `{EqDecision number}.
Abbreviation Passenger := (Passenger number).
Abbreviation OD := (OD number).
Abbreviation Service := (Service number).

(** X8. Loading a manifest in two calls is the same as loading it in one:
    [load_passenger_manifest(ps1 + ps2)] leaves the service, and ends, as
    [load_passenger_manifest(ps1)] followed, if that call returned, by
    [load_passenger_manifest(ps2)]; if the first call raised, nothing of
    [ps2] is looked at. *)
Theorem load_passenger_manifest_app (s : Service) ps1 ps2 :
  load_passenger_manifest s (ps1 ++ ps2)
  = match load_passenger_manifest s ps1 with
    | (s1, Ok _) => load_passenger_manifest s1 ps2
    | (s1, failure) => (s1, failure)
    end.
Proof.
  revert s. induction ps1 as [|p ps1 IH]; intros s; simpl; [done|].
  destruct (list_find _ (ods s)) as [[i od]|]; [apply IH|done].
Qed.

(** X9. What [load_passenger_manifest] never touches, whether it returns
    or raises: the name, the date and the legs of the service, hence its
    itinerary; the number and order of the ODs, their identities, origins and
    destinations; and the passengers an OD already had, which stay where they
    were, the new ones coming after them. *)
Theorem load_passenger_manifest_preserves (s : Service) ps :
  let s' := (load_passenger_manifest s ps).1 in
  service_name s' = service_name s ∧
  departure_date s' = departure_date s ∧
  legs s' = legs s ∧
  Service_itinerary s' = Service_itinerary s ∧
  length (ods s') = length (ods s) ∧
  ∀ i od, ods s !! i = Some od →
    ∃ od', ods s' !! i = Some od' ∧
      od_id od' = od_id od ∧ od_ends od' = od_ends od ∧
      od_passengers od `prefix_of` od_passengers od'.
Proof.
  revert s. induction ps as [|p ps IH]; intros s; simpl.
  { repeat split; try done. intros i od Hod. by exists od. }
  destruct (list_find _ (ods s)) as [[k odk]|] eqn:Hfind; simpl.
  2:{ repeat split; try done. intros i od Hod. by exists od. }
  apply list_find_Some in Hfind as (Hk & _).
  destruct (IH (set_ods s (<[k:=od_append odk p]> (ods s))))
    as (Hname & Hdate & Hlegs & Hit & Hlen & Hods).
  split; [done|]. split; [done|]. split; [done|]. split; [done|].
  split; [by rewrite Hlen; simpl; rewrite length_insert|].
  intros i od Hod. destruct (decide (i = k)) as [->|Hik].
  - assert (od = odk) as -> by congruence.
    destruct (Hods k (od_append odk p)) as (od' & Hod' & Hid & Hends & Hpre).
    { simpl. apply list_lookup_insert_eq. by eapply lookup_lt_Some. }
    exists od'. split; [done|]. split; [done|]. split; [done|].
    etransitivity; [|exact Hpre]. simpl. by apply prefix_app_r.
  - apply Hods. simpl. by rewrite list_lookup_insert_ne.
Qed.

Lemma sum_list_with_insert {A} (f : A → nat) (l : list A) i x y :
  l !! i = Some x →
  (sum_list_with f (<[i:=y]> l) + f x = sum_list_with f l + f y)%nat.
Proof.
  revert i. induction l as [|a l IH]; intros [|i] Hi; simpl in *; try done.
  - injection Hi as ->. lia.
  - specialize (IH i Hi). lia.
Qed.

(** X10. Every passenger is appended exactly once: the total number of
    passengers held by the ODs grows by at most [len(passengers)], and by
    exactly [len(passengers)] if and only if the call returns without an
    exception. *)
Theorem load_passenger_manifest_counts (s : Service) ps :
  let s' := (load_passenger_manifest s ps).1 in
  let outcome := (load_passenger_manifest s ps).2 in
  (total_passengers s' ≤ total_passengers s + length ps)%nat ∧
  (outcome = Ok () ↔
   total_passengers s' = (total_passengers s + length ps)%nat).
Proof.
  revert s. induction ps as [|p ps IH]; intros s; simpl.
  { split; [lia|]. split; [lia|done]. }
  destruct (list_find _ (ods s)) as [[k odk]|] eqn:Hfind; simpl.
  2:{ split; [lia|]. split; [done|lia]. }
  apply list_find_Some in Hfind as (Hk & _).
  destruct (IH (set_ods s (<[k:=od_append odk p]> (ods s)))) as [Hle Hiff].
  assert (total_passengers (set_ods s (<[k:=od_append odk p]> (ods s)))
          = S (total_passengers s)) as Hstep.
  { unfold total_passengers. simpl.
    pose proof (sum_list_with_insert (λ od : OD, length (od_passengers od))
                  (ods s) k odk (od_append odk p) Hk) as Hsum.
    simpl in Hsum. rewrite length_app in Hsum. simpl in Hsum. lia. }
  rewrite Hstep in Hle, Hiff. split; [lia|]. rewrite Hiff. lia.
Qed.

Lemma load_passenger_manifest_outcome (s : Service) ps :
  ((load_passenger_manifest s ps).2 = Ok () ↔
   ∀ p, p ∈ ps → is_Some (located (ods s) p)) ∧
  ((load_passenger_manifest s ps).2 = Ok () ∨
   (load_passenger_manifest s ps).2 = Raise StopIteration).
Proof.
  revert s. induction ps as [|p ps IH]; intros s; simpl.
  { split; [|by left]. split; [|done]. intros _ p Hp. by inversion Hp. }
  destruct (list_find _ (ods s)) as [[k odk]|] eqn:Hfind; simpl.
  - pose proof Hfind as (Hk & _)%list_find_Some.
    destruct (IH (set_ods s (<[k:=od_append odk p]> (ods s)))) as [Hiff Hor].
    split; [|done]. rewrite Hiff. simpl. split.
    + intros Hall q Hq. apply elem_of_cons in Hq as [->|Hq].
      * unfold located. by rewrite Hfind.
      * specialize (Hall q Hq). by rewrite located_insert in Hall.
    + intros Hall q Hq. rewrite located_insert by done. apply Hall. by right.
  - split; [|by right]. split; [done|]. intros Hall.
    destruct (Hall p) as [i Hi]; [by left|]. unfold located in Hi.
    by rewrite Hfind in Hi.
Qed.

Lemma elem_of_combinations2 {A} (l : list A) a b :
  (a, b) ∈ combinations2 l ↔
  ∃ i j, (i < j)%nat ∧ l !! i = Some a ∧ l !! j = Some b.
Proof.
  induction l as [|x l IH]; simpl.
  { split; [by intros ?%elem_of_nil|]. by intros (i & j & _ & ? & _). }
  rewrite elem_of_app, list_elem_of_fmap, IH. split.
  - intros [(y & [= -> ->] & Hy)|(i & j & Hij & Hi & Hj)].
    + apply list_elem_of_lookup in Hy as [j Hj].
      exists 0%nat, (S j). split; [lia|done].
    + exists (S i), (S j). split; [lia|done].
  - intros (i & j & Hij & Hi & Hj). destruct j as [|j]; [lia|].
    destruct i as [|i].
    + left. injection Hi as ->. exists b. split; [done|].
      by eapply list_elem_of_lookup_2.
    + right. exists i, j. split; [lia|done].
Qed.

Lemma load_itinerary_spec (s : Service) stations (fresh : ref) :
  ∃ new_legs new_ods,
    load_itinerary s stations fresh
    = (set_ods (set_legs s (legs s ++ new_legs)) (ods s ++ new_ods),
       (fresh + length new_legs + length new_ods)%nat) ∧
    leg_ends <$> new_legs = chain stations ∧
    od_ends <$> new_ods = combinations2 stations ∧
    Forall (λ od, od_passengers od = []) new_ods.
Proof.
  unfold load_itinerary.
  destruct (load_legs_spec s stations fresh) as (new_legs & -> & Hlegs).
  destruct (load_ods_spec (set_legs s (legs s ++ new_legs))
              stations (fresh + length new_legs)%nat)
    as (new_ods & -> & Hods & Hempty).
  by exists new_legs, new_ods.
Qed.

(** X11. Which manifests a service made by [load_itinerary] accepts: on
    a new service loaded with [stations], [load_passenger_manifest] returns
    if and only if, for every passenger, the origin stands at some position
    of [stations] before some position of the destination; in every other
    case it raises [StopIteration].  (No assumption on [stations].) *)
Theorem load_itinerary_accepts name date stations (fresh : ref) ps :
  let s : Service :=
    (load_itinerary (new_Service name date) stations fresh).1 in
  let precedes (a b : Station) :=
    ∃ i j, (i < j)%nat ∧
           stations !! i = Some a ∧ stations !! j = Some b in
  ((load_passenger_manifest s ps).2 = Ok () ↔
   ∀ p, p ∈ ps →
        precedes (passenger_origin p) (passenger_destination p)) ∧
  ((load_passenger_manifest s ps).2 ≠ Ok () →
   (load_passenger_manifest s ps).2 = Raise StopIteration).
Proof.
  intros s precedes.
  destruct (load_itinerary_spec (new_Service name date) stations fresh)
    as (new_legs & new_ods & Hrun & _ & Hods & _).
  assert (od_ends <$> ods s = combinations2 stations) as Hends.
  { subst s. by rewrite Hrun. }
  clearbody s.
  destruct (load_passenger_manifest_outcome s ps) as [Hiff Hor].
  split; [|by destruct Hor].
  rewrite Hiff. apply forall_proper. intros p.
  apply forall_proper. intros _.
  rewrite located_is_Some. unfold precedes.
  rewrite <- elem_of_combinations2, <- Hends, list_elem_of_fmap.
  split.
  - intros (od & Hod & Ho & Hd). exists od. split; [|done].
    unfold od_ends. by rewrite Ho, Hd.
  - intros (od & [= Ho Hd] & Hod). exists od. by split.
Qed.

End manifest.


Section itinerary.
Context {number : Type} `{EqDecision number}.
Abbreviation Service := (Service number).

Lemma calculate_fold_connections (l : list Leg) occ conn :
  let r :=
    foldl (λ '(stations_occurrences, station_connections) leg,
             let stations_occurrences :=
               defaultdict_update 0 (Z.add 1) stations_occurrences
                 (leg_origin leg) in
             let stations_occurrences :=
               defaultdict_update 0 (Z.add 1) stations_occurrences
                 (leg_destination leg) in
             let station_connections :=
               dict_set station_connections (leg_origin leg)
                 (leg_destination leg) in
             (stations_occurrences, station_connections))
          (occ, conn) l in
  (NoDup conn.*1 → NoDup r.2.*1) ∧
  (∀ k, k ∈ r.2.*1 ↔ k ∈ conn.*1 ∨ k ∈ leg_origin <$> l) ∧
  (∀ k, dict_get r.2 k
        = match last (filter (λ leg, leg_origin leg = k) l) with
          | Some leg => Some (leg_destination leg)
          | None => dict_get conn k
          end).
Proof.
  cbv zeta. revert occ conn.
  induction l as [|leg l IH]; intros occ conn; cbn [foldl].
  - split; [done|]. split; [|done]. intros k.
    rewrite fmap_nil, elem_of_nil. tauto.
  - destruct (IH (defaultdict_update 0 (Z.add 1)
                    (defaultdict_update 0 (Z.add 1) occ (leg_origin leg))
                    (leg_destination leg))
                 (dict_set conn (leg_origin leg) (leg_destination leg)))
      as (IHnd & IHkeys & IHget).
    split; [|split].
    + intros Hnd. apply IHnd. by apply dict_set_keys_NoDup.
    + intros k. rewrite IHkeys, dict_set_keys, fmap_cons, elem_of_cons.
      destruct (decide (leg_origin leg ∈ conn.*1)) as [Hin|Hin].
      * split; [tauto|]. intros [?|[->|?]]; auto.
      * rewrite elem_of_app, list_elem_of_singleton. tauto.
    + intros k. rewrite IHget, dict_get_set, filter_cons.
      destruct (decide (leg_origin leg = k)) as [Hk|Hk]; [|done].
      rewrite last_cons. by destruct (last (filter _ l)).
Qed.

Lemma calculate_connections_spec (s : Service) :
  let conn := (_calculate_station_occurrences_and_connections s).2 in
  NoDup conn.*1 ∧
  (∀ k, k ∈ conn.*1 ↔ k ∈ leg_origin <$> legs s) ∧
  (∀ k, dict_get conn k
        = leg_destination <$>
            last (filter (λ leg, leg_origin leg = k) (legs s))).
Proof.
  destruct (calculate_fold_connections (legs s) [] []) as (Hnd & Hkeys & Hget).
  split; [apply Hnd; constructor|]. split.
  - intros k. rewrite (Hkeys k). rewrite fmap_nil, elem_of_nil. tauto.
  - intros k. etransitivity; [apply Hget|]. by destruct (last _).
Qed.

(** X14. What [_calculate_station_occurrences_and_connections] returns
    for any list of legs: [station_occurrences[x]] is the number of legs
    starting at [x] plus the number of legs ending at [x];
    [station_connections] has one key per origin of a leg, and maps it to the
    destination of the last leg that starts there (a later leg overwrites an
    earlier one with the same origin). *)
Theorem calculate_station_occurrences_and_connections_spec (s : Service) x :
  let '(station_occurrences, station_connections) :=
    _calculate_station_occurrences_and_connections s in
  defaultdict_get 0 station_occurrences x
  = Z.of_nat (length (filter (λ leg, leg_origin leg = x) (legs s))) +
    Z.of_nat (length (filter (λ leg, leg_destination leg = x) (legs s))) ∧
  dict_get station_connections x
  = leg_destination <$> last (filter (λ leg, leg_origin leg = x) (legs s)) ∧
  (x ∈ station_connections.*1 ↔
   ∃ leg, leg ∈ legs s ∧ leg_origin leg = x) ∧
  NoDup station_connections.*1.
Proof.
  pose proof (calculate_occurrences s x) as Hocc.
  pose proof (calculate_connections_spec s) as (Hnd & Hkeys & Hget).
  destruct (_calculate_station_occurrences_and_connections s) as [occ conn].
  simpl in *. split; [|split; [done|split; [|done]]].
  - rewrite Hocc. unfold occurrences.
    f_equal; f_equal; clear; induction (legs s) as [|leg l IH]; try done;
      rewrite fmap_cons, !filter_cons; simpl;
      destruct (decide _); simpl; by rewrite IH.
  - rewrite Hkeys, list_elem_of_fmap. split.
    + intros (leg & -> & Hleg). eauto.
    + intros (leg & Hleg & <-). eauto.
Qed.

Lemma filter_none {A} (P : A → Prop) `{∀ x, Decision (P x)} (l : list A) :
  (∀ x, x ∈ l → ¬ P x) → filter P l = [].
Proof.
  induction l as [|a l IH]; intros Hl; [done|]. rewrite filter_cons.
  destruct (decide (P a)) as [Ha|_]; [by destruct (Hl a); [left|]|].
  apply IH. intros x Hx. apply Hl. by right.
Qed.

Lemma connections_items (s : Service) k v :
  (k, v) ∈ (_calculate_station_occurrences_and_connections s).2 →
  ∃ leg, leg ∈ legs s ∧ leg_origin leg = k ∧ leg_destination leg = v.
Proof.
  destruct (calculate_connections_spec s) as (Hnd & Hkeys & Hget).
  intros Hkv. apply (dict_get_NoDup _ _ _ Hnd) in Hkv. rewrite Hget in Hkv.
  destruct (last _) as [leg|] eqn:Hlast; [|done]. injection Hkv as <-.
  apply last_Some_elem_of, list_elem_of_filter in Hlast as [? ?]. eauto.
Qed.

Lemma Service_itinerary_no_terminus (s : Service) :
  (∀ leg, leg ∈ legs s →
          occurrences (leg_origin leg) (leg_ends <$> legs s) ≠ 1) ∨
  (∀ leg, leg ∈ legs s →
          occurrences (leg_destination leg) (leg_ends <$> legs s) ≠ 1) →
  Service_itinerary s = Raise StopIteration.
Proof.
  intros Hno. unfold Service_itinerary, _calculate_itinerary.
  pose proof (calculate_occurrences s) as Hocc.
  pose proof (connections_items s) as Hitems.
  destruct (_calculate_station_occurrences_and_connections s) as [occ conn].
  simpl in Hocc, Hitems. unfold _find_departure_and_destination.
  destruct Hno as [Hno|Hno].
  - rewrite (filter_none (λ item : Station * Station,
                           defaultdict_get 0 occ item.1 = 1) conn); [done|].
    intros [k v] Hkv. simpl. rewrite Hocc.
    destruct (Hitems k v Hkv) as (leg & Hleg & <- & _). by apply Hno.
  - rewrite (filter_none (λ item : Station * Station,
                           defaultdict_get 0 occ item.2 = 1) conn).
    + by destruct (fst <$> filter _ conn).
    + intros [k v] Hkv. simpl. rewrite Hocc.
      destruct (Hitems k v Hkv) as (leg & Hleg & _ & <-). by apply Hno.
Qed.

(** X15. When no departure or no final destination is found: if no leg
    starts at a station that is an end of exactly one leg, or no leg ends at
    such a station (a service without legs, a round trip), then
    [Service.itinerary] raises [StopIteration], and so does [OD.legs] for
    every OD. *)
Theorem Service_itinerary_StopIteration (s : Service) :
  (∀ leg, leg ∈ legs s →
          occurrences (leg_origin leg) (leg_ends <$> legs s) ≠ 1) ∨
  (∀ leg, leg ∈ legs s →
          occurrences (leg_destination leg) (leg_ends <$> legs s) ≠ 1) →
  Service_itinerary s = Raise StopIteration ∧
  ∀ od : OD number, OD_legs s od = Raise StopIteration.
Proof.
  intros Hno. pose proof (Service_itinerary_no_terminus s Hno) as Hit.
  split; [done|]. intros od. unfold OD_legs. by rewrite Hit.
Qed.

Lemma occurrences_app x ends1 ends2 :
  occurrences x (ends1 ++ ends2) = occurrences x ends1 + occurrences x ends2.
Proof. unfold occurrences. rewrite !filter_app, !length_app. lia. Qed.

(** X13. [load_itinerary] is not to be called twice: after a second call
    with the same stations on a new service, every station is an end of an even
    number of legs, no departure is found, and [Service.itinerary] raises
    [StopIteration], whatever the list of stations. *)
Theorem load_itinerary_twice name date stations (fresh : ref) :
  let first :=
    load_itinerary (new_Service name date : Service) stations fresh in
  let second := load_itinerary first.1 stations first.2 in
  Service_itinerary second.1 = Raise StopIteration.
Proof.
  intros first second.
  destruct (load_itinerary_spec (new_Service name date : Service)
              stations fresh)
    as (legs1 & ods1 & Hrun1 & Hlegs1 & _).
  destruct (load_itinerary_spec first.1 stations first.2)
    as (legs2 & ods2 & Hrun2 & Hlegs2 & _).
  assert (leg_ends <$> legs second.1 = chain stations ++ chain stations)
    as Hends.
  { subst second. rewrite Hrun2. subst first. rewrite Hrun1. simpl.
    by rewrite fmap_app, Hlegs1, Hlegs2. }
  clearbody second. apply Service_itinerary_no_terminus. left.
  intros leg _. rewrite Hends, occurrences_app.
  unfold occurrences. lia.
Qed.

Lemma itinerary_loop_Ok (conn : dict Station Station) final fuel cur acc l :
  itinerary_loop fuel conn final cur acc = Ok l →
  ∃ w, l = acc ++ w ∧ head w = Some cur ∧ last w = Some final ∧
       (length w ≤ fuel)%nat ∧
       ∀ i a b, w !! i = Some a → w !! S i = Some b →
                dict_get conn a = Some b ∧ a ≠ final.
Proof.
  revert cur acc. induction fuel as [|fuel IH]; intros cur acc Hrun; [done|].
  simpl in Hrun. destruct (decide (cur = final)) as [->|Hne].
  - injection Hrun as <-. exists [final].
    split; [done|]. split; [done|]. split; [done|]. split; [simpl; lia|].
    by intros [|i] a b Ha Hb.
  - unfold dict_getitem in Hrun.
    destruct (dict_get conn cur) as [nxt|] eqn:Hnxt; simpl in Hrun; [|done].
    destruct (IH _ _ Hrun) as (w & -> & Hh & Hl & Hlen & Hwalk).
    exists (cur :: w). rewrite <- app_assoc.
    split; [done|]. split; [done|]. split; [|split].
    + destruct w; [done|]. by rewrite last_cons_cons.
    + simpl. lia.
    + intros [|i] a b Ha Hb.
      * simpl in Ha, Hb. injection Ha as <-.
        rewrite <- head_lookup, Hh in Hb. by injection Hb as <-.
      * by apply (Hwalk i).
Qed.

Lemma walk_NoDup (conn : dict Station Station) final (w : list Station) :
  last w = Some final →
  (∀ i a b, w !! i = Some a → w !! S i = Some b →
            dict_get conn a = Some b ∧ a ≠ final) →
  NoDup w.
Proof.
  intros Hlast Hwalk.
  assert (∀ i j x, (i < j)%nat → w !! i = Some x → w !! j = Some x → False)
    as Hlt.
  { intros i j x Hij Hi Hj.
    assert (∀ t y, w !! (j + t)%nat = Some y → w !! (i + t)%nat = Some y)
      as Hshift.
    { induction t as [|t IHt]; intros y Hy.
      - rewrite Nat.add_0_r in *. congruence.
      - destruct (lookup_lt_is_Some_2 w (j + t)%nat) as [z Hz].
        { apply lookup_lt_Some in Hy. lia. }
        destruct (lookup_lt_is_Some_2 w (i + S t)%nat) as [y' Hy'].
        { apply lookup_lt_Some in Hy. lia. }
        specialize (IHt z Hz).
        rewrite Nat.add_succ_r in Hy, Hy' |- *.
        destruct (Hwalk _ _ _ Hz Hy) as [Hzy _].
        destruct (Hwalk _ _ _ IHt Hy') as [Hzy' _]. congruence. }
    rewrite last_lookup in Hlast.
    pose proof (lookup_lt_Some _ _ _ Hj) as Hjlen.
    specialize (Hshift (pred (length w) - j)%nat final).
    replace (j + (pred (length w) - j))%nat with (pred (length w)) in Hshift
      by lia.
    specialize (Hshift Hlast).
    destruct (lookup_lt_is_Some_2 w (S (i + (pred (length w) - j)))%nat)
      as [b Hb]; [lia|].
    by destruct (Hwalk _ _ _ Hshift Hb) as [_ ?]. }
  apply NoDup_alt. intros i j x Hi Hj.
  destruct (Nat.lt_trichotomy i j) as [?|[?|?]]; [|done|]; exfalso; eauto.
Qed.

Lemma next_Ok {A} (l : list A) x : next l = Ok x → head l = Some x.
Proof. destruct l; [done|]. by intros [= ->]. Qed.

(** X16. What [Service.itinerary] returns when it returns, on any
    service: a list without repetition, of at most [len(legs) + 1] stations;
    it starts at the origin of a leg and ends at the destination of a leg,
    both of them stations that are an end of exactly one leg; and any two
    neighbours in it are the origin and the destination of one leg of the
    service. *)
Theorem Service_itinerary_sound (s : Service) (l : list Station) :
  Service_itinerary s = Ok l →
  NoDup l ∧
  (length l ≤ length (legs s) + 1)%nat ∧
  (∃ departure final_destination,
     head l = Some departure ∧ last l = Some final_destination ∧
     occurrences departure (leg_ends <$> legs s) = 1 ∧
     occurrences final_destination (leg_ends <$> legs s) = 1 ∧
     departure ∈ leg_origin <$> legs s ∧
     final_destination ∈ leg_destination <$> legs s) ∧
  ∀ i a b, l !! i = Some a → l !! S i = Some b →
           ∃ leg, leg ∈ legs s ∧ leg_origin leg = a ∧ leg_destination leg = b.
Proof.
  unfold Service_itinerary, _calculate_itinerary.
  pose proof (calculate_occurrences s) as Hocc.
  pose proof (connections_items s) as Hitems.
  pose proof (calculate_connections_spec s) as (Hnd & Hkeys & Hget).
  destruct (_calculate_station_occurrences_and_connections s) as [occ conn].
  simpl in Hocc, Hitems, Hnd, Hkeys, Hget.
  unfold _find_departure_and_destination.
  destruct (next (fst <$> filter _ conn)) as [dep| |] eqn:Hdep; simpl; try done.
  destruct (next (snd <$> filter _ conn)) as [fin| |] eqn:Hfin; simpl; try done.
  intros Hrun.
  apply next_Ok, head_Some_elem_of, list_elem_of_fmap in Hdep
    as ([k v] & -> & [Hk Hkv]%list_elem_of_filter).
  apply next_Ok, head_Some_elem_of, list_elem_of_fmap in Hfin
    as ([k' v'] & -> & [Hv' Hkv']%list_elem_of_filter).
  simpl in Hk, Hv'. rewrite Hocc in Hk, Hv'.
  change (itinerary_loop (S (length conn)) conn v' k [] = Ok l) in Hrun.
  apply itinerary_loop_Ok in Hrun as (w & -> & Hh & Hl & Hlen & Hwalk).
  simpl. split; [by eapply walk_NoDup|]. split; [|split].
  - assert (length conn ≤ length (legs s))%nat; [|lia].
    rewrite <- (length_fmap fst conn), <- (length_fmap leg_origin (legs s)).
    apply submseteq_length, NoDup_submseteq; [done|].
    intros x. by rewrite Hkeys.
  - exists k, v'. split; [done|]. split; [done|]. split; [done|].
    split; [done|].
    destruct (Hitems k v Hkv) as (leg & Hleg & <- & _).
    destruct (Hitems k' v' Hkv') as (leg' & Hleg' & _ & <-).
    split; by apply list_elem_of_fmap_2.
  - intros i a b Ha Hb. destruct (Hwalk i a b Ha Hb) as [Hab _].
    apply Hitems. by apply (dict_get_NoDup _ _ _ Hnd).
Qed.


(** *** How [Service.itinerary] fails *)

Lemma itinerary_loop_Raise (conn : dict Station Station) final fuel cur acc e :
  itinerary_loop fuel conn final cur acc = Raise e →
  e = KeyError ∧
  ∃ k x, hop conn cur k = Some x ∧ x ≠ final ∧ dict_get conn x = None.
Proof.
  revert cur acc. induction fuel as [|fuel IH]; intros cur acc Hrun; [done|].
  simpl in Hrun. destruct (decide (cur = final)) as [->|Hne]; [done|].
  unfold dict_getitem in Hrun.
  destruct (dict_get conn cur) as [nxt|] eqn:Hnxt; simpl in Hrun.
  - destruct (IH _ _ Hrun) as (-> & k & x & Hk & Hx & Hnone).
    split; [done|]. exists (S k), x. simpl. by rewrite Hnxt.
  - injection Hrun as <-. split; [done|]. by exists 0%nat, cur.
Qed.

Lemma find_departure_and_destination_outcome occ (conn : dict Station Station) :
  (∃ r, _find_departure_and_destination occ conn = Ok r) ∨
  _find_departure_and_destination occ conn = Raise StopIteration.
Proof.
  unfold _find_departure_and_destination.
  destruct (fst <$> filter _ conn) as [|dep ?]; simpl; [by right|].
  destruct (snd <$> filter _ conn) as [|fin ?]; simpl; [by right|].
  left. eauto.
Qed.

Lemma Service_itinerary_failure_cases (s : Service) :
  let station_occurrences :=
    (_calculate_station_occurrences_and_connections s).1 in
  let station_connections :=
    (_calculate_station_occurrences_and_connections s).2 in
  let ends :=
    _find_departure_and_destination station_occurrences station_connections in
  (∀ e, Service_itinerary s = Raise e → e = StopIteration ∨ e = KeyError) ∧
  (Service_itinerary s = Raise StopIteration ↔ ends = Raise StopIteration) ∧
  (Service_itinerary s = Raise KeyError →
   ∃ departure final_destination k x,
     ends = Ok (departure, final_destination) ∧
     hop station_connections departure k = Some x ∧
     x ≠ final_destination ∧ dict_get station_connections x = None) ∧
  (Service_itinerary s = Diverge →
   ∃ departure final_destination,
     ends = Ok (departure, final_destination) ∧
     ∀ k, ∃ x, hop station_connections departure k = Some x ∧
               x ≠ final_destination ∧
               is_Some (dict_get station_connections x)).
Proof.
  intros occ conn ends. subst occ conn ends.
  unfold Service_itinerary, _calculate_itinerary.
  destruct (_calculate_station_occurrences_and_connections s) as [occ conn].
  cbn [fst snd].
  destruct (find_departure_and_destination_outcome occ conn)
    as [[[dep fin] Hfind]|Hfind]; rewrite Hfind.
  - change (Ok (dep, fin) ≫= _)
      with (itinerary_loop (S (length conn)) conn fin dep []).
    split; [|split; [|split]].
    + intros e He. right. by apply itinerary_loop_Raise in He as [-> _].
    + split; [|done]. intros He. by apply itinerary_loop_Raise in He as [? _].
    + intros He. apply itinerary_loop_Raise in He as (_ & k & x & ? & ? & ?).
      by exists dep, fin, k, x.
    + intros Hdiv. exists dep, fin. split; [done|]. intros k.
      pose proof (itinerary_loop_cycle conn fin dep [] Hdiv (S k) []) as Hk.
      apply (proj1 (itinerary_loop_Diverge _ _ _ _ _) Hk). lia.
  - simpl. split; [|split; [|split]]; try done. intros e [= <-]. by left.
Qed.

(** *** [load_itinerary] on any service *)

Lemma load_legs_ids (s : Service) stations (fresh : ref) :
  ∃ new,
    load_legs s stations fresh
    = (set_legs s (legs s ++ new), (fresh + length new)%nat) ∧
    leg_ends <$> new = chain stations ∧
    leg_id <$> new = seq fresh (length new).
Proof.
  unfold load_legs. fold (chain stations).
  generalize (chain stations). intros pairs. revert s fresh.
  induction pairs as [|[a b] pairs IH]; intros s fresh; cbn [foldl].
  - exists []. rewrite app_nil_r, Nat.add_0_r. by destruct s.
  - destruct (IH (set_legs s (legs s ++ [new_Leg fresh a b])) (S fresh))
      as (new & Hrun & Hnew & Hids).
    exists (new_Leg fresh a b :: new).
    split; [|split; [by rewrite fmap_cons, Hnew|by rewrite fmap_cons, Hids]].
    etransitivity; [exact Hrun|]. simpl. rewrite <- app_assoc.
    f_equal. lia.
Qed.

Lemma load_ods_ids (s : Service) stations (fresh : ref) :
  ∃ new,
    load_ods s stations fresh
    = (set_ods s (ods s ++ new), (fresh + length new)%nat) ∧
    od_ends <$> new = combinations2 stations ∧
    od_id <$> new = seq fresh (length new) ∧
    Forall (λ od, od_passengers od = []) new.
Proof.
  unfold load_ods. generalize (combinations2 stations). intros pairs.
  revert s fresh.
  induction pairs as [|[a b] pairs IH]; intros s fresh; cbn [foldl].
  - exists []. rewrite app_nil_r, Nat.add_0_r. by destruct s.
  - destruct (IH (set_ods s (ods s ++ [new_OD fresh a b])) (S fresh))
      as (new & Hrun & Hnew & Hids & Hempty).
    exists (new_OD fresh a b :: new).
    split; [|split; [by rewrite fmap_cons, Hnew|
                     split; [by rewrite fmap_cons, Hids|by constructor]]].
    etransitivity; [exact Hrun|]. simpl. rewrite <- app_assoc.
    f_equal. lia.
Qed.

(** X12. [load_itinerary] on any service, empty or not: the legs and ODs
    it had stay in front, in order; after them come one new leg per pair of
    consecutive stations and one new OD, without passengers, per
    combination, [len(stations) - 1] and [len(stations) * (len(stations) - 1)
    / 2] of them; name and date are kept; and the new objects are pairwise
    distinct (their identities are the consecutive ones from [fresh]). *)
Theorem load_itinerary_appends (s : Service) stations (fresh : ref) :
  ∃ new_legs new_ods,
    load_itinerary s stations fresh
    = ({| service_name := service_name s;
          departure_date := departure_date s;
          legs := legs s ++ new_legs;
          ods := ods s ++ new_ods |},
       (fresh + length new_legs + length new_ods)%nat) ∧
    length new_legs = (length stations - 1)%nat ∧
    length new_ods = (length stations * (length stations - 1) / 2)%nat ∧
    leg_ends <$> new_legs = chain stations ∧
    od_ends <$> new_ods = combinations2 stations ∧
    Forall (λ od, od_passengers od = []) new_ods ∧
    (leg_id <$> new_legs) ++ (od_id <$> new_ods)
    = seq fresh (length new_legs + length new_ods).
Proof.
  unfold load_itinerary.
  destruct (load_legs_ids s stations fresh) as (new_legs & -> & Hlegs & Hlids).
  destruct (load_ods_ids (set_legs s (legs s ++ new_legs))
              stations (fresh + length new_legs)%nat)
    as (new_ods & -> & Hods & Hoids & Hempty).
  exists new_legs, new_ods. split; [done|].
  split; [by rewrite <- length_chain, <- Hlegs, length_fmap|].
  split; [by rewrite <- length_combinations2, <- Hods, length_fmap|].
  split; [done|]. split; [done|]. split; [done|].
  by rewrite Hlids, Hoids, seq_app.
Qed.

(** *** [OD.legs] *)

Lemma legs_lookup_chain (s : Service) stations k leg :
  leg_ends <$> legs s = chain stations →
  legs s !! k = Some leg →
  stations !! k = Some (leg_origin leg) ∧
  stations !! S k = Some (leg_destination leg).
Proof.
  intros Hchain Hleg.
  assert (chain stations !! k = Some (leg_ends leg)) as Hk.
  { by rewrite <- Hchain, list_lookup_fmap, Hleg. }
  unfold chain in Hk.
  apply lookup_zip_with_Some in Hk as (x & y & [= -> ->] & Hx & Hy).
  by rewrite lookup_tail in Hy.
Qed.

(** X18. [OD.legs] of an OD that runs against the itinerary, or from a
    station to itself, is the empty list, not an error: with the origin at
    position [a] and the destination at position [b <= a] the slice
    [legs[a:b]] is empty. *)
Theorem OD_legs_backwards (s : Service) stations (od : OD number) (a b : nat) :
  wf_legs s stations →
  stations !! a = Some (od_origin od) →
  stations !! b = Some (od_destination od) →
  (b ≤ a)%nat →
  OD_legs s od = Ok [].
Proof.
  intros Hwf Ha Hb Hba. rewrite (OD_legs_positions s stations od a b) by done.
  by replace (b - a)%nat with 0%nat by lia.
Qed.

(** X19. [OD.legs] composes: for stations at positions [a <= b <= c] of
    the itinerary, the legs of the OD from the first to the third are the
    legs of the OD from the first to the second followed by the legs of the OD
    from the second to the third. *)
Theorem OD_legs_concat (s : Service) stations (od1 od2 od3 : OD number)
    (a b c : nat) :
  wf_legs s stations →
  stations !! a = Some (od_origin od1) →
  stations !! b = Some (od_destination od1) →
  od_origin od2 = od_destination od1 →
  stations !! c = Some (od_destination od2) →
  od_origin od3 = od_origin od1 →
  od_destination od3 = od_destination od2 →
  (a ≤ b ≤ c)%nat →
  ∃ legs1 legs2,
    OD_legs s od1 = Ok legs1 ∧ OD_legs s od2 = Ok legs2 ∧
    OD_legs s od3 = Ok (legs1 ++ legs2).
Proof.
  intros Hwf Ha Hb Ho2 Hc Ho3 Hd3 Habc.
  exists (take (b - a) (drop a (legs s))), (take (c - b) (drop b (legs s))).
  split; [by apply (OD_legs_positions s stations)|].
  split; [apply (OD_legs_positions s stations); [done|by rewrite Ho2|done]|].
  rewrite (OD_legs_positions s stations od3 a c);
    [|done|by rewrite Ho3|by rewrite Hd3].
  f_equal. replace (c - a)%nat with ((b - a) + (c - b))%nat by lia.
  rewrite <- take_take_drop, drop_drop. do 3 f_equal. lia.
Qed.

(** X20. The legs returned by [OD.legs] form a journey from the origin
    to the destination: when [legs] is in itinerary order and the origin is
    at position [a] before the destination at position [b], the result has
    [b - a] legs, the first starts at the OD's origin, the last ends at the
    OD's destination, and each leg starts where the one before it ends. *)
Theorem OD_legs_endpoints (s : Service) stations (od : OD number) (a b : nat) :
  wf_legs s stations →
  leg_ends <$> legs s = chain stations →
  stations !! a = Some (od_origin od) →
  stations !! b = Some (od_destination od) →
  (a < b)%nat →
  ∃ od_legs first_leg last_leg,
    OD_legs s od = Ok od_legs ∧
    length od_legs = (b - a)%nat ∧
    head od_legs = Some first_leg ∧ leg_origin first_leg = od_origin od ∧
    last od_legs = Some last_leg ∧
    leg_destination last_leg = od_destination od ∧
    ∀ k leg1 leg2,
      od_legs !! k = Some leg1 → od_legs !! S k = Some leg2 →
      leg_destination leg1 = leg_origin leg2.
Proof.
  intros Hwf Hchain Ha Hb Hab.
  pose proof (wf_legs_length s stations Hwf) as Hlen.
  pose proof (lookup_lt_Some _ _ _ Hb) as Hblen.
  set (lg := take (b - a) (drop a (legs s))).
  assert (∀ k, (k < b - a)%nat → lg !! k = legs s !! (a + k)%nat) as Hlg.
  { intros k Hk. unfold lg. by rewrite lookup_take_lt, lookup_drop. }
  assert (length lg = (b - a)%nat) as Hlglen.
  { unfold lg. rewrite length_take, length_drop. lia. }
  destruct (lookup_lt_is_Some_2 (legs s) a) as [first_leg Hfirst]; [lia|].
  destruct (lookup_lt_is_Some_2 (legs s) (b - 1)) as [last_leg Hlast]; [lia|].
  exists lg, first_leg, last_leg.
  split; [by apply (OD_legs_positions s stations)|]. split; [done|].
  destruct (legs_lookup_chain s stations _ _ Hchain Hfirst) as [Hfo _].
  destruct (legs_lookup_chain s stations _ _ Hchain Hlast) as [_ Hld].
  replace (S (b - 1)) with b in Hld by lia.
  split; [|split; [congruence|split; [|split; [congruence|]]]].
  - rewrite head_lookup, Hlg by lia. by rewrite Nat.add_0_r.
  - rewrite last_lookup, Hlglen, Hlg by lia. rewrite <- Hlast. f_equal. lia.
  - intros k leg1 leg2 H1 H2.
    pose proof (lookup_lt_Some _ _ _ H2) as Hk. rewrite Hlglen in Hk.
    rewrite Hlg in H1, H2 by lia.
    destruct (legs_lookup_chain s stations _ _ Hchain H1) as [_ Hd1].
    destruct (legs_lookup_chain s stations _ _ Hchain H2) as [Ho2 _].
    rewrite Nat.add_succ_r in Ho2. congruence.
Qed.

(** *** [Leg.passengers] *)

(** X21. [Leg.passengers] compares legs by identity: for a [Leg] object
    that is not in [service.legs] (for instance a second object with the
    origin and destination of one that is), the result is the empty list,
    whatever the ODs hold. *)
Theorem Leg_passengers_foreign_leg (s : Service) stations (self : Leg) :
  wf_service s stations →
  self ∉ legs s →
  Leg_passengers s self = Ok [].
Proof.
  intros Hwf Hself.
  destruct (Leg_passengers_wf s stations self Hwf) as (l & Hrun & _ & Hl).
  rewrite Hrun. f_equal. destruct l as [|p l]; [done|]. exfalso.
  destruct (proj1 (Hl p)) as (od & lg & Hod & Hlg & Hin & _); [by left|].
  destruct Hwf as [Hlegs Hods]. destruct (Hods od Hod) as [Ho Hd].
  apply list_elem_of_lookup in Ho as [a Ha].
  apply list_elem_of_lookup in Hd as [b Hb].
  rewrite (OD_legs_positions s stations od a b) in Hlg by done.
  injection Hlg as <-. apply Hself.
  apply elem_of_take in Hin as (i & Hi & _). rewrite lookup_drop in Hi.
  by eapply list_elem_of_lookup_2.
Qed.

Lemma OD_legs_outside (s : Service) stations (od : OD number) :
  wf_legs s stations →
  od_origin od ∉ stations ∨ od_destination od ∉ stations →
  OD_legs s od = Raise ValueError.
Proof.
  intros Hwf Hout. unfold OD_legs.
  rewrite (Service_itinerary_wf s stations Hwf). simpl.
  destruct (decide (od_origin od ∈ stations)) as [Ho|Ho].
  - destruct Hwf as (Hnd & _).
    destruct (index_present stations _ Hnd Ho) as (i & _ & ->). simpl.
    destruct Hout as [?|Hd]; [done|]. by rewrite (index_absent _ _ Hd).
  - by rewrite (index_absent _ _ Ho).
Qed.

(** X22. One OD outside the itinerary breaks [Leg.passengers] for every
    leg: if the legs form a chain and some OD of the service has its origin or
    destination off the chain, [Leg.passengers] raises [ValueError] (from
    [list.index] in [OD.legs]) for every leg, whether or not that OD has
    passengers. *)
Theorem Leg_passengers_bad_OD (s : Service) stations (self : Leg) :
  wf_legs s stations →
  (∃ od, od ∈ ods s ∧
         (od_origin od ∉ stations ∨ od_destination od ∉ stations)) →
  Leg_passengers s self = Raise ValueError.
Proof.
  intros Hwf Hbad. unfold Leg_passengers.
  set (body := λ (od : OD number) (acc : list (Passenger number)),
         od_legs ← OD_legs s od;
         if decide (self ∈ od_legs)
         then Ok (foldl set_add acc (od_passengers od))
         else Ok acc).
  assert (∀ acc, for_each (ods s) body acc = Raise ValueError) as ->; [|done].
  revert Hbad. induction (ods s) as [|od l IH]; intros (bad & Hin & Hout) acc.
  { by inversion Hin. }
  change (for_each (od :: l) body acc) with (body od acc ≫= for_each l body).
  destruct (decide (od_origin od ∈ stations ∧ od_destination od ∈ stations))
    as [[Ho Hd]|Hno].
  - assert (∃ od', od' ∈ l ∧
                   (od_origin od' ∉ stations ∨ od_destination od' ∉ stations))
      as Hrest.
    { apply elem_of_cons in Hin as [->|Hin]; [by destruct Hout|eauto]. }
    subst body. cbv beta.
    destruct (OD_legs_wf s stations od Hwf Ho Hd) as [lg ->]. simpl.
    destruct (decide (self ∈ lg)); simpl; by apply IH.
  - subst body. cbv beta. rewrite (OD_legs_outside s stations od Hwf); [done|].
    destruct (decide (od_origin od ∈ stations)); [right|left]; tauto.
Qed.

Lemma elem_of_deliver (l : list (OD number)) ps od :
  od ∈ deliver l ps ↔
  ∃ k od0, l !! k = Some od0 ∧
           od = od_extend od0 (filter (λ p, located l p = Some k) ps).
Proof.
  rewrite list_elem_of_lookup. split.
  - intros [k Hk]. pose proof (lookup_lt_Some _ _ _ Hk) as Hlt.
    unfold deliver in Hlt. rewrite length_imap in Hlt.
    destruct (lookup_lt_is_Some_2 l k Hlt) as [od0 Hod0].
    rewrite (deliver_lookup l ps k od0 Hod0) in Hk. injection Hk as <-. eauto.
  - intros (k & od0 & Hod0 & ->). exists k. by apply deliver_lookup.
Qed.

(** X23. The three methods together: on a new service loaded with
    distinct stations and then with a manifest that is accepted, the
    passengers of the leg at position [i] are, without repetition, exactly
    the passengers of the manifest whose own origin is at a position [a <= i]
    and whose own destination is at a position [b > i]. *)
Theorem Leg_passengers_after_loading name date stations (fresh : ref) ps
    (i : nat) (leg : Leg) :
  NoDup stations → (2 ≤ length stations)%nat →
  let s0 : Service := (load_itinerary (new_Service name date) stations fresh).1 in
  let s1 := (load_passenger_manifest s0 ps).1 in
  (load_passenger_manifest s0 ps).2 = Ok () →
  legs s1 !! i = Some leg →
  ∃ l, Leg_passengers s1 leg = Ok l ∧ NoDup l ∧
       ∀ p, p ∈ l ↔
            p ∈ ps ∧
            ∃ a b : nat,
              stations !! a = Some (passenger_origin p) ∧
              stations !! b = Some (passenger_destination p) ∧
              (a ≤ i < b)%nat.
Proof.
  intros Hnd Hlen s0 s1 Hok Hleg.
  destruct (load_itinerary_spec (new_Service name date : Service)
              stations fresh)
    as (new_legs & new_ods & Hrun & Hlegs & Hods & Hempty).
  assert (leg_ends <$> legs s0 = chain stations) as Hchain
    by (subst s0; by rewrite Hrun).
  assert (od_ends <$> ods s0 = combinations2 stations) as Hends
    by (subst s0; by rewrite Hrun).
  assert (Forall (λ od, od_passengers od = []) (ods s0)) as Hnone
    by (subst s0; by rewrite Hrun).
  clearbody s0. clear Hrun Hlegs Hods Hempty new_legs new_ods.
  pose proof (proj1 (proj1 (load_passenger_manifest_outcome s0 ps)) Hok) as Hall.
  assert (s1 = set_ods s0 (deliver (ods s0) ps)) as Hs1.
  { subst s1. by rewrite load_passenger_manifest_ok. }
  clearbody s1. subst s1. simpl in Hleg.
  set (s1 := set_ods s0 (deliver (ods s0) ps)).
  assert (∀ od, od ∈ ods s0 →
                ∃ a b, (a < b)%nat ∧ stations !! a = Some (od_origin od) ∧
                       stations !! b = Some (od_destination od)) as Hpos.
  { intros od Hod. apply elem_of_combinations2. rewrite <- Hends.
    apply list_elem_of_fmap. by exists od. }
  assert (wf_service s1 stations) as Hwf.
  { split; [split; [done|split; [done|]]|]; simpl; [by rewrite Hchain|].
    intros od (k & od0 & Hod0 & ->)%elem_of_deliver. simpl.
    destruct (Hpos od0) as (a & b & _ & Ha & Hb);
      [by eapply list_elem_of_lookup_2|].
    split; by eapply list_elem_of_lookup_2. }
  destruct (Leg_passengers_wf s1 stations leg Hwf) as (l & Hl & Hndl & _).
  exists l. split; [done|]. split; [done|]. intros p.
  rewrite (Leg_passengers_crossing s1 stations i leg l Hwf Hchain Hleg Hl p).
  split.
  - intros (od & a & b & (k & od0 & Hod0 & ->)%elem_of_deliver
              & Ha & Hb & Hab & Hp).
    simpl in Ha, Hb, Hp.
    rewrite (proj1 (Forall_lookup _ _) Hnone _ _ Hod0) in Hp. simpl in Hp.
    apply list_elem_of_filter in Hp as [Hloc Hp]. split; [done|].
    apply located_Some in Hloc as (od' & Hod' & [Ho Hd] & _).
    assert (od' = od0) as -> by congruence.
    exists a, b. by rewrite <- Ho, <- Hd.
  - intros (Hp & a & b & Ha & Hb & Hab).
    destruct (Hall p Hp) as [k Hloc].
    pose proof Hloc as (od0 & Hod0 & [Ho Hd] & _)%located_Some.
    exists (od_extend od0 (filter (λ q, located (ods s0) q = Some k) ps)), a, b.
    split; [apply elem_of_deliver; eauto|]. simpl.
    split; [by rewrite Ho|]. split; [by rewrite Hd|]. split; [done|].
    apply elem_of_app. right. by apply list_elem_of_filter.
Qed.

End itinerary.

(** X17. How [Service.itinerary] fails, on any service.  The only
    exceptions are [StopIteration], raised exactly when no departure or no
    final destination is found, and [KeyError], raised when the walk from the
    departure comes to a station that is not the final destination and where
    no leg starts.  When the [while True] loop does not end, the walk from
    the departure goes on for ever through stations where a leg starts,
    none of them the final destination.  Both happen: the legs ply-msc,
    lpd-msc, nce-tln raise [KeyError], and the legs ply-lpd, lpd-msc,
    msc-lpd, nce-tln loop for ever. *)
Theorem Service_itinerary_failures :
  (∀ (number : Type) `(EqDecision number) (s : Service number),
     let station_occurrences :=
       (_calculate_station_occurrences_and_connections s).1 in
     let station_connections :=
       (_calculate_station_occurrences_and_connections s).2 in
     let ends :=
       _find_departure_and_destination station_occurrences
         station_connections in
     (∀ e, Service_itinerary s = Raise e → e = StopIteration ∨ e = KeyError) ∧
     (Service_itinerary s = Raise StopIteration ↔ ends = Raise StopIteration) ∧
     (Service_itinerary s = Raise KeyError →
      ∃ departure final_destination k x,
        ends = Ok (departure, final_destination) ∧
        hop station_connections departure k = Some x ∧
        x ≠ final_destination ∧ dict_get station_connections x = None) ∧
     (Service_itinerary s = Diverge →
      ∃ departure final_destination,
        ends = Ok (departure, final_destination) ∧
        ∀ k, ∃ x, hop station_connections departure k = Some x ∧
                  x ≠ final_destination ∧
                  is_Some (dict_get station_connections x))) ∧
  Service_itinerary Example.branching = Raise KeyError ∧
  Service_itinerary Example.looping = Diverge.
Proof.
  split; [|split; by vm_compute].
  intros number ? s. apply Service_itinerary_failure_cases.
Qed.

(** *** [OD.history] *)

Lemma StronglySorted_lookup_lt (l : list Z) i j a b :
  StronglySorted Z.lt l → (i < j)%nat →
  l !! i = Some a → l !! j = Some b → a < b.
Proof.
  intros Hs. revert i j. induction Hs as [|x l Hs IH Hx]; intros i j Hij Hi Hj.
  { done. }
  destruct j as [|j]; [lia|]. destruct i as [|i]; simpl in Hi, Hj.
  - injection Hi as ->. apply (proj1 (Forall_forall _ _) Hx).
    by eapply list_elem_of_lookup_2.
  - apply (IH i j); [lia|done..].
Qed.

Lemma StronglySorted_lt_NoDup (l : list Z) : StronglySorted Z.lt l → NoDup l.
Proof.
  intros Hs. apply NoDup_alt. intros i j x Hi Hj.
  destruct (Nat.lt_trichotomy i j) as [Hlt|[?|Hlt]]; [|done|]; exfalso.
  - pose proof (StronglySorted_lookup_lt l i j x x Hs Hlt Hi Hj). lia.
  - pose proof (StronglySorted_lookup_lt l j i x x Hs Hlt Hj Hi). lia.
Qed.

Lemma filter_ext_in {A} (P Q : A → Prop) `{∀ x, Decision (P x)}
    `{∀ x, Decision (Q x)} (l : list A) :
  (∀ x, x ∈ l → P x ↔ Q x) → filter P l = filter Q l.
Proof.
  induction l as [|a l IH]; intros Hl; [done|]. rewrite !filter_cons.
  rewrite IH by (intros x Hx; apply Hl; by right).
  pose proof (Hl a ltac:(left)).
  destruct (decide (P a)), (decide (Q a)); tauto || done.
Qed.

Lemma filter_all {A} (P : A → Prop) `{∀ x, Decision (P x)} (l : list A) :
  (∀ x, x ∈ l → P x) → filter P l = l.
Proof.
  induction l as [|a l IH]; intros Hl; [done|]. rewrite filter_cons.
  rewrite IH by (intros x Hx; apply Hl; by right).
  destruct (decide (P a)) as [|Hn]; [done|]. destruct Hn. apply Hl. by left.
Qed.

Lemma length_filter_split {A} (R P Q : A → Prop) `{∀ x, Decision (R x)}
    `{∀ x, Decision (P x)} `{∀ x, Decision (Q x)} (l : list A) :
  (∀ x, x ∈ l → (R x ↔ P x ∨ Q x) ∧ ¬ (P x ∧ Q x)) →
  length (filter R l) = (length (filter P l) + length (filter Q l))%nat.
Proof.
  induction l as [|a l IH]; intros Hl; [done|]. rewrite !filter_cons.
  specialize (IH (λ x Hx, Hl x (list_elem_of_further _ _ _ Hx))).
  pose proof (Hl a ltac:(left)) as [Hiff Hdisj].
  destruct (decide (R a)), (decide (P a)), (decide (Q a)); simpl; try lia;
    tauto.
Qed.

Lemma sumZ_filter_split {A} (f : A → Z) (R P Q : A → Prop)
    `{∀ x, Decision (R x)} `{∀ x, Decision (P x)} `{∀ x, Decision (Q x)}
    (l : list A) :
  (∀ x, x ∈ l → (R x ↔ P x ∨ Q x) ∧ ¬ (P x ∧ Q x)) →
  sumZ f (filter R l) = sumZ f (filter P l) + sumZ f (filter Q l).
Proof.
  induction l as [|a l IH]; intros Hl; [done|]. rewrite !filter_cons.
  specialize (IH (λ x Hx, Hl x (list_elem_of_further _ _ _ Hx))).
  pose proof (Hl a ltac:(left)) as [Hiff Hdisj].
  destruct (decide (R a)), (decide (P a)), (decide (Q a)); simpl; try lia;
    tauto.
Qed.

Lemma sumZ_abs {A} (f : A → Z) (l : list A) :
  Z.abs (sumZ f l) ≤ sumZ (λ x, Z.abs (f x)) l.
Proof. induction l as [|a l IH]; simpl; lia. Qed.

Lemma sumZ_filter_le {A} (f : A → Z) (P : A → Prop) `{∀ x, Decision (P x)}
    (l : list A) :
  (∀ x, 0 ≤ f x) → 0 ≤ sumZ f (filter P l) ≤ sumZ f l.
Proof.
  intros Hf. induction l as [|a l IH]; [done|]. rewrite filter_cons.
  pose proof (Hf a). destruct (decide (P a)); simpl; lia.
Qed.

Lemma sumZ_Permutation {A} (f : A → Z) (l l' : list A) :
  l ≡ₚ l' → sumZ f l = sumZ f l'.
Proof. induction 1; simpl; lia. Qed.

Section history.
Context {number : Type} `{EqDecision number}.
Variable add : number → number → number.
Variable zero : number.
Variable less : number → number → bool.
Abbreviation Passenger := (Passenger number).
Abbreviation point := (point number).

(** How the days of the rows of a history split the passengers. *)
Lemma history_days (h : list point) (ps : list Passenger) :
  StronglySorted Z.lt (point_day <$> h) →
  (∀ d, d ∈ point_day <$> h ↔ ∃ p, p ∈ ps ∧ sale_day_x p = d) →
  (∀ row p, h !! 0%nat = Some row → p ∈ ps →
            sale_day_x p ≤ point_day row ↔ sale_day_x p = point_day row) ∧
  (∀ i previous row p,
     h !! i = Some previous → h !! S i = Some row → p ∈ ps →
     (sale_day_x p ≤ point_day row ↔
      sale_day_x p = point_day row ∨ sale_day_x p ≤ point_day previous) ∧
     ¬ (sale_day_x p = point_day row ∧ sale_day_x p ≤ point_day previous)) ∧
  (∀ row p, last h = Some row → p ∈ ps → sale_day_x p ≤ point_day row).
Proof.
  intros Hsorted Hdays.
  assert (∀ i row, h !! i = Some row →
                   (point_day <$> h) !! i = Some (point_day row)) as Hday.
  { intros i row Hrow. by rewrite list_lookup_fmap, Hrow. }
  assert (∀ p, p ∈ ps → ∃ k, (point_day <$> h) !! k = Some (sale_day_x p))
    as Hpos.
  { intros p Hp. apply list_elem_of_lookup, Hdays. eauto. }
  pose proof (λ i j a b, StronglySorted_lookup_lt _ i j a b Hsorted) as Hlt.
  clear Hsorted.
  split; [|split].
  - intros row p Hrow Hp. split; [|lia]. intros Hle.
    destruct (Hpos p Hp) as [k Hk]. apply Hday in Hrow.
    destruct k as [|k]; [congruence|].
    pose proof (Hlt 0%nat (S k) _ _ ltac:(lia) Hrow Hk). lia.
  - intros i previous row p Hprev Hrow Hp.
    destruct (Hpos p Hp) as [k Hk]. apply Hday in Hprev, Hrow.
    pose proof (Hlt i (S i) _ _ ltac:(lia) Hprev Hrow).
    destruct (Nat.lt_trichotomy k i) as [Hki|[->|Hki]].
    + pose proof (Hlt k i _ _ Hki Hk Hprev). lia.
    + assert (sale_day_x p = point_day previous) by congruence. lia.
    + destruct (decide (k = S i)) as [->|Hne].
      * assert (sale_day_x p = point_day row) by congruence. lia.
      * pose proof (Hlt (S i) k _ _ ltac:(lia) Hrow Hk). lia.
  - intros row p Hlast Hp. rewrite last_lookup in Hlast.
    destruct (Hpos p Hp) as [k Hk]. apply Hday in Hlast.
    pose proof (lookup_lt_Some _ _ _ Hk) as Hklen.
    rewrite length_fmap in Hklen.
    destruct (decide (k = pred (length h))) as [->|Hne].
    + assert (sale_day_x p = point_day row) by congruence. lia.
    + pose proof (Hlt k (pred (length h)) _ _ ltac:(lia) Hk Hlast). lia.
Qed.

(** What the bookings entry of a row counts. *)
Lemma OD_history_bookings_upto (od : OD number) (h : list point) :
  OD_history add zero less od = Ok h →
  StronglySorted Z.lt (point_day <$> h) ∧
  (∀ d, d ∈ point_day <$> h ↔
        ∃ p, p ∈ od_passengers od ∧ sale_day_x p = d) ∧
  ∀ i row,
    h !! i = Some row →
    point_bookings row
    = len (filter (λ p, sale_day_x p ≤ point_day row) (od_passengers od)).
Proof.
  destruct (OD_history_spec add zero less od)
    as (h0 & Hrun & Hsorted & Hdays & Hfirst & Hnext).
  rewrite Hrun. intros [= <-]. split; [done|]. split; [done|].
  destruct (history_days h0 (od_passengers od) Hsorted Hdays)
    as (Hd0 & Hdi & _).
  set (ps := od_passengers od) in *.
  induction i as [|i IH]; intros row Hrow.
  - destruct (Hfirst row Hrow) as [-> _]. unfold bookings_on, booked_on.
    f_equal. apply filter_ext_in. intros p Hp. symmetry. by apply Hd0.
  - destruct (lookup_lt_is_Some_2 h0 i) as [previous Hprev].
    { apply lookup_lt_Some in Hrow. lia. }
    destruct (Hnext i previous row Hprev Hrow) as [-> _].
    rewrite (IH previous Hprev). unfold bookings_on, booked_on, len.
    rewrite (length_filter_split
               (λ p, sale_day_x p ≤ point_day row)
               (λ p, sale_day_x p = point_day row)
               (λ p, sale_day_x p ≤ point_day previous) ps); [lia|].
    intros p Hp. by apply (Hdi i).
Qed.

(** The days of a history depend on the passengers only as a multiset. *)
Lemma OD_history_days_Permutation (od od' : OD number) (h h' : list point) :
  od_passengers od ≡ₚ od_passengers od' →
  OD_history add zero less od = Ok h →
  OD_history add zero less od' = Ok h' →
  point_day <$> h = point_day <$> h'.
Proof.
  intros Hperm Hrun Hrun'.
  destruct (OD_history_bookings_upto od h Hrun) as (Hs & Hd & _).
  destruct (OD_history_bookings_upto od' h' Hrun') as (Hs' & Hd' & _).
  apply (StronglySorted_unique_strong Z.lt); [intros; lia|done..|].
  apply NoDup_Permutation; [by apply StronglySorted_lt_NoDup..|].
  intros d. rewrite Hd, Hd'. by setoid_rewrite Hperm.
Qed.

(** X24. What the bookings column of [OD.history] means: the row of a
    day holds the number of passengers of the OD who booked on or before that
    day.  So the column starts at 1 or more, grows strictly from row to row,
    and ends at the number of passengers of the OD; and there are at most as
    many rows as passengers (none for an OD without passengers).  This holds
    whatever the prices are. *)
Theorem OD_history_cumulative_bookings (od : OD number) :
  ∃ h,
    OD_history add zero less od = Ok h ∧
    (length h ≤ length (od_passengers od))%nat ∧
    (∀ i row,
       h !! i = Some row →
       point_bookings row
       = len (filter (λ p, sale_day_x p ≤ point_day row) (od_passengers od))) ∧
    (∀ row, h !! 0%nat = Some row → 1 ≤ point_bookings row) ∧
    (∀ i previous row,
       h !! i = Some previous → h !! S i = Some row →
       point_bookings previous < point_bookings row) ∧
    (∀ row, last h = Some row → point_bookings row = len (od_passengers od)).
Proof.
  destruct (OD_history_spec add zero less od)
    as (h & Hrun & Hsorted & Hdays & Hfirst & Hnext).
  destruct (history_days h (od_passengers od) Hsorted Hdays)
    as (_ & _ & Hdlast).
  set (ps := od_passengers od) in *.
  assert (∀ row, row ∈ h → 1 ≤ bookings_on (point_day row) ps) as Hpos.
  { intros row Hrow.
    destruct (proj1 (Hdays (point_day row))) as (p & Hp & Hday).
    { by apply list_elem_of_fmap_2. }
    unfold bookings_on, booked_on, len.
    assert (p ∈ filter (λ p, sale_day_x p = point_day row) ps) as Hin
      by (by apply list_elem_of_filter).
    destruct (filter _ ps); [by inversion Hin|simpl; lia]. }
  destruct (OD_history_bookings_upto od h Hrun) as (_ & _ & Hcum).
  exists h. split; [done|]. split; [|split; [done|split; [|split]]].
  - rewrite <- (length_fmap point_day h), <- (length_fmap sale_day_x ps).
    apply submseteq_length, NoDup_submseteq;
      [by apply StronglySorted_lt_NoDup|].
    intros d (p & Hp & <-)%Hdays. by apply list_elem_of_fmap_2.
  - intros row Hrow. destruct (Hfirst row Hrow) as [-> _].
    apply Hpos. by eapply list_elem_of_lookup_2.
  - intros i previous row Hprev Hrow.
    destruct (Hnext i previous row Hprev Hrow) as [-> _].
    pose proof (Hpos row ltac:(by eapply list_elem_of_lookup_2)). lia.
  - intros row Hlast. pose proof Hlast as Hl. rewrite last_lookup in Hl.
    rewrite (Hcum _ _ Hl). f_equal. apply filter_all.
    intros p Hp. by apply Hdlast.
Qed.

(** X26. The days and the bookings of [OD.history] do not depend on the
    order in which the passengers were appended: two ODs whose passenger lists
    are permutations of each other have histories with the same days and the
    same bookings column, whatever the prices and whatever [+] does. *)
Theorem OD_history_order_independent (od od' : OD number) :
  od_passengers od ≡ₚ od_passengers od' →
  ∃ h h',
    OD_history add zero less od = Ok h ∧
    OD_history add zero less od' = Ok h' ∧
    point_day <$> h = point_day <$> h' ∧
    point_bookings <$> h = point_bookings <$> h'.
Proof.
  intros Hperm.
  destruct (OD_history_spec add zero less od) as (h & Hrun & _).
  destruct (OD_history_spec add zero less od') as (h' & Hrun' & _).
  pose proof (OD_history_days_Permutation od od' h h' Hperm Hrun Hrun')
    as Hdays.
  exists h, h'. split; [done|]. split; [done|]. split; [done|].
  destruct (OD_history_bookings_upto od h Hrun) as (_ & _ & Hcum).
  destruct (OD_history_bookings_upto od' h' Hrun') as (_ & _ & Hcum').
  apply list_eq. intros i. rewrite !list_lookup_fmap.
  pose proof (f_equal (.!! i) Hdays) as Hi. simpl in Hi.
  rewrite !list_lookup_fmap in Hi.
  destruct (h !! i) as [row|] eqn:Hrow, (h' !! i) as [row'|] eqn:Hrow';
    simpl in *; try done.
  injection Hi as Hi.
  rewrite (Hcum i row Hrow), (Hcum' i row' Hrow'), Hi. unfold len.
  by rewrite Hperm.
Qed.

(** From here on the prices are integers.  [history] adds them as floats,
    since it starts each sum at [0.0]: [repr] is the conversion [float(k)],
    and adding two integers is exact as long as they and their sum stay
    within [bound], which for Python's floats is 2^53.  Nothing is asked of
    [+] on other numbers. *)
Variable repr : Z → number.
Variable bound : Z.
Hypothesis repr_zero : repr 0 = zero.
Hypothesis add_repr :
  ∀ a b, Z.abs a ≤ bound → Z.abs b ≤ bound → Z.abs (a + b) ≤ bound →
         add (repr a) (repr b) = repr (a + b).

Lemma foldl_add_repr (l : list (Transport.Passenger Z)) (a : Z) :
  Z.abs a + sumZ (λ p, Z.abs (price p)) l ≤ bound →
  foldl (λ acc p, add acc (price p)) (repr a) (convert_price repr <$> l)
  = repr (a + sumZ price l).
Proof.
  revert a. induction l as [|p l IH]; intros a Hbound; simpl in *.
  { by rewrite Z.add_0_r. }
  pose proof (sumZ_abs price l).
  rewrite add_repr by lia. rewrite IH by lia. f_equal. lia.
Qed.

Lemma filter_convert_price (Q : Z → Prop) `{∀ d, Decision (Q d)}
    (l : list (Transport.Passenger Z)) :
  filter (λ p : Passenger, Q (sale_day_x p)) (convert_price repr <$> l)
  = convert_price repr <$> filter (λ p, Q (sale_day_x p)) l.
Proof.
  induction l as [|p l IH]; [done|].
  rewrite fmap_cons, !filter_cons, IH. simpl.
  by destruct (decide (Q (sale_day_x p))).
Qed.

Lemma revenue_on_repr (d : Z) (l : list (Transport.Passenger Z)) :
  sumZ (λ p, Z.abs (price p)) l ≤ bound →
  revenue_on add zero d (convert_price repr <$> l)
  = repr (sumZ price (filter (λ p, sale_day_x p = d) l)).
Proof.
  intros Hbound. unfold revenue_on, booked_on.
  pose proof (filter_convert_price (λ d', d' = d) l) as Hfilter.
  cbv beta in Hfilter. rewrite Hfilter, <- repr_zero.
  rewrite foldl_add_repr; [done|].
  pose proof (sumZ_filter_le (λ p : Transport.Passenger Z, Z.abs (price p))
                (λ p, sale_day_x p = d) l ltac:(intros; lia)).
  simpl. lia.
Qed.

(** What the revenue entry of a row adds up. *)
Lemma OD_history_revenue_upto (od : OD number)
    (ps0 : list (Transport.Passenger Z)) (h : list point) :
  od_passengers od = convert_price repr <$> ps0 →
  sumZ (λ p, Z.abs (price p)) ps0 ≤ bound →
  OD_history add zero less od = Ok h →
  ∀ i row,
    h !! i = Some row →
    point_revenue row
    = repr (sumZ price (filter (λ p, sale_day_x p ≤ point_day row) ps0)).
Proof.
  intros Hps Hbound.
  destruct (OD_history_spec add zero less od)
    as (h0 & Hrun & Hsorted & Hdays & Hfirst & Hnext).
  rewrite Hrun. intros [= <-].
  destruct (history_days h0 (od_passengers od) Hsorted Hdays)
    as (Hd0 & Hdi & _).
  rewrite Hps in Hfirst, Hnext, Hd0, Hdi.
  assert (∀ p, p ∈ ps0 → convert_price repr p ∈ convert_price repr <$> ps0)
    as Hin by (intros; by apply list_elem_of_fmap_2).
  set (abs_price := λ p : Transport.Passenger Z, Z.abs (price p)) in *.
  assert (∀ x, 0 ≤ abs_price x) as Hnonneg by (intros; unfold abs_price; lia).
  induction i as [|i IH]; intros row Hrow.
  - destruct (Hfirst row Hrow) as [_ ->]. rewrite revenue_on_repr by done.
    do 2 f_equal. apply filter_ext_in. intros p Hp. symmetry.
    apply (Hd0 row (convert_price repr p) Hrow (Hin p Hp)).
  - destruct (lookup_lt_is_Some_2 h0 i) as [previous Hprev].
    { apply lookup_lt_Some in Hrow. lia. }
    destruct (Hnext i previous row Hprev Hrow) as [_ ->].
    rewrite (IH previous Hprev), revenue_on_repr by done.
    assert (∀ p, p ∈ ps0 →
              (sale_day_x p ≤ point_day row ↔
               sale_day_x p = point_day row ∨
               sale_day_x p ≤ point_day previous) ∧
              ¬ (sale_day_x p = point_day row ∧
                 sale_day_x p ≤ point_day previous)) as Hsplit.
    { intros p Hp.
      apply (Hdi i previous row (convert_price repr p) Hprev Hrow (Hin p Hp)). }
    pose proof (sumZ_filter_split price
                  (λ p, sale_day_x p ≤ point_day row)
                  (λ p, sale_day_x p = point_day row)
                  (λ p, sale_day_x p ≤ point_day previous) ps0 Hsplit) as Hsum.
    pose proof (sumZ_filter_split abs_price
                  (λ p, sale_day_x p ≤ point_day row)
                  (λ p, sale_day_x p = point_day row)
                  (λ p, sale_day_x p ≤ point_day previous) ps0 Hsplit) as Habs.
    pose proof (sumZ_filter_le abs_price
                  (λ p, sale_day_x p ≤ point_day row) ps0 Hnonneg).
    pose proof (sumZ_filter_le abs_price
                  (λ p, sale_day_x p = point_day row) ps0 Hnonneg).
    pose proof (sumZ_filter_le abs_price
                  (λ p, sale_day_x p ≤ point_day previous) ps0 Hnonneg).
    pose proof (sumZ_abs price
                  (filter (λ p, sale_day_x p ≤ point_day row) ps0)).
    pose proof (sumZ_abs price
                  (filter (λ p, sale_day_x p = point_day row) ps0)).
    pose proof (sumZ_abs price
                  (filter (λ p, sale_day_x p ≤ point_day previous) ps0)).
    subst abs_price. cbv beta in *.
    rewrite add_repr by lia. by rewrite Hsum.
Qed.

(** X25. What the revenue column of [OD.history] means for integer prices
    whose absolute values add up to no more than the bound of exact float
    addition (2^53 for Python's floats): the row of a day holds, as a float,
    the sum of the prices paid by the passengers who booked on or before
    that day, and the last row the sum of all prices.  The additions are the
    code's own: the theorem asks of [+] only that it adds integers within
    the bound exactly. *)
Theorem OD_history_cumulative_revenue (od : OD number)
    (ps0 : list (Transport.Passenger Z)) :
  od_passengers od = convert_price repr <$> ps0 →
  sumZ (λ p, Z.abs (price p)) ps0 ≤ bound →
  ∃ h,
    OD_history add zero less od = Ok h ∧
    (∀ i row,
       h !! i = Some row →
       point_revenue row
       = repr (sumZ price (filter (λ p, sale_day_x p ≤ point_day row) ps0))) ∧
    (∀ row, last h = Some row → point_revenue row = repr (sumZ price ps0)).
Proof.
  intros Hps Hbound.
  destruct (OD_history_spec add zero less od)
    as (h & Hrun & Hsorted & Hdays & _).
  destruct (history_days h (od_passengers od) Hsorted Hdays)
    as (_ & _ & Hdlast).
  pose proof (OD_history_revenue_upto od ps0 h Hps Hbound Hrun) as Hcum.
  exists h. split; [done|]. split; [done|].
  intros row Hlast. pose proof Hlast as Hl. rewrite last_lookup in Hl.
  rewrite (Hcum _ _ Hl). do 2 f_equal. apply filter_all.
  intros p Hp. apply (Hdlast row (convert_price repr p) Hlast).
  rewrite Hps. by apply list_elem_of_fmap_2.
Qed.

(** X27. For integer prices within the bound of exact float addition the
    whole history is independent of the order of the passengers: two ODs
    whose passenger lists hold the same bookings in another order return the
    same history, revenue column included.  (For prices that are not
    integers this fails: the float sums of 0.1, 0.2 and 0.3 depend on the
    order.) *)
Theorem OD_history_order_independent_exact (od od' : OD number)
    (ps0 ps0' : list (Transport.Passenger Z)) :
  od_passengers od = convert_price repr <$> ps0 →
  od_passengers od' = convert_price repr <$> ps0' →
  ps0 ≡ₚ ps0' →
  sumZ (λ p, Z.abs (price p)) ps0 ≤ bound →
  OD_history add zero less od = OD_history add zero less od'.
Proof.
  intros Hps Hps' Hperm Hbound.
  assert (sumZ (λ p : Transport.Passenger Z, Z.abs (price p)) ps0' ≤ bound)
    as Hbound' by (by rewrite <- (sumZ_Permutation _ _ _ Hperm)).
  assert (od_passengers od ≡ₚ od_passengers od') as Hperm'
    by (by rewrite Hps, Hps', Hperm).
  destruct (OD_history_spec add zero less od) as (h & Hrun & _).
  destruct (OD_history_spec add zero less od') as (h' & Hrun' & _).
  pose proof (OD_history_days_Permutation od od' h h' Hperm' Hrun Hrun')
    as Hdays.
  destruct (OD_history_bookings_upto od h Hrun) as (_ & _ & Hcum).
  destruct (OD_history_bookings_upto od' h' Hrun') as (_ & _ & Hcum').
  pose proof (OD_history_revenue_upto od ps0 h Hps Hbound Hrun) as Hrev.
  pose proof (OD_history_revenue_upto od' ps0' h' Hps' Hbound' Hrun') as Hrev'.
  rewrite Hrun, Hrun'. f_equal. apply list_eq. intros i.
  pose proof (f_equal (.!! i) Hdays) as Hi. simpl in Hi.
  rewrite !list_lookup_fmap in Hi.
  destruct (h !! i) as [row|] eqn:Hrow, (h' !! i) as [row'|] eqn:Hrow';
    simpl in *; try done.
  injection Hi as Hi. f_equal.
  specialize (Hcum i row Hrow). specialize (Hcum' i row' Hrow').
  specialize (Hrev i row Hrow). specialize (Hrev' i row' Hrow').
  destruct row as [[d b] v], row' as [[d' b'] v'].
  unfold point_day, point_bookings, point_revenue in *. simpl in *. subst d'.
  f_equal; [f_equal|].
  - rewrite Hcum, Hcum'. unfold len. by rewrite Hperm'.
  - rewrite Hrev, Hrev'. f_equal. apply sumZ_Permutation. by rewrite Hperm.
Qed.

End history.

(** *** The theorems above on the example of the source *)

Lemma Service_itinerary_StopIteration_witness :
  Service_itinerary Example.circular = Raise StopIteration ∧
  ∀ od : OD Z, OD_legs Example.circular od = Raise StopIteration.
Proof.
  apply Service_itinerary_StopIteration. left. apply Forall_forall.
  by_computation.
Defined.

Lemma Service_itinerary_sound_witness :
  NoDup Example.itinerary ∧
  (length Example.itinerary ≤ length (legs Example.service) + 1)%nat ∧
  (∃ departure final_destination,
     head Example.itinerary = Some departure ∧
     last Example.itinerary = Some final_destination ∧
     occurrences departure (leg_ends <$> legs Example.service) = 1 ∧
     occurrences final_destination (leg_ends <$> legs Example.service) = 1 ∧
     departure ∈ leg_origin <$> legs Example.service ∧
     final_destination ∈ leg_destination <$> legs Example.service) ∧
  ∀ i a b,
    Example.itinerary !! i = Some a → Example.itinerary !! S i = Some b →
    ∃ leg, leg ∈ legs Example.service ∧
           leg_origin leg = a ∧ leg_destination leg = b.
Proof.
  apply (Service_itinerary_sound Example.service Example.itinerary).
  by vm_compute.
Defined.

Lemma OD_legs_backwards_witness :
  OD_legs Example.service (new_OD 28%nat Example.msc Example.ply) = Ok [].
Proof.
  apply (OD_legs_backwards Example.service Example.itinerary _ 2 0);
    [exact wf_legs_example|reflexivity|reflexivity|lia].
Defined.

Lemma OD_legs_concat_witness :
  ∃ legs1 legs2,
    OD_legs Example.service (new_OD 29%nat Example.ply Example.lpd) = Ok legs1 ∧
    OD_legs Example.service (new_OD 30%nat Example.lpd Example.msc) = Ok legs2 ∧
    OD_legs Example.service (new_OD 31%nat Example.ply Example.msc)
    = Ok (legs1 ++ legs2).
Proof.
  apply (OD_legs_concat Example.service Example.itinerary _ _ _ 0 1 2);
    [exact wf_legs_example|reflexivity..|lia].
Defined.

Lemma OD_legs_endpoints_witness :
  ∃ od_legs first_leg last_leg,
    OD_legs Example.service (new_OD 31%nat Example.ply Example.msc)
    = Ok od_legs ∧
    length od_legs = (2 - 0)%nat ∧
    head od_legs = Some first_leg ∧ leg_origin first_leg = Example.ply ∧
    last od_legs = Some last_leg ∧ leg_destination last_leg = Example.msc ∧
    ∀ k leg1 leg2,
      od_legs !! k = Some leg1 → od_legs !! S k = Some leg2 →
      leg_destination leg1 = leg_origin leg2.
Proof.
  apply (OD_legs_endpoints Example.service Example.itinerary
           (new_OD 31%nat Example.ply Example.msc) 0 2);
    [exact wf_legs_example|reflexivity|reflexivity|reflexivity|lia].
Defined.

Lemma Leg_passengers_foreign_leg_witness :
  Leg_passengers Example.service (new_Leg 32%nat Example.ply Example.lpd)
  = Ok [].
Proof.
  apply (Leg_passengers_foreign_leg Example.service Example.itinerary);
    [exact wf_service_example|by_computation].
Defined.

Lemma Leg_passengers_bad_OD_witness :
  Leg_passengers
    (set_ods Example.service (ods Example.service ++ [Example.od_ply_nce]))
    (new_Leg 8%nat Example.ply Example.lpd)
  = Raise ValueError.
Proof.
  apply (Leg_passengers_bad_OD _ Example.itinerary); [exact wf_legs_example|].
  exists Example.od_ply_nce.
  split; [|right; by_computation].
  change (Example.od_ply_nce ∈ ods Example.service ++ [Example.od_ply_nce]).
  apply elem_of_app. right. by left.
Defined.

Lemma Leg_passengers_after_loading_witness :
  ∃ l, Leg_passengers Example.service (new_Leg 8%nat Example.ply Example.lpd)
       = Ok l ∧
       NoDup l ∧
       ∀ p, p ∈ l ↔
            p ∈ Example.manifest ∧
            ∃ a b : nat,
              Example.itinerary !! a = Some (passenger_origin p) ∧
              Example.itinerary !! b = Some (passenger_destination p) ∧
              (a ≤ 0 < b)%nat.
Proof.
  apply (Leg_passengers_after_loading "7601" 7 Example.itinerary 8%nat
           Example.manifest 0 (new_Leg 8%nat Example.ply Example.lpd));
    [by_computation|simpl; lia|reflexivity|reflexivity].
Defined.

(** Python's float addition is exact on the integers up to 200: every pair
    is added by the kernel's own binary64 addition. *)
Lemma float_add_exact_200 (a b : Z) :
  Z.abs a ≤ 200 → Z.abs b ≤ 200 → Z.abs (a + b) ≤ 200 →
  PrimFloat.add (float_of_int a) (float_of_int b) = float_of_int (a + b).
Proof.
  intros Ha Hb _.
  assert (Forall (λ a, Forall (λ b, PrimFloat.add (float_of_int a)
                                      (float_of_int b)
                                    = float_of_int (a + b))
                         (seqZ (-200) 401))
                 (seqZ (-200) 401)) as Hall by by_computation.
  assert (∀ z, Z.abs z ≤ 200 → z ∈ seqZ (-200) 401) as Hin.
  { intros z Hz. apply elem_of_seqZ. lia. }
  pose proof (proj1 (Forall_forall _ _) Hall a (Hin a Ha)) as Hrow.
  exact (proj1 (Forall_forall _ _) Hrow b (Hin b Hb)).
Qed.

Lemma OD_history_cumulative_revenue_witness :
  ∃ h,
    OD_history PrimFloat.add PrimFloat.zero PrimFloat.ltb
      (od_extend (new_OD 16%nat Example.ply Example.nce)
         Example.manifest_float)
    = Ok h ∧
    (∀ i row,
       h !! i = Some row →
       point_revenue row
       = float_of_int
           (sumZ price
              (filter (λ p, sale_day_x p ≤ point_day row) Example.manifest))) ∧
    (∀ row, last h = Some row →
            point_revenue row = float_of_int (sumZ price Example.manifest)).
Proof.
  apply (OD_history_cumulative_revenue PrimFloat.add PrimFloat.zero
           PrimFloat.ltb float_of_int 200);
    [reflexivity|exact float_add_exact_200|reflexivity|by vm_compute].
Defined.

Lemma OD_history_order_independent_witness :
  ∃ h h',
    OD_history Z.add 0 Z.ltb (od_extend Example.od_ply_nce Example.manifest)
    = Ok h ∧
    OD_history Z.add 0 Z.ltb
      (od_extend Example.od_ply_nce (reverse Example.manifest))
    = Ok h' ∧
    point_day <$> h = point_day <$> h' ∧
    point_bookings <$> h = point_bookings <$> h'.
Proof.
  apply (OD_history_order_independent Z.add 0 Z.ltb).
  change (Example.manifest ≡ₚ reverse Example.manifest).
  symmetry. apply reverse_Permutation.
Defined.

Lemma OD_history_order_independent_exact_witness :
  OD_history PrimFloat.add PrimFloat.zero PrimFloat.ltb
    (od_extend (new_OD 16%nat Example.ply Example.nce) Example.manifest_float)
  = OD_history PrimFloat.add PrimFloat.zero PrimFloat.ltb
      (od_extend (new_OD 16%nat Example.ply Example.nce)
         (convert_price float_of_int <$> reverse Example.manifest)).
Proof.
  apply (OD_history_order_independent_exact PrimFloat.add PrimFloat.zero
           PrimFloat.ltb float_of_int 200 eq_refl float_add_exact_200
           _ _ Example.manifest (reverse Example.manifest));
    [reflexivity|reflexivity|symmetry; apply reverse_Permutation
    |by vm_compute].
Defined.

End TransportProperties.
